(** * Structured-op matchers of iree-dialects: a shallow embedding

    Source files:
    - llvm-external-projects/iree-dialects/include/iree-dialects/Transforms/TransformMatchers.h
    - llvm-external-projects/iree-dialects/lib/Transforms/TransformMatchers.cpp

    The IR (operations, values, uses, regions) is external to the matcher
    engine; it is represented by a record of the queries the matchers make.
    Matcher objects are identified by an identity ([MatcherId]); their mutable
    parts (the captured operation and the scalar capture cells bound through
    [CaptureStaticValue]) live in a shared store, so that two references to
    the same matcher object observe the same captured operation. *)

From Stdlib Require Import ZArith List Bool Lia.
From stdpp Require Import base gmap sets list strings.
Import ListNotations.
Local Open Scope Z_scope.
Local Set Warnings "-clear-no-such-hyp".

(** ** Outcomes of running C++ code *)

(** What stops a run before it returns a value: an index outside a container
    (an assertion of [SmallVector::operator[]], [ArrayRef::slice] or of an
    operand accessor), another failed [assert], a remainder by zero, or a loop
    of the model that was cut off by its fuel. *)
Inductive Fault : Type :=
| OutOfBounds
| AssertionFailure
| DivisionByZero
| OutOfFuel.

Inductive result (A : Type) : Type :=
| Ok (a : A)
| Crash (f : Fault).
Arguments Ok {A} a.
Arguments Crash {A} f.

Definition rbind {A B : Type} (r : result A) (k : A -> result B) : result B :=
  match r with
  | Ok a => k a
  | Crash f => Crash f
  end.

(** ** Machine integers *)

Definition two64 : Z := 2 ^ 64.

(** Conversion of an [int64_t] to [size_t] (modular). *)
Definition to_size_t (i : Z) : Z := i mod two64.

(** Reinterpretation of a [size_t] as an [int64_t]. *)
Definition to_int64 (u : Z) : Z :=
  let w := u mod two64 in
  if w <? 2 ^ 63 then w else w - two64.

(** [v[i]] on a [SmallVector] or [ArrayRef]: the index is converted to
    [size_t] and must be below the size. *)
Definition index {A : Type} (v : list A) (i : Z) : result A :=
  let u := to_size_t i in
  if u <? Z.of_nat (length v) then
    match nth_error v (Z.to_nat u) with
    | Some a => Ok a
    | None => Crash OutOfBounds
    end
  else Crash OutOfBounds.

(** ** Operations and values *)

(** An [Operation *] that is not null. A nullable pointer is an [option]. *)
Definition Op : Type := nat.

(** An [OpOperand]: the owner and the operand number. *)
Record OpOperand : Type := mkOpOperand {
  getOwner : Op;
  getOperandNumber : nat
}.

(** A [Value] is the result of an operation or a block argument. *)
Inductive Value : Type :=
| OpResult (owner : Op) (resultNumber : nat)
| BlockArgument (parentOp : Op) (argNumber : nat).

Global Instance Value_eq_dec : EqDecision Value.
Proof. solve_decision. Defined.

Global Instance OpOperand_eq_dec : EqDecision OpOperand.
Proof. solve_decision. Defined.

(** ** MatchCallbackResult *)

Module MatchCallbackResult.

(** The flat list of payload operations and the lengths of the groups.
    A payload entry is an [Operation *]; [addPayloadGroup] asserts that
    none is null, so the list holds non-null operations. *)
Record t : Type := mk {
  payloadOperations : list Op;
  payloadGroupLengths : list Z
}.

Definition empty : t := mk [] [].

Definition getNumPayloadGroups (r : t) : nat :=
  length (payloadGroupLengths r).

(** [ArrayRef::slice(N, M)] asserts [N + M <= size()]. *)
Definition slice {A : Type} (v : list A) (n m : Z) : result (list A) :=
  if (0 <=? n) && (0 <=? m) && (n + m <=? Z.of_nat (length v)) then
    Ok (firstn (Z.to_nat m) (skipn (Z.to_nat n) v))
  else Crash OutOfBounds.

(** The loop [for (i = 0; i < position; ++i) start += lengths[i]]. *)
Fixpoint sum_prefix (lengths : list Z) (position : nat) (start : Z) : Z :=
  match position, lengths with
  | S p, l :: rest => sum_prefix rest p (start + l)
  | _, _ => start
  end.

Definition getPayloadGroup (r : t) (position : nat) : result (list Op) :=
  match nth_error (payloadGroupLengths r) position with
  | None => Crash AssertionFailure
  | Some len =>
      slice (payloadOperations r)
            (sum_prefix (payloadGroupLengths r) position 0) len
  end.

(** The operations of a range of pointers none of which is null. *)
Fixpoint pointees (operations : list (option Op)) : list Op :=
  match operations with
  | [] => []
  | Some o :: rest => o :: pointees rest
  | None :: rest => pointees rest
  end.

(** [addPayloadGroup(Range)]: the range is a list of nullable pointers. *)
Definition addPayloadGroup (operations : list (option Op)) (r : t)
  : result (nat * t) :=
  let originalLength := Z.of_nat (length (payloadOperations r)) in
  if forallb (fun o => match o with Some _ => true | None => false end)
             operations then
    let ops' := payloadOperations r ++ pointees operations in
    let lens' := payloadGroupLengths r
                 ++ [Z.of_nat (length ops') - originalLength] in
    Ok ((length lens' - 1)%nat, mk ops' lens')
  else Crash AssertionFailure.

Definition addPotentiallyEmptyPayloadGroup (op : option Op) (r : t)
  : result t :=
  match op with
  | None => rbind (addPayloadGroup [] r) (fun p => Ok (snd p))
  | Some o => rbind (addPayloadGroup [Some o] r) (fun p => Ok (snd p))
  end.

(** The group [addPotentiallyEmptyPayloadGroup] is to append. *)
Definition optionalGroup (op : option Op) : list Op :=
  match op with
  | Some o => [o]
  | None => []
  end.

(** The lengths are those of consecutive segments of the flat list. *)
Definition wf (r : t) : Prop :=
  Forall (fun l => 0 <= l) (payloadGroupLengths r)
  /\ fold_right Z.add 0 (payloadGroupLengths r)
     = Z.of_nat (length (payloadOperations r)).

End MatchCallbackResult.

(** ** The IR as the matchers see it *)

Inductive ShapeKind : Type := Static | Dynamic.

Inductive IteratorType : Type := parallel | reduction.

(** The operation classes the matchers test with [isa] and [dyn_cast]. *)
Inductive OpKind : Type :=
| FillOp
| GenericOp
| ExtractSliceOp
| ForeachThreadOp
| FuncOp
| OtherOp.

Global Instance ShapeKind_eq_dec : EqDecision ShapeKind.
Proof. solve_decision. Defined.
Global Instance IteratorType_eq_dec : EqDecision IteratorType.
Proof. solve_decision. Defined.
Global Instance OpKind_eq_dec : EqDecision OpKind.
Proof. solve_decision. Defined.

(** The queries of the host IR used by TransformMatchers.cpp. Their code is
    MLIR's, outside this repository; each field is named after the accessor
    it stands for. *)
Record IR : Type := mkIR {
  (** [ShapedType::kDynamic] *)
  kDynamic : Z;
  (** the class of an operation, for [isa<OpTy>] and [dyn_cast<OpTy>] *)
  opKind : Op -> OpKind;
  (** [dyn_cast<linalg::LinalgOp>(op)] succeeds *)
  isLinalgOp : Op -> bool;
  (** the operation implements [TilingInterface] *)
  isTilingInterface : Op -> bool;
  (** [LinalgOp::getNumLoops], an [unsigned] *)
  getNumLoops : Op -> nat;
  getStaticLoopRanges : Op -> list Z;
  getIteratorTypesArray : Op -> list IteratorType;
  getDpsInputOperands : Op -> list OpOperand;
  getDpsInitOperands : Op -> list OpOperand;
  (** [linalgOp.getMatchingIndexingMap(operand).isPermutation()] *)
  isPermutation : OpOperand -> bool;
  isProjectedPermutation : OpOperand -> bool;
  (** [OpOperand::get]: the value an operand refers to *)
  get : OpOperand -> Value;
  getNumResults : Op -> nat;
  (** [Value::getUses], in use-list order *)
  getUses : Value -> list OpOperand;
  (** [op->getParentOfType<OpTy>()] *)
  getParentOfType : Op -> OpKind -> option Op;
  (** the operations visited by [parent->walk(...)] *)
  walk : Op -> list Op;
  (** [tensor::ExtractSliceOp::getSource] *)
  getSource : Op -> Value;
  (** [scf::ForeachThreadOp::getOutputBlockArguments] *)
  getOutputBlockArguments : Op -> list Value;
  (** [scf::ForeachThreadOp::getTiedOpOperand], for an output block
      argument of the loop *)
  getTiedOpOperand : Op -> Value -> OpOperand;
  (** the bit width of the element type of a value of shaped type with an
      integer or float element type, nothing otherwise *)
  elementBitWidth : Value -> option nat;
  (** [matchReduction(linalgOp.getRegionOutputArgs(), pos, combinerOps)]:
      the combiner operations when the reduction was matched *)
  matchReduction : Op -> Z -> option (list Op)
}.

(** [Value::getDefiningOp]: null for a block argument. *)
Definition getDefiningOp (val : Value) : option Op :=
  match val with
  | OpResult owner _ => Some owner
  | BlockArgument _ _ => None
  end.

(** [ShapedType::isDynamic]. *)
Definition isDynamic (ir : IR) (size : Z) : bool := size =? kDynamic ir.

Definition getNumDpsInputs (ir : IR) (op : Op) : Z :=
  Z.of_nat (length (getDpsInputOperands ir op)).

Definition getNumDpsInits (ir : IR) (op : Op) : Z :=
  Z.of_nat (length (getDpsInitOperands ir op)).

(** [getDpsInputOperand(i)] and [getDpsInitOperand(i)] assert that [i] is
    in range. *)
Definition getDpsInputOperand (ir : IR) (op : Op) (i : Z) : result OpOperand :=
  if (0 <=? i) && (i <? getNumDpsInputs ir op)
  then index (getDpsInputOperands ir op) i
  else Crash AssertionFailure.

Definition getDpsInitOperand (ir : IR) (op : Op) (i : Z) : result OpOperand :=
  if (0 <=? i) && (i <? getNumDpsInits ir op)
  then index (getDpsInitOperands ir op) i
  else Crash AssertionFailure.

(** [op->getResult(i)] asserts that [i] is below the number of results;
    the index is an [unsigned]. *)
Definition getResult (ir : IR) (op : Op) (i : Z) : result Value :=
  let u := i mod 2 ^ 32 in
  if u <? Z.of_nat (getNumResults ir op)
  then Ok (OpResult op (Z.to_nat u))
  else Crash AssertionFailure.

(** ** Subset traversal *)

Section Traversal.
Variable ir : IR.

(** [traverseSubsetsBackwards]: one turn of the [do ... while (true)] per
    unit of fuel. *)
Fixpoint traverseSubsetsBackwards (fuel : nat) (val : Value) : result Op :=
  match fuel with
  | O => Crash OutOfFuel
  | S fuel' =>
      match getDefiningOp val with
      | None =>
          match val with
          | BlockArgument blockOp _ =>
              match opKind ir blockOp with
              | ForeachThreadOp =>
                  traverseSubsetsBackwards fuel'
                    (get ir (getTiedOpOperand ir blockOp val))
              | _ => Ok blockOp
              end
          | OpResult op _ => Ok op
          end
      | Some op =>
          match opKind ir op with
          | ExtractSliceOp => traverseSubsetsBackwards fuel' (getSource ir op)
          | _ => Ok op
          end
      end
  end.

(** The [for] loop over the uses of the value the turn started with. The
    range is fixed when the loop starts; [continue] moves to the next use
    of that range, with [val] reassigned. [inl user] is a [return user];
    [inr val] is the end of the range with the current [val]. *)
Fixpoint scanUses (uses : list OpOperand) (val : Value) : Op + Value :=
  match uses with
  | [] => inr val
  | use :: rest =>
      let user := getOwner use in
      match opKind ir user with
      | ForeachThreadOp =>
          match List.find
                  (fun bbarg =>
                     negb (bool_decide (getTiedOpOperand ir user bbarg = use)))
                  (getOutputBlockArguments ir user) with
          | None => inl user
          | Some bbarg => scanUses rest bbarg
          end
      | ExtractSliceOp => scanUses rest (OpResult user 0)
      | _ => inl user
      end
  end.

(** [traverseSubsetsForwardAnyUse]: one turn of the outer loop per unit of
    fuel. *)
Fixpoint traverseSubsetsForwardAnyUse (fuel : nat) (val : Value)
  : result Op :=
  match fuel with
  | O => Crash OutOfFuel
  | S fuel' =>
      match scanUses (getUses ir val) val with
      | inl user => Ok user
      | inr val' => traverseSubsetsForwardAnyUse fuel' val'
      end
  end.

End Traversal.

(** ** Matchers *)

(** The identity of a matcher object (its address). *)
Definition MatcherId : Type := nat.

(** The identity of the [int64_t] a [CaptureStaticValue<int64_t>] refers
    to. *)
Definition CellId : Type := nat.

(** The predicates a [StructuredOpMatcher] holds. The source stores them as
    closures; there is one constructor per closure of the source, carrying
    what the closure captures. A nested matcher is captured by reference:
    the constructor carries the matcher referred to, whose identity is its
    [mid]. *)
Unset Elimination Schemes.
Inductive Pred : Type :=
| PIsa (kinds : list OpKind)
| PRankGE (minRank : nat)
| PRankLE (maxRank : nat)
| PDimsShape (dimensions : list Z) (kind : ShapeKind)
| PAllDimsShape (kind : ShapeKind)
| PDimsIter (dimensions : list Z) (kind : IteratorType)
| PAllDimsExceptIter (excluded : list Z) (kind : IteratorType)
| PDimDivisibleBy (dimension : Z) (divisibleBy : Z)
| PRankCapture (capture : CellId)
| PDimCapture (dimension : Z) (capture : CellId)
| PInputNum (num : nat)
| PInputAllPermutation
| PInputAllProjectedPermutation
| PInput (position : Z) (operandMatcher : Matcher) (optional : bool)
| PInputSubsetOf (position : Z) (subset : Matcher)
| POutputNum (num : nat)
| POutputAllPermutation
| POutputAllProjectedPermutation
| POutputBitWidth (position : Z) (width : nat)
| POutputSingleCombiner (position : Z)
| POutput (position : Z) (operandMatcher : Matcher) (optional : bool)
| POutputSubsetOf (position : Z) (subset : Matcher)
| PResult (position : Z) (resultUserMatcher : Matcher) (optional : bool)
| PResultSubsetOf (position : Z) (subset : Matcher) (optional : bool)
| PAllTilable (scope : OpKind) (copy : list MatcherId)
with Matcher : Type :=
| mkMatcher (mid : MatcherId) (predicates : list Pred)
            (nestedCapturingMatchers : list Matcher).
Set Elimination Schemes.

Definition mid (m : Matcher) : MatcherId :=
  match m with mkMatcher i _ _ => i end.

Definition predicates (m : Matcher) : list Pred :=
  match m with mkMatcher _ ps _ => ps end.

Definition nestedCapturingMatchers (m : Matcher) : list Matcher :=
  match m with mkMatcher _ _ ns => ns end.

(** The mutable state matching works on: the [captured] member of every
    matcher object (absent when null) and the captured scalars. *)
Record State : Type := mkState {
  captured : gmap MatcherId Op;
  cells : gmap CellId Z
}.

(** [getCaptured()] *)
Definition getCaptured (m : Matcher) (st : State) : option Op :=
  captured st !! mid m.

Definition setCaptured (i : MatcherId) (op : Op) (st : State) : State :=
  mkState (<[i := op]> (captured st)) (cells st).

Definition clearCaptured (i : MatcherId) (st : State) : State :=
  mkState (delete i (captured st)) (cells st).

Definition setCell (c : CellId) (v : Z) (st : State) : State :=
  mkState (captured st) (<[c := v]> (cells st)).

(** [llvm::all_of] and [llvm::any_of] over closures that may write the
    state: both stop at the first element that decides the result. *)
Section ShortCircuit.
Context {P S : Type}.
Variable f : P -> S -> result (bool * S).

Fixpoint all_of (ps : list P) (st : S) : result (bool * S) :=
  match ps with
  | [] => Ok (true, st)
  | p :: ps' =>
      match f p st with
      | Ok (true, st') => all_of ps' st'
      | Ok (false, st') => Ok (false, st')
      | Crash e => Crash e
      end
  end.

Fixpoint any_of (ps : list P) (st : S) : result (bool * S) :=
  match ps with
  | [] => Ok (false, st)
  | p :: ps' =>
      match f p st with
      | Ok (true, st') => Ok (true, st')
      | Ok (false, st') => any_of ps' st'
      | Crash e => Crash e
      end
  end.
End ShortCircuit.

(** ** Evaluation of the predicates *)

Section Matching.
Variable ir : IR.
(** The bound on the turns of the loops of a subset traversal. *)
Variable fuel : nat.

(** [dimension >= 0 ? dimension : n + dimension], computed in [int64_t]
    ([n] is an [unsigned] or an [int64_t]). *)
Definition transformed (n : Z) (position : Z) : Z :=
  if 0 <=? position then position else n + position.

(** The same with [n] a [size_t]: the sum is computed in [size_t] and
    converted to [int64_t]. *)
Definition transformed_size_t (n : Z) (position : Z) : Z :=
  if 0 <=? position then position else to_int64 (n + position).

(** The loop of [dim(SmallVector<int64_t> &&, ShapeKind)]. *)
Fixpoint dimsShape (shape : list Z) (kind : ShapeKind) (dimensions : list Z)
  : result bool :=
  match dimensions with
  | [] => Ok true
  | dimension :: rest =>
      let size := Z.of_nat (length shape) in
      let transformedDimension := transformed_size_t size dimension in
      if (transformedDimension <? 0)
         || (size <=? to_size_t transformedDimension)
      then Ok false
      else
        rbind (index shape transformedDimension) (fun d =>
          if xorb (isDynamic ir d) (bool_decide (kind = Static))
          then dimsShape shape kind rest
          else Ok false)
  end.

(** The loop of [dim(SmallVector<int64_t> &&, utils::IteratorType)]. *)
Fixpoint dimsIter (op : Op) (kind : IteratorType) (dimensions : list Z)
  : result bool :=
  match dimensions with
  | [] => Ok true
  | dimension :: rest =>
      let rank := Z.of_nat (getNumLoops ir op) in
      let transformedDimension := transformed rank dimension in
      if (transformedDimension <? 0) || (rank <=? transformedDimension)
      then Ok false
      else
        rbind (index (getIteratorTypesArray ir op) transformedDimension)
          (fun iteratorKind =>
             if bool_decide (iteratorKind = kind)
             then dimsIter op kind rest
             else Ok false)
  end.

(** The first loop of [dim(AllDimsExcept &&, utils::IteratorType)]. *)
Definition excludedDimsOf (rank : Z) (excluded : list Z) : gset Z :=
  foldl (fun s dim => {[ transformed rank dim ]} ∪ s) ∅ excluded.

(** Its second loop, over [llvm::enumerate(getIteratorTypesArray())]. *)
Fixpoint allDimsExcept (excludedDims : gset Z) (kind : IteratorType)
         (index : Z) (types : list IteratorType) : bool :=
  match types with
  | [] => true
  | type :: rest =>
      if bool_decide (index ∈ excludedDims)
      then allDimsExcept excludedDims kind (index + 1) rest
      else if bool_decide (type = kind)
           then allDimsExcept excludedDims kind (index + 1) rest
           else false
  end.

(** [checkAllTilableMatched] *)
Definition checkAllTilableMatched (parent : option Op) (linalgOp : Op)
           (matchers : list MatcherId) (st : State) : bool :=
  match parent with
  | None => false
  | Some parent =>
      let numTilableOps :=
        length (List.filter (isTilingInterface ir) (walk ir parent)) in
      let matched : gset Op :=
        foldl (fun s nested =>
                 match captured st !! nested with
                 | Some c => {[ c ]} ∪ s
                 | None => s
                 end) ∅ matchers in
      let matched := {[ linalgOp ]} ∪ matched in
      bool_decide (numTilableOps = size matched)
  end.

(** The closures pushed on [predicates]. [rec] is [match] on a nested
    matcher. *)
Definition evalPredWith (rec : Matcher -> Op -> State -> result (bool * State))
           (p : Pred) (linalgOp : Op) (st : State)
  : result (bool * State) :=
  match p with
  | PIsa kinds =>
      Ok (bool_decide (opKind ir linalgOp ∈ kinds), st)
  | PRankGE minRank =>
      Ok (bool_decide (minRank <= getNumLoops ir linalgOp)%nat, st)
  | PRankLE maxRank =>
      Ok (bool_decide (getNumLoops ir linalgOp <= maxRank)%nat, st)
  | PDimsShape dimensions kind =>
      rbind (dimsShape (getStaticLoopRanges ir linalgOp) kind dimensions)
            (fun b => Ok (b, st))
  | PAllDimsShape kind =>
      Ok (forallb (fun d => xorb (isDynamic ir d)
                                 (bool_decide (kind = Static)))
                  (getStaticLoopRanges ir linalgOp), st)
  | PDimsIter dimensions kind =>
      rbind (dimsIter linalgOp kind dimensions) (fun b => Ok (b, st))
  | PAllDimsExceptIter excluded kind =>
      let rank := Z.of_nat (getNumLoops ir linalgOp) in
      Ok (allDimsExcept (excludedDimsOf rank excluded) kind 0
                        (getIteratorTypesArray ir linalgOp), st)
  | PDimDivisibleBy dimension divisibleBy =>
      let rank := Z.of_nat (getNumLoops ir linalgOp) in
      let transformedDimension := transformed rank dimension in
      if rank <=? transformedDimension then Ok (false, st)
      else
        rbind (index (getStaticLoopRanges ir linalgOp) transformedDimension)
          (fun size =>
             if isDynamic ir size then Ok (false, st)
             else if divisibleBy =? 0 then Crash DivisionByZero
                  else Ok (Z.rem size divisibleBy =? 0, st))
  | PRankCapture capture =>
      Ok (true, setCell capture (Z.of_nat (getNumLoops ir linalgOp)) st)
  | PDimCapture dimension capture =>
      let rank := Z.of_nat (getNumLoops ir linalgOp) in
      let transformedDimension := transformed rank dimension in
      if rank <=? transformedDimension then Ok (false, st)
      else
        rbind (index (getStaticLoopRanges ir linalgOp) transformedDimension)
          (fun size => Ok (true, setCell capture size st))
  | PInputNum num =>
      Ok (bool_decide (getNumDpsInputs ir linalgOp = Z.of_nat num), st)
  | PInputAllPermutation =>
      Ok (forallb (isPermutation ir) (getDpsInputOperands ir linalgOp), st)
  | PInputAllProjectedPermutation =>
      Ok (forallb (isProjectedPermutation ir)
                  (getDpsInputOperands ir linalgOp), st)
  | PInput position operandMatcher optional =>
      let transformedPosition :=
        transformed (getNumDpsInputs ir linalgOp) position in
      if getNumDpsInputs ir linalgOp <=? transformedPosition
      then Ok (false, st)
      else
        rbind (getDpsInputOperand ir linalgOp transformedPosition)
          (fun operand =>
             match getDefiningOp (get ir operand) with
             | None => Ok (optional, st)
             | Some definingOp =>
                 match rec operandMatcher definingOp st with
                 | Ok (true, st') => Ok (true, st')
                 | Ok (false, st') => Ok (optional, st')
                 | Crash e => Crash e
                 end
             end)
  | PInputSubsetOf position subset =>
      let transformedPosition :=
        transformed (getNumDpsInputs ir linalgOp) position in
      if getNumDpsInputs ir linalgOp <=? transformedPosition
      then Ok (false, st)
      else
        rbind (getDpsInputOperand ir linalgOp transformedPosition)
          (fun operand =>
             rbind (traverseSubsetsBackwards ir fuel (get ir operand))
               (fun producer => rec subset producer st))
  | POutputNum num =>
      Ok (bool_decide (getNumDpsInits ir linalgOp = Z.of_nat num), st)
  | POutputAllPermutation =>
      Ok (forallb (isPermutation ir) (getDpsInitOperands ir linalgOp), st)
  | POutputAllProjectedPermutation =>
      Ok (forallb (isProjectedPermutation ir)
                  (getDpsInitOperands ir linalgOp), st)
  | POutputBitWidth position width =>
      let updatedPosition :=
        transformed (getNumDpsInits ir linalgOp) position in
      if getNumDpsInits ir linalgOp <=? updatedPosition
      then Ok (false, st)
      else
        rbind (getDpsInitOperand ir linalgOp updatedPosition)
          (fun operand =>
             Ok (match elementBitWidth ir (get ir operand) with
                 | Some w => bool_decide (w = width)
                 | None => false
                 end, st))
  | POutputSingleCombiner position =>
      let updatedPosition :=
        transformed (getNumDpsInits ir linalgOp) position in
      if getNumDpsInits ir linalgOp <=? updatedPosition
      then Ok (false, st)
      else
        Ok (match matchReduction ir linalgOp updatedPosition with
            | Some [_] => true
            | _ => false
            end, st)
  | POutput position operandMatcher optional =>
      let transformedPosition :=
        transformed (getNumDpsInits ir linalgOp) position in
      if getNumDpsInits ir linalgOp <=? transformedPosition
      then Ok (false, st)
      else
        rbind (getDpsInitOperand ir linalgOp transformedPosition)
          (fun operand =>
             match getDefiningOp (get ir operand) with
             | None => Ok (optional, st)
             | Some definingOp =>
                 match rec operandMatcher definingOp st with
                 | Ok (true, st') => Ok (true, st')
                 | Ok (false, st') => Ok (optional, st')
                 | Crash e => Crash e
                 end
             end)
  | POutputSubsetOf position subset =>
      let transformedPosition :=
        transformed (getNumDpsInputs ir linalgOp) position in
      if getNumDpsInputs ir linalgOp <=? transformedPosition
      then Ok (false, st)
      else
        rbind (getDpsInitOperand ir linalgOp transformedPosition)
          (fun operand =>
             rbind (traverseSubsetsBackwards ir fuel (get ir operand))
               (fun producer => rec subset producer st))
  | PResult position resultUserMatcher optional =>
      let numResults := Z.of_nat (getNumResults ir linalgOp) in
      let transformedPosition := transformed numResults position in
      if numResults <=? transformedPosition then Ok (false, st)
      else
        rbind (getResult ir linalgOp transformedPosition)
          (fun res =>
             match any_of (fun user s => rec resultUserMatcher user s)
                          (List.map getOwner (getUses ir res)) st with
             | Ok (true, st') => Ok (true, st')
             | Ok (false, st') => Ok (optional, st')
             | Crash e => Crash e
             end)
  | PResultSubsetOf position subset optional =>
      let numResults := Z.of_nat (getNumResults ir linalgOp) in
      let transformedPosition := transformed numResults position in
      if numResults <=? transformedPosition then Ok (false, st)
      else
        rbind (getResult ir linalgOp transformedPosition)
          (fun res =>
             rbind (traverseSubsetsForwardAnyUse ir fuel res)
               (fun user =>
                  match rec subset user st with
                  | Ok (true, st') => Ok (true, st')
                  | Ok (false, st') => Ok (optional, st')
                  | Crash e => Crash e
                  end))
  | PAllTilable scope copy =>
      Ok (checkAllTilableMatched (getParentOfType ir linalgOp scope)
                                 linalgOp copy st, st)
  end.

(** [match] *)
Fixpoint match_ (m : Matcher) (op : Op) (st : State) {struct m}
  : result (bool * State) :=
  match m with
  | mkMatcher i preds _ =>
      if isLinalgOp ir op then
        match all_of (fun p s => evalPredWith match_ p op s) preds st with
        | Ok (true, st') => Ok (true, setCaptured i op st')
        | Ok (false, st') => Ok (false, st')
        | Crash e => Crash e
        end
      else Ok (false, st)
  end.

(** A predicate of a matcher, as [match] calls it. *)
Definition evalPred : Pred -> Op -> State -> result (bool * State) :=
  evalPredWith match_.

End Matching.

(** [resetCapture()]: clears [captured], then resets every matcher of
    [nestedCapturingMatchers] through the virtual call. *)
Fixpoint resetCapture (m : Matcher) (st : State) : State :=
  match m with
  | mkMatcher i _ nested =>
      foldl (fun s n => resetCapture n s) (clearCaptured i st) nested
  end.

(** ** The fluent API

    Every method pushes a closure on [predicates] and returns the matcher;
    the methods that take a nested matcher also call [recordNestedMatcher].
    The overloads of the source are told apart by a suffix naming the type
    of the argument. *)

Definition addPredicate (p : Pred) (m : Matcher) : Matcher :=
  mkMatcher (mid m) (predicates m ++ [p]) (nestedCapturingMatchers m).

(** [recordNestedMatcher]: the nested matcher, then the matchers it had
    recorded itself when it was attached. *)
Definition recordNestedMatcher (nested : Matcher) (m : Matcher) : Matcher :=
  mkMatcher (mid m) (predicates m)
            (nestedCapturingMatchers m
               ++ nested :: nestedCapturingMatchers nested).

(** [m_StructuredOp()] and [m_StructuredOp<OpType...>()], for the object at
    the given address. *)
Definition m_StructuredOp (i : MatcherId) : Matcher := mkMatcher i [] [].

Definition m_StructuredOp_of (kinds : list OpKind) (i : MatcherId) : Matcher :=
  mkMatcher i [PIsa kinds] [].

Definition rank_NumGreaterEqualTo (minRank : nat) : Matcher -> Matcher :=
  addPredicate (PRankGE minRank).

Definition rank_NumLowerEqualTo (maxRank : nat) : Matcher -> Matcher :=
  addPredicate (PRankLE maxRank).

Definition dim_list_ShapeKind (dimensions : list Z) (kind : ShapeKind)
  : Matcher -> Matcher :=
  addPredicate (PDimsShape dimensions kind).

Definition dim_ShapeKind (dimension : Z) (kind : ShapeKind)
  : Matcher -> Matcher :=
  dim_list_ShapeKind [dimension] kind.

Definition dim_AllDims_ShapeKind (kind : ShapeKind) : Matcher -> Matcher :=
  addPredicate (PAllDimsShape kind).

Definition dim_list_IteratorType (dimensions : list Z) (kind : IteratorType)
  : Matcher -> Matcher :=
  addPredicate (PDimsIter dimensions kind).

Definition dim_IteratorType (dimension : Z) (kind : IteratorType)
  : Matcher -> Matcher :=
  dim_list_IteratorType [dimension] kind.

Definition dim_AllDimsExcept_IteratorType (dims : list Z) (kind : IteratorType)
  : Matcher -> Matcher :=
  addPredicate (PAllDimsExceptIter dims kind).

Definition dim_AllDims_IteratorType (kind : IteratorType)
  : Matcher -> Matcher :=
  dim_AllDimsExcept_IteratorType [] kind.

Definition dim_DivisibleBy (dimension : Z) (divisibleBy : Z)
  : Matcher -> Matcher :=
  addPredicate (PDimDivisibleBy dimension divisibleBy).

Definition rank_CaptureStaticValue (capture : CellId) : Matcher -> Matcher :=
  addPredicate (PRankCapture capture).

Definition dim_CaptureStaticValue (dimension : Z) (capture : CellId)
  : Matcher -> Matcher :=
  addPredicate (PDimCapture dimension capture).

Definition input_NumEqualsTo (num : nat) : Matcher -> Matcher :=
  addPredicate (PInputNum num).

Definition input_IsPermutation : Matcher -> Matcher :=
  addPredicate PInputAllPermutation.

Definition input_IsProjectedPermutation : Matcher -> Matcher :=
  addPredicate PInputAllProjectedPermutation.

Definition input (position : Z) (operandMatcher : Matcher) (optional : bool)
           (m : Matcher) : Matcher :=
  recordNestedMatcher operandMatcher
    (addPredicate (PInput position operandMatcher optional) m).

Definition input_SubsetOf (position : Z) (subset : Matcher) (m : Matcher)
  : Matcher :=
  recordNestedMatcher subset (addPredicate (PInputSubsetOf position subset) m).

Definition allTilableOpsCaptured (scope : OpKind) (m : Matcher) : Matcher :=
  let copy := List.map mid (nestedCapturingMatchers m) in
  addPredicate (PAllTilable scope copy) m.

Definition output_NumEqualsTo (num : nat) : Matcher -> Matcher :=
  addPredicate (POutputNum num).

Definition output_IsPermutation : Matcher -> Matcher :=
  addPredicate POutputAllPermutation.

Definition output_IsProjectedPermutation : Matcher -> Matcher :=
  addPredicate POutputAllProjectedPermutation.

Definition output_ElementTypeBitWidth (position : Z) (width : nat)
  : Matcher -> Matcher :=
  addPredicate (POutputBitWidth position width).

Definition output_SingleCombinerReduction (position : Z)
  : Matcher -> Matcher :=
  addPredicate (POutputSingleCombiner position).

Definition output (position : Z) (operandMatcher : Matcher) (optional : bool)
           (m : Matcher) : Matcher :=
  recordNestedMatcher operandMatcher
    (addPredicate (POutput position operandMatcher optional) m).

Definition output_SubsetOf (position : Z) (subset : Matcher) (m : Matcher)
  : Matcher :=
  recordNestedMatcher subset (addPredicate (POutputSubsetOf position subset) m).

Definition result_HasAnyUse (position : Z) (resultUserMatcher : Matcher)
           (optional : bool) (m : Matcher) : Matcher :=
  recordNestedMatcher resultUserMatcher
    (addPredicate (PResult position resultUserMatcher optional) m).

Definition result_HasAnyUse_SubsetOf (position : Z) (subset : Matcher)
           (optional : bool) (m : Matcher) : Matcher :=
  recordNestedMatcher subset
    (addPredicate (PResultSubsetOf position subset optional) m).

(** ** Concrete graphs

    A finite graph given by the description of its operations; operation
    [i] is the [i]-th description. The queries of [IR] are computed from
    the descriptions, so that the use list of a value and the operands that
    refer to it agree. *)

Record OpData : Type := mkOpData {
  odKind : OpKind;
  odLinalg : bool;
  odTiling : bool;
  odLoopRanges : list Z;
  odIterators : list IteratorType;
  (** the operands; for a structured operation the inputs come first *)
  odOperands : list Value;
  odNumInputs : nat;
  odNumResults : nat;
  (** the operation whose region holds this one *)
  odParent : option Op
}.

Definition noOp : OpData :=
  mkOpData OtherOp false false [] [] [] 0%nat 0%nat None.

Section Graph.
Variable ops : list OpData.

Definition opData (o : Op) : OpData := nth o ops noOp.

Definition operandsFrom (o : Op) (start len : nat) : list OpOperand :=
  List.map (mkOpOperand o) (seq start len).

Definition usesIn (val : Value) (o : Op) : list OpOperand :=
  List.filter
    (fun use => bool_decide
                  (nth_error (odOperands (opData o)) (getOperandNumber use)
                   = Some val))
    (operandsFrom o 0%nat (length (odOperands (opData o)))).

Fixpoint parentOfType (n : nat) (o : Op) (k : OpKind) : option Op :=
  match n with
  | O => None
  | S n' =>
      match odParent (opData o) with
      | None => None
      | Some p =>
          if bool_decide (odKind (opData p) = k) then Some p
          else parentOfType n' p k
      end
  end.

Fixpoint isAncestor (n : nat) (p o : Op) : bool :=
  match n with
  | O => false
  | S n' =>
      match odParent (opData o) with
      | None => false
      | Some q => bool_decide (q = p) || isAncestor n' p q
      end
  end.

Definition irOf : IR := {|
  kDynamic := - 2 ^ 63;
  opKind o := odKind (opData o);
  isLinalgOp o := odLinalg (opData o);
  isTilingInterface o := odTiling (opData o);
  getNumLoops o := length (odIterators (opData o));
  getStaticLoopRanges o := odLoopRanges (opData o);
  getIteratorTypesArray o := odIterators (opData o);
  getDpsInputOperands o := operandsFrom o 0%nat (odNumInputs (opData o));
  getDpsInitOperands o :=
    operandsFrom o (odNumInputs (opData o))
                 (length (odOperands (opData o)) - odNumInputs (opData o));
  isPermutation _ := true;
  isProjectedPermutation _ := true;
  get use :=
    nth (getOperandNumber use) (odOperands (opData (getOwner use)))
        (BlockArgument 0%nat 0%nat);
  getNumResults o := odNumResults (opData o);
  getUses val := flat_map (usesIn val) (seq 0%nat (length ops));
  getParentOfType o k := parentOfType (length ops) o k;
  walk p :=
    List.filter (fun o => isAncestor (length ops) p o || bool_decide (o = p))
                (seq 0%nat (length ops));
  getSource o := nth 0%nat (odOperands (opData o)) (BlockArgument 0%nat 0%nat);
  getOutputBlockArguments o :=
    List.map (BlockArgument o) (seq 0%nat (length (odOperands (opData o))));
  getTiedOpOperand o val :=
    match val with
    | BlockArgument _ i => mkOpOperand o i
    | OpResult _ _ => mkOpOperand o 0%nat
    end;
  elementBitWidth _ := Some 32%nat;
  matchReduction _ _ := None
|}.
End Graph.

(** A structured operation with static loop ranges. *)
Definition linalgOpData (kind : OpKind) (ranges : list Z)
           (iterators : list IteratorType) (operands : list Value)
           (numInputs : nat) (parent : option Op) : OpData :=
  mkOpData kind true true ranges iterators operands numInputs 1%nat parent.

Definition emptyState : State := mkState ∅ ∅.

(** ** Statements in the words of the specification *)

(** Every iteration-space dimension of the operation has the given iterator
    type. *)
Definition everyDimensionIs (ir : IR) (kind : IteratorType) (op : Op) : bool :=
  forallb (fun t => bool_decide (t = kind)) (getIteratorTypesArray ir op).

(** The last predicate attached to a matcher. *)
Definition addedPredicate (m : Matcher) : option Pred := last (predicates m).

(** A rank-3 operation: two parallel dimensions and a reduction. *)
Definition rank3Graph : list OpData :=
  [ linalgOpData GenericOp [4; 8; 128] [parallel; parallel; reduction]
                 [BlockArgument 1%nat 0%nat; BlockArgument 1%nat 1%nat] 1%nat
                 (Some 1%nat);
    mkOpData FuncOp false false [] [] [] 0%nat 0%nat None ].

(** The captured operations of the matchers of a list that have one. *)
Definition capturedNodes (st : State) (matchers : list MatcherId) : gset Op :=
  list_to_set (omap (fun i => captured st !! i) matchers).

(** The number of operations with [TilingInterface] nested in a parent. *)
Definition tilableCount (ir : IR) (parent : Op) : nat :=
  length (List.filter (isTilingInterface ir) (walk ir parent)).

(** A structured operation without inputs, whose only output is produced by
    a fill of a function argument; the two are in a function. *)
Definition noInputGraph : list OpData :=
  [ linalgOpData FillOp [4] [parallel]
                 [BlockArgument 2%nat 0%nat; BlockArgument 2%nat 1%nat] 1%nat
                 (Some 2%nat);
    linalgOpData GenericOp [4] [parallel] [OpResult 0%nat 0%nat] 0%nat
                 (Some 2%nat);
    mkOpData FuncOp false false [] [] [] 0%nat 0%nat None ].

(** A structured operation with two inputs, arguments of the function, and
    one output produced by a fill. *)
Definition twoInputGraph : list OpData :=
  [ linalgOpData FillOp [4] [parallel]
                 [BlockArgument 2%nat 2%nat; BlockArgument 2%nat 3%nat] 1%nat
                 (Some 2%nat);
    linalgOpData GenericOp [4] [parallel]
                 [BlockArgument 2%nat 0%nat; BlockArgument 2%nat 1%nat;
                  OpResult 0%nat 0%nat] 2%nat (Some 2%nat);
    mkOpData FuncOp false false [] [] [] 0%nat 0%nat None ].

(** The result of a structured operation is the only shared output of a
    [foreach_thread]; in the body, the tied block argument is read by a
    second structured operation. *)
Definition foreachThreadGraph : list OpData :=
  [ linalgOpData GenericOp [4] [parallel] [] 0%nat (Some 3%nat);
    mkOpData ForeachThreadOp false false [] [] [OpResult 0%nat 0%nat]
             0%nat 1%nat (Some 3%nat);
    linalgOpData GenericOp [4] [parallel] [BlockArgument 1%nat 0%nat] 1%nat
                 (Some 1%nat);
    mkOpData FuncOp false false [] [] [] 0%nat 0%nat None ].

(** [realOp -> view1 -> view2 -> consumer], the views being
    [extract_slice] operations. *)
Definition sliceChainGraph : list OpData :=
  [ linalgOpData GenericOp [4] [parallel] [] 0%nat (Some 4%nat);
    mkOpData ExtractSliceOp false false [] [] [OpResult 0%nat 0%nat]
             0%nat 1%nat (Some 4%nat);
    mkOpData ExtractSliceOp false false [] [] [OpResult 1%nat 0%nat]
             0%nat 1%nat (Some 4%nat);
    linalgOpData GenericOp [4] [parallel] [OpResult 2%nat 0%nat] 1%nat
                 (Some 4%nat);
    mkOpData FuncOp false false [] [] [] 0%nat 0%nat None ].

(** A value is a transparent view of another: the result of an
    [extract_slice] of it, or the block argument of a [foreach_thread] tied
    to an operand that refers to it. *)
Inductive viewOf (ir : IR) : Value -> Value -> Prop :=
| view_slice (op : Op) (n : nat) :
    opKind ir op = ExtractSliceOp ->
    viewOf ir (OpResult op n) (getSource ir op)
| view_tie (loop : Op) (n : nat) :
    opKind ir loop = ForeachThreadOp ->
    viewOf ir (BlockArgument loop n)
           (get ir (getTiedOpOperand ir loop (BlockArgument loop n))).

(** [viewChain ir val n op]: [val] is reached from a result of [op], which
    is not an [extract_slice], through [n] transparent views. *)
Inductive viewChain (ir : IR) : Value -> nat -> Op -> Prop :=
| chain_head (op : Op) (r : nat) :
    opKind ir op <> ExtractSliceOp ->
    viewChain ir (OpResult op r) 0 op
| chain_view (val src : Value) (n : nat) (op : Op) :
    viewOf ir val src ->
    viewChain ir src n op ->
    viewChain ir val (S n) op.

(** [sliceChain ir val n user]: every use of [val] leads, through [n]
    [extract_slice] operations each of which is the only user of the value
    it slices, to the operation [user], which is neither an [extract_slice]
    nor a [foreach_thread]. *)
Inductive sliceChain (ir : IR) : Value -> nat -> Op -> Prop :=
| slices_end (val : Value) (use : OpOperand) (rest : list OpOperand) :
    getUses ir val = use :: rest ->
    opKind ir (getOwner use) <> ExtractSliceOp ->
    opKind ir (getOwner use) <> ForeachThreadOp ->
    sliceChain ir val 0 (getOwner use)
| slices_step (val : Value) (use : OpOperand) (n : nat) (user : Op) :
    getUses ir val = [use] ->
    opKind ir (getOwner use) = ExtractSliceOp ->
    sliceChain ir (OpResult (getOwner use) 0) n user ->
    sliceChain ir val (S n) user.

(** ** The matchers a matcher refers to *)

(** The nested matcher a predicate runs, when it runs one. *)
Definition nestedOf (p : Pred) : option Matcher :=
  match p with
  | PInput _ om _ | POutput _ om _ | PResult _ om _
  | PResultSubsetOf _ om _ => Some om
  | PInputSubsetOf _ om | POutputSubsetOf _ om => Some om
  | _ => None
  end.

(** The identities of the matchers [match] may run: the matcher and,
    through its predicates, the nested ones. *)
Fixpoint matcherIds (m : Matcher) : list MatcherId :=
  match m with
  | mkMatcher i ps _ => i :: flat_map predIds ps
  end
with predIds (p : Pred) : list MatcherId :=
  match p with
  | PInput _ om _ | POutput _ om _ | PResult _ om _
  | PResultSubsetOf _ om _ => matcherIds om
  | PInputSubsetOf _ om | POutputSubsetOf _ om => matcherIds om
  | _ => []
  end.

(** The identities of the matchers nested in a matcher. *)
Definition nestedIds (m : Matcher) : list MatcherId :=
  flat_map predIds (predicates m).

(** The identities of the matchers [resetCapture] reaches: the matcher
    and, through [nestedCapturingMatchers], the recorded ones. *)
Fixpoint resetIds (m : Matcher) : list MatcherId :=
  match m with
  | mkMatcher i _ ns => i :: flat_map resetIds ns
  end.

(** No predicate of the matcher or of a matcher nested in it is the one
    attached by [allTilableOpsCaptured]. *)
Fixpoint tilableFree (m : Matcher) : bool :=
  match m with
  | mkMatcher _ ps _ => forallb predTilableFree ps
  end
with predTilableFree (p : Pred) : bool :=
  match p with
  | PAllTilable _ _ => false
  | PInput _ om _ | POutput _ om _ | PResult _ om _
  | PResultSubsetOf _ om _ => tilableFree om
  | PInputSubsetOf _ om | POutputSubsetOf _ om => tilableFree om
  | _ => true
  end.

(** The claim that [resetCapture] puts the scalar capture cells back to
    what they were before the match. *)
Definition resetRestoresCells (ir : IR) (fuel : nat) : Prop :=
  forall (M : Matcher) (N : Op) (st0 st1 : State) (b : bool),
    match_ ir fuel M N st0 = Ok (b, st1) ->
    getCaptured M (resetCapture M st1) = None
    /\ cells (resetCapture M st1) = cells st0.

(** The claim that a second [match] on the same candidate repeats the
    first. *)
Definition matchTwiceAlike (ir : IR) (fuel : nat) : Prop :=
  forall (M : Matcher) (N : Op) (st0 st1 : State) (b : bool),
    match_ ir fuel M N st0 = Ok (b, st1) ->
    match_ ir fuel M N st1 = Ok (b, st1).

(** Two states with the same captured operation for every matcher outside a
    list. *)
Definition sameOutside (ids : list MatcherId) (st st' : State) : Prop :=
  forall i, i ∉ ids -> captured st' !! i = captured st !! i.

(** A structured operation whose input is a function argument and whose
    output is produced by a fill, and the matcher of such a fill nested in
    the matcher of a rank-2 operation. *)
Definition fillMatcher : Matcher := m_StructuredOp_of [FillOp] 1%nat.

Definition rank2Matcher : Matcher :=
  rank_NumGreaterEqualTo 2 (output (-1) fillMatcher false (m_StructuredOp 0%nat)).

(** ** Two runs of the same match *)

(** Final states [t] and [t'] of two runs started in [s] and [s']: every
    location holds the same in both, or holds in each what it held at the
    start. *)
Definition agreeOrKept (s s' t t' : State) : Prop :=
  (forall i, captured t !! i = captured t' !! i
             \/ (captured t !! i = captured s !! i
                 /\ captured t' !! i = captured s' !! i))
  /\ (forall c, cells t !! c = cells t' !! c
                \/ (cells t !! c = cells s !! c
                    /\ cells t' !! c = cells s' !! c)).

(** The outcomes of two such runs: the same fault, or the same boolean
    with final states as above. *)
Definition similar (s s' : State) (r r' : result (bool * State)) : Prop :=
  match r, r' with
  | Ok (b, t), Ok (b', t') => b = b' /\ agreeOrKept s s' t t'
  | Crash e, Crash e' => e = e'
  | _, _ => False
  end.

(** The predicate of [allTilableOpsCaptured] is nowhere in the matchers
    nested in the matcher, and in the matcher itself it is at most the last
    predicate, where it does not read the captured operation of the matcher
    itself. *)
Definition tilableOnlyLast (m : Matcher) : bool :=
  match last (predicates m) with
  | Some (PAllTilable _ copy) =>
      forallb predTilableFree (removelast (predicates m))
      && bool_decide (mid m ∉ copy)
  | _ => forallb predTilableFree (predicates m)
  end.

(** A function with three structured operations, all tilable: [N]
    (operation 2) reads the results of [A] (operation 0) and [B]
    (operation 1); the input of [A] is an argument of the function. *)
Definition sharedGraph : list OpData :=
  [ linalgOpData GenericOp [4] [parallel] [BlockArgument 3%nat 0%nat] 1%nat
                 (Some 3%nat);
    linalgOpData GenericOp [4] [parallel] [] 0%nat (Some 3%nat);
    linalgOpData GenericOp [4] [parallel]
                 [OpResult 0%nat 0%nat; OpResult 1%nat 0%nat] 2%nat
                 (Some 3%nat);
    mkOpData FuncOp false false [] [] [] 0%nat 0%nat None ].

(** The matcher [Y] is shared: it is the optional input of [X] and the
    second input of [M], whose first input, optional, is [X]. [X] also
    matches an optional user [Z] of its result. Both [X] and [M] end with
    the exhaustiveness predicate. *)
Definition sharedY : Matcher := m_StructuredOp 2%nat.

Definition sharedZ : Matcher := m_StructuredOp 3%nat.

Definition sharedX : Matcher :=
  allTilableOpsCaptured FuncOp
    (result_HasAnyUse 0 sharedZ true
       (input 0 sharedY true (m_StructuredOp 1%nat))).

Definition sharedM : Matcher :=
  allTilableOpsCaptured FuncOp
    (input 1 sharedY false (input 0 sharedX true (m_StructuredOp 0%nat))).

(** A matcher with an optional input, a captured rank and the
    exhaustiveness predicate at the end. *)
Definition anchorMatcher : Matcher :=
  allTilableOpsCaptured FuncOp
    (rank_CaptureStaticValue 0%nat
       (input 0 sharedY true (m_StructuredOp 0%nat))).

(** ** Carriers filled group by group, and the registry of callbacks *)

(** A callback that adds its groups one after the other with
    [addPayloadGroup]. *)
Fixpoint addPayloadGroups (groups : list (list Op))
         (r : MatchCallbackResult.t) : result MatchCallbackResult.t :=
  match groups with
  | [] => Ok r
  | g :: rest =>
      rbind (MatchCallbackResult.addPayloadGroup (List.map Some g) r)
            (fun p => addPayloadGroups rest (snd p))
  end.

(** What [getPayloadGroup] returns on a carrier that holds these groups. *)
Definition groupAt (groups : list (list Op)) (position : nat)
  : result (list Op) :=
  match nth_error groups position with
  | Some g => Ok g
  | None => Crash AssertionFailure
  end.

Module MatchCallbacksRegistry.

(** The [llvm::StringMap<MatchCallbackFn>] of the registry; the callbacks
    are values of a type [Fn]. *)
Abbreviation t Fn := (gmap string Fn).

Definition empty {Fn : Type} : t Fn := ∅.

(** [registerCallback]: [try_emplace] inserts when the name is absent, and
    the result is asserted. *)
Definition registerCallback {Fn : Type} (name : string) (fn : Fn)
           (callbacks : t Fn) : result (t Fn) :=
  match callbacks !! name with
  | None => Ok (<[name := fn]> callbacks)
  | Some _ => Crash AssertionFailure
  end.

(** [get]: the callback, or null. *)
Definition get {Fn : Type} (name : string) (callbacks : t Fn) : option Fn :=
  callbacks !! name.

(** Registering a list of named callbacks in order. *)
Fixpoint registerAll {Fn : Type} (entries : list (string * Fn))
         (callbacks : t Fn) : result (t Fn) :=
  match entries with
  | [] => Ok callbacks
  | (name, fn) :: rest =>
      rbind (registerCallback name fn callbacks) (registerAll rest)
  end.

End MatchCallbacksRegistry.

(** The flat payload list cut into the segments the lengths describe. *)
Fixpoint groupsOf (operations : list Op) (lengths : list Z)
  : list (list Op) :=
  match lengths with
  | [] => []
  | l :: rest =>
      firstn (Z.to_nat l) operations
      :: groupsOf (skipn (Z.to_nat l) operations) rest
  end.

(** Two carriers: one group of one operation; three groups, the second
    empty. *)
Definition oneGroupCarrier : MatchCallbackResult.t :=
  MatchCallbackResult.mk [1%nat] [1].

Definition threeGroupCarrier : MatchCallbackResult.t :=
  MatchCallbackResult.mk [1%nat; 2%nat; 3%nat] [2; 0; 1].

(** ** Dimension indices *)

(** A dimension index, counted from the last dimension when negative,
    designates dimension [i] of an operation of the given rank. *)
Definition resolvesTo (rank : nat) (dimension : Z) (i : nat) : Prop :=
  (i < rank)%nat
  /\ (Z.of_nat i = dimension \/ Z.of_nat i = Z.of_nat rank + dimension).

(** A loop range is of the given kind. *)
Definition hasShapeKind (ir : IR) (kind : ShapeKind) (size : Z) : Prop :=
  isDynamic ir size = true <-> kind = Dynamic.

(** An [extract_slice] has no region: a block argument is not the argument
    of a block of one. *)
Definition notInSlice (ir : IR) (val : Value) : Prop :=
  match val with
  | BlockArgument blockOp _ => opKind ir blockOp <> ExtractSliceOp
  | OpResult _ _ => True
  end.

(** ** What a matcher writes and reads *)

(** The cells the capture predicates of a matcher and of the matchers
    nested in it write. *)
Fixpoint matcherCells (m : Matcher) : list CellId :=
  match m with
  | mkMatcher _ ps _ => flat_map predCells ps
  end
with predCells (p : Pred) : list CellId :=
  match p with
  | PRankCapture c | PDimCapture _ c => [c]
  | PInput _ om _ | POutput _ om _ | PResult _ om _
  | PResultSubsetOf _ om _ => matcherCells om
  | PInputSubsetOf _ om | POutputSubsetOf _ om => matcherCells om
  | _ => []
  end.

(** The matchers whose captured operation the exhaustiveness predicates of
    a matcher and of the matchers nested in it read. *)
Fixpoint matcherReads (m : Matcher) : list MatcherId :=
  match m with
  | mkMatcher _ ps _ => flat_map predReads ps
  end
with predReads (p : Pred) : list MatcherId :=
  match p with
  | PAllTilable _ copy => copy
  | PInput _ om _ | POutput _ om _ | PResult _ om _
  | PResultSubsetOf _ om _ => matcherReads om
  | PInputSubsetOf _ om | POutputSubsetOf _ om => matcherReads om
  | _ => []
  end.

(** The matchers the fluent API builds: a fresh matcher, then predicates
    attached one by one. A predicate without nested matcher is pushed; one
    with a nested matcher is pushed and the nested matcher recorded; the
    exhaustiveness predicate copies the recorded matchers. *)
Inductive fluent : Matcher -> Prop :=
| fluent_any (i : MatcherId) : fluent (m_StructuredOp i)
| fluent_of (kinds : list OpKind) (i : MatcherId) :
    fluent (m_StructuredOp_of kinds i)
| fluent_plain (p : Pred) (m : Matcher) :
    nestedOf p = None -> predTilableFree p = true ->
    fluent m -> fluent (addPredicate p m)
| fluent_nested (p : Pred) (om m : Matcher) :
    nestedOf p = Some om ->
    fluent om -> fluent m ->
    fluent (recordNestedMatcher om (addPredicate p m))
| fluent_tilable (scope : OpKind) (m : Matcher) :
    fluent m -> fluent (allTilableOpsCaptured scope m).

(** Two states with the same captured operation for every matcher of a
    list. *)
Definition agreeOn (ids : list MatcherId) (s s' : State) : Prop :=
  forall i, i ∈ ids -> captured s !! i = captured s' !! i.

(** Two outcomes with the same fault, or the same boolean and final states
    that agree on the list. *)
Definition similarOn (ids : list MatcherId) (r r' : result (bool * State))
  : Prop :=
  match r, r' with
  | Ok (b, t), Ok (b', t') => b = b' /\ agreeOn ids t t'
  | Crash e, Crash e' => e = e'
  | _, _ => False
  end.

(** Two states with the same content in every cell outside a list. *)
Definition sameCellsOutside (cs : list CellId) (st st' : State) : Prop :=
  forall c, c ∉ cs -> cells st' !! c = cells st !! c.

(** ** The matcher builders *)

(** [x.method(args)] on a matcher, written in the order of the source. *)
Notation "m '|>' f" := (f m) (at level 45, left associativity, only parsing).

(** The copy assignment [target = source] of a [StructuredOpMatcher]: the
    object [target] receives the predicates and the recorded matchers of
    the source. (It also receives its [captured] member; see
    [assignedCaptured].) *)
Definition assign (target : MatcherId) (source : Matcher) : Matcher :=
  mkMatcher target (predicates source) (nestedCapturingMatchers source).

(** The [captured] member after [target = source], where the source is a
    matcher that has captured nothing. *)
Definition assignedCaptured (target : MatcherId) (st : State) : State :=
  clearCaptured target st.

(** [MatchedReductionCaptures]: the four [int64_t] members, as cells. *)
Record MatchedReductionCaptures : Type := mkMatchedReductionCaptures {
  reductionRank : CellId;
  reductionDimensionSize : CellId;
  maybeLeadingRank : CellId;
  maybeTrailingRank : CellId
}.

Section MakeReductionMatcher.
(** The addresses of the four matchers passed by reference. *)
Variables reductionId fillId leadingId trailingId : MatcherId.
Variable captures : MatchedReductionCaptures.

(** [reduction] after its first assignment. *)
Definition reductionCore : Matcher :=
  assign reductionId
    (m_StructuredOp reductionId
     |> rank_NumGreaterEqualTo 2
     |> rank_NumLowerEqualTo 4
     |> rank_CaptureStaticValue (reductionRank captures)
     |> dim_IteratorType (-1) reduction
     |> dim_CaptureStaticValue (-1) (reductionDimensionSize captures)
     |> dim_AllDimsExcept_IteratorType [-1] parallel
     |> input_NumEqualsTo 1
     |> input_IsProjectedPermutation
     |> output_NumEqualsTo 1
     |> output_IsProjectedPermutation
     |> output_ElementTypeBitWidth 0 32
     |> output_SingleCombinerReduction 0).

Definition reductionFill : Matcher :=
  assign fillId (m_StructuredOp_of [FillOp] fillId).

Definition reductionWithFill : Matcher :=
  assign reductionId
    (reductionCore |> output_NumEqualsTo 1 |> output 0 reductionFill false).

(** The local [commonLeadingOrTrailing] when it is declared. Its address is
    captured nowhere; it is given the identity of the matcher it is copied
    to. *)
Definition commonLeadingOrTrailing (i : MatcherId) : Matcher :=
  m_StructuredOp_of [GenericOp] i
  |> dim_AllDims_IteratorType parallel
  |> input_IsProjectedPermutation
  |> output_IsPermutation
  |> output_NumEqualsTo 1.

(** [commonLeadingOrTrailing.rank(...)] pushes the capture on the local
    itself; [leading] is a copy of it. *)
Definition reductionLeading : Matcher :=
  assign leadingId
    (commonLeadingOrTrailing leadingId
     |> rank_CaptureStaticValue (maybeLeadingRank captures)).

(** The second [commonLeadingOrTrailing.rank(...)] pushes on the local that
    already holds the first capture; [trailing] is a copy of that. *)
Definition reductionTrailing : Matcher :=
  assign trailingId
    (commonLeadingOrTrailing trailingId
     |> rank_CaptureStaticValue (maybeLeadingRank captures)
     |> rank_CaptureStaticValue (maybeTrailingRank captures)).

(** [reduction] when [makeReductionMatcher] returns. *)
Definition makeReductionMatcher : Matcher :=
  assign reductionId
    (assign reductionId
       (reductionWithFill |> input 0 reductionLeading true)
     |> result_HasAnyUse 0 reductionTrailing true
     |> allTilableOpsCaptured FuncOp).

(** The [captured] members when [makeReductionMatcher] returns: each of the
    four matchers was assigned a matcher that had captured nothing. *)
Definition makeReductionMatcherState (st : State) : State :=
  st |> assignedCaptured reductionId |> assignedCaptured fillId
     |> assignedCaptured leadingId |> assignedCaptured trailingId.

End MakeReductionMatcher.

Section MakeSplitReductionMatcher.
Variables parallelReductionId combinerReductionId parallelFillId
          originalFillId leadingId trailingId : MatcherId.

Definition splitOriginalFill : Matcher :=
  assign originalFillId (m_StructuredOp_of [FillOp] originalFillId).

Definition splitParallelFill : Matcher :=
  assign parallelFillId (m_StructuredOp_of [FillOp] parallelFillId).

Definition splitElementwise (i : MatcherId) : Matcher :=
  assign i
    (m_StructuredOp_of [GenericOp] i
     |> input_IsPermutation
     |> output_IsPermutation
     |> input_NumEqualsTo 1
     |> output_NumEqualsTo 1).

Definition splitTrailing : Matcher := splitElementwise trailingId.

Definition splitLeading : Matcher := splitElementwise leadingId.

Definition splitParallelReduction : Matcher :=
  assign parallelReductionId
    (m_StructuredOp parallelReductionId
     |> dim_AllDims_ShapeKind Static
     |> dim_IteratorType (-1) reduction
     |> input_IsPermutation
     |> input 0 splitLeading true
     |> output_NumEqualsTo 1
     |> output 0 splitParallelFill false).

(** [combiner_reduction] when [makeSplitReductionMatcher] returns. *)
Definition makeSplitReductionMatcher : Matcher :=
  assign combinerReductionId
    (m_StructuredOp combinerReductionId
     |> dim_AllDims_ShapeKind Static
     |> dim_IteratorType (-1) reduction
     |> input_IsPermutation
     |> input_SubsetOf 0 splitParallelReduction
     |> output_NumEqualsTo 1
     |> output_SubsetOf 0 splitOriginalFill
     |> output_ElementTypeBitWidth 0 32
     |> output_SingleCombinerReduction 0
     |> result_HasAnyUse_SubsetOf 0 splitTrailing true
     |> allTilableOpsCaptured FuncOp).

Definition makeSplitReductionMatcherState (st : State) : State :=
  st |> assignedCaptured originalFillId |> assignedCaptured parallelFillId
     |> assignedCaptured trailingId |> assignedCaptured leadingId
     |> assignedCaptured parallelReductionId
     |> assignedCaptured combinerReductionId.

End MakeSplitReductionMatcher.

(** Four distinct cells for the captures of a reduction. *)
Definition sampleCaptures : MatchedReductionCaptures :=
  mkMatchedReductionCaptures 0%nat 1%nat 2%nat 3%nat.

(** An IR in which every reduction is matched with the given combiner. *)
Definition withSingleCombiner (combiner : Op) (ir : IR) : IR := {|
  kDynamic := kDynamic ir;
  opKind := opKind ir;
  isLinalgOp := isLinalgOp ir;
  isTilingInterface := isTilingInterface ir;
  getNumLoops := getNumLoops ir;
  getStaticLoopRanges := getStaticLoopRanges ir;
  getIteratorTypesArray := getIteratorTypesArray ir;
  getDpsInputOperands := getDpsInputOperands ir;
  getDpsInitOperands := getDpsInitOperands ir;
  isPermutation := isPermutation ir;
  isProjectedPermutation := isProjectedPermutation ir;
  get := get ir;
  getNumResults := getNumResults ir;
  getUses := getUses ir;
  getParentOfType := getParentOfType ir;
  walk := walk ir;
  getSource := getSource ir;
  getOutputBlockArguments := getOutputBlockArguments ir;
  getTiedOpOperand := getTiedOpOperand ir;
  elementBitWidth := elementBitWidth ir;
  matchReduction _ _ := Some [combiner]
|}.

(** A function with a fill (operation 0) and a reduction of rank 2
    (operation 1) of a function argument into the result of the fill. *)
Definition reductionGraph : list OpData :=
  [ linalgOpData FillOp [4] [parallel]
                 [BlockArgument 2%nat 1%nat; BlockArgument 2%nat 2%nat] 1%nat
                 (Some 2%nat);
    linalgOpData GenericOp [4; 128] [parallel; reduction]
                 [BlockArgument 2%nat 0%nat; OpResult 0%nat 0%nat] 1%nat
                 (Some 2%nat);
    mkOpData FuncOp false false [] [] [] 0%nat 0%nat None ].

Definition reductionIR : IR := withSingleCombiner 9%nat (irOf reductionGraph).

(** What a successful match of the reduction matcher says of the
    candidate [N] and of the state [st'] it leaves. *)
Definition reductionCertificate (ir : IR) (fillId leadingId trailingId
                                 reductionId : MatcherId)
           (captures : MatchedReductionCaptures) (N : Op) (st' : State)
  : Prop :=
  isLinalgOp ir N = true
  /\ (2 <= getNumLoops ir N <= 4)%nat
  /\ index (getIteratorTypesArray ir N) (Z.of_nat (getNumLoops ir N) - 1)
     = Ok reduction
  /\ (forall (i : nat) type,
         getIteratorTypesArray ir N !! i = Some type ->
         Z.of_nat i = Z.of_nat (getNumLoops ir N) - 1 \/ type = parallel)
  /\ getNumDpsInputs ir N = 1
  /\ getNumDpsInits ir N = 1
  /\ (exists out fillOp combiner,
         getDpsInitOperand ir N 0 = Ok out
         /\ elementBitWidth ir (get ir out) = Some 32%nat
         /\ matchReduction ir N 0 = Some [combiner]
         /\ getDefiningOp (get ir out) = Some fillOp
         /\ isLinalgOp ir fillOp = true
         /\ opKind ir fillOp = FillOp
         /\ captured st' !! fillId = Some fillOp)
  /\ captured st' !! reductionId = Some N
  /\ cells st' !! reductionRank captures
     = Some (Z.of_nat (getNumLoops ir N))
  /\ (exists size,
         index (getStaticLoopRanges ir N) (Z.of_nat (getNumLoops ir N) - 1)
         = Ok size
         /\ cells st' !! reductionDimensionSize captures = Some size)
  /\ (exists parent,
         getParentOfType ir N FuncOp = Some parent
         /\ size ({[ N ]}
                  ∪ capturedNodes st' [fillId; leadingId; trailingId])
            = tilableCount ir parent).

(** The result of a structured operation is read by an [extract_slice] and
    then by a second structured operation; a third one reads the slice. *)
Definition sliceAndUserGraph : list OpData :=
  [ linalgOpData GenericOp [4] [parallel] [] 0%nat (Some 4%nat);
    mkOpData ExtractSliceOp false false [] [] [OpResult 0%nat 0%nat]
             0%nat 1%nat (Some 4%nat);
    linalgOpData GenericOp [4] [parallel] [OpResult 0%nat 0%nat] 1%nat
                 (Some 4%nat);
    linalgOpData GenericOp [4] [parallel] [OpResult 1%nat 0%nat] 1%nat
                 (Some 4%nat);
    mkOpData FuncOp false false [] [] [] 0%nat 0%nat None ].

(** A structured operation of rank 2 without a reduction. *)
Definition parallelGraph : list OpData :=
  [ linalgOpData GenericOp [4; 8] [parallel; parallel]
                 [BlockArgument 1%nat 0%nat; BlockArgument 1%nat 1%nat] 1%nat
                 (Some 1%nat);
    mkOpData FuncOp false false [] [] [] 0%nat 0%nat None ].

(** ** Matchers that refer to each other *)

(** The claim that a [match] that returns false leaves the captured
    operation of the matcher as it was, for every matcher. *)
Definition matchFailureKeepsCaptured (ir : IR) (fuel : nat) : Prop :=
  forall (M : Matcher) (N : Op) (st st' : State),
    match_ ir fuel M N st = Ok (false, st') ->
    getCaptured M st' = getCaptured M st.

(** Two matcher objects that hold a reference to each other,
    [A.input(0, B, OptionalMatch()).rank(NumGreaterEqualTo(2))] and
    [B.input(0, A, OptionalMatch())], unfolded to a depth: the matcher
    reached through a reference is the same object, hence has the same
    identity. A match on a chain of fewer producers than the depth does not
    get to the end of the unfolding. *)
Fixpoint eachOtherA (depth : nat) : Matcher :=
  match depth with
  | O => m_StructuredOp 0%nat
  | S depth' =>
      m_StructuredOp 0%nat
      |> input 0 (eachOtherB depth') true
      |> rank_NumGreaterEqualTo 2
  end
with eachOtherB (depth : nat) : Matcher :=
  match depth with
  | O => m_StructuredOp 1%nat
  | S depth' => m_StructuredOp 1%nat |> input 0 (eachOtherA depth') true
  end.

(** A chain of three structured operations in a function: operation 0, of
    rank 2, reads a function argument; operation 1 reads operation 0;
    operation 2, of rank 1, reads operation 1. *)
Definition chainGraph : list OpData :=
  [ linalgOpData GenericOp [4; 8] [parallel; parallel]
                 [BlockArgument 3%nat 0%nat; BlockArgument 3%nat 1%nat] 1%nat
                 (Some 3%nat);
    linalgOpData GenericOp [4; 8] [parallel; parallel]
                 [OpResult 0%nat 0%nat; BlockArgument 3%nat 2%nat] 1%nat
                 (Some 3%nat);
    linalgOpData GenericOp [4] [parallel]
                 [OpResult 1%nat 0%nat; BlockArgument 3%nat 3%nat] 1%nat
                 (Some 3%nat);
    mkOpData FuncOp false false [] [] [] 0%nat 0%nat None ].

(** ** The turns of the forward traversal *)

(** The value the turn [n] of the loop of [traverseSubsetsForwardAnyUse]
    starts with, the first turn being turn 0; there is none when an earlier
    turn has returned. *)
Fixpoint valueAtTurn (ir : IR) (n : nat) (val : Value) : option Value :=
  match n with
  | O => Some val
  | S n' =>
      match scanUses ir (getUses ir val) val with
      | inl _ => None
      | inr val' => valueAtTurn ir n' val'
      end
  end.

(** ** A split reduction *)

(** A function with the two fills (operations 0 and 1), an elementwise
    operation (2) read by the parallel reduction (3) into the second fill,
    the combiner reduction (4) of the parallel one into the first fill, and
    an elementwise operation (5) that reads the combiner. *)
Definition splitReductionGraph : list OpData :=
  [ linalgOpData FillOp [4] [parallel]
                 [BlockArgument 6%nat 0%nat; BlockArgument 6%nat 1%nat] 1%nat
                 (Some 6%nat);
    linalgOpData FillOp [4; 4] [parallel; parallel]
                 [BlockArgument 6%nat 0%nat; BlockArgument 6%nat 2%nat] 1%nat
                 (Some 6%nat);
    linalgOpData GenericOp [4; 4; 32] [parallel; parallel; parallel]
                 [BlockArgument 6%nat 3%nat; BlockArgument 6%nat 4%nat] 1%nat
                 (Some 6%nat);
    linalgOpData GenericOp [4; 4; 32] [parallel; parallel; reduction]
                 [OpResult 2%nat 0%nat; OpResult 1%nat 0%nat] 1%nat
                 (Some 6%nat);
    linalgOpData GenericOp [4; 4] [parallel; reduction]
                 [OpResult 3%nat 0%nat; OpResult 0%nat 0%nat] 1%nat
                 (Some 6%nat);
    linalgOpData GenericOp [4] [parallel]
                 [OpResult 4%nat 0%nat; BlockArgument 6%nat 5%nat] 1%nat
                 (Some 6%nat);
    mkOpData FuncOp false false [] [] [] 0%nat 0%nat None ].

Definition splitReductionIR : IR :=
  withSingleCombiner 9%nat (irOf splitReductionGraph).

(** The six captured operations a match of the combiner matcher on
    [splitReductionIR] leaves. *)
Definition splitReductionCaptured : State :=
  emptyState
  |> setCaptured 23%nat 0%nat |> setCaptured 22%nat 1%nat
  |> setCaptured 24%nat 2%nat |> setCaptured 20%nat 3%nat
  |> setCaptured 21%nat 4%nat |> setCaptured 25%nat 5%nat.

(** A structured operation of rank 5 whose last dimension is a
    reduction. *)
Definition rank5Graph : list OpData :=
  [ linalgOpData GenericOp [2; 2; 2; 2; 8]
                 [parallel; parallel; parallel; parallel; reduction]
                 [BlockArgument 1%nat 0%nat; BlockArgument 1%nat 1%nat] 1%nat
                 (Some 1%nat);
    mkOpData FuncOp false false [] [] [] 0%nat 0%nat None ].

(** * Properties *)

(** ** The result carrier *)

Section CarrierFacts.
Import MatchCallbackResult.

Lemma sum_prefix_firstn (lengths : list Z) (position : nat) (start : Z) :
  sum_prefix lengths position start
  = start + fold_right Z.add 0 (firstn position lengths).
Proof.
  revert position start.
  induction lengths as [|l rest IH]; intros [|p] start; simpl; try lia.
  rewrite IH. lia.
Qed.

Lemma sum_app (xs ys : list Z) :
  fold_right Z.add 0 (xs ++ ys)
  = fold_right Z.add 0 xs + fold_right Z.add 0 ys.
Proof. induction xs as [|x xs IH]; simpl; lia. Qed.

Lemma sum_nonneg (xs : list Z) :
  Forall (fun l => 0 <= l) xs -> 0 <= fold_right Z.add 0 xs.
Proof. induction 1; simpl; lia. Qed.

(** A group of a well-formed carrier lies inside the flat list. *)
Lemma group_in_range (lengths : list Z) (position : nat) (len : Z) :
  Forall (fun l => 0 <= l) lengths ->
  nth_error lengths position = Some len ->
  0 <= fold_right Z.add 0 (firstn position lengths)
  /\ 0 <= len
  /\ fold_right Z.add 0 (firstn position lengths) + len
     <= fold_right Z.add 0 lengths.
Proof.
  intros Hnn Hnth.
  destruct (nth_error_split _ _ Hnth) as (l1 & l2 & -> & Hlen).
  subst position.
  rewrite firstn_app, Nat.sub_diag, firstn_all. simpl.
  rewrite app_nil_r, sum_app. simpl.
  apply Forall_app in Hnn as [H1 H2].
  inversion H2 as [|? ? Hl Hl2]; subst.
  pose proof (sum_nonneg _ H1). pose proof (sum_nonneg _ Hl2). lia.
Qed.

Lemma slice_app_l {A : Type} (v w : list A) (n m : Z) :
  0 <= n -> 0 <= m -> n + m <= Z.of_nat (length v) ->
  slice (v ++ w) n m = slice v n m.
Proof.
  intros Hn Hm Hle. unfold slice.
  rewrite length_app.
  replace (0 <=? n) with true by (symmetry; apply Z.leb_le; lia).
  replace (0 <=? m) with true by (symmetry; apply Z.leb_le; lia).
  replace (n + m <=? Z.of_nat (length v)) with true
    by (symmetry; apply Z.leb_le; lia).
  replace (n + m <=? Z.of_nat (length v + length w)) with true
    by (symmetry; apply Z.leb_le; lia).
  simpl. f_equal.
  rewrite skipn_app, firstn_app.
  rewrite length_skipn.
  replace (Z.to_nat m - (length v - Z.to_nat n))%nat with 0%nat by lia.
  replace (Z.to_nat n - length v)%nat with 0%nat by lia.
  simpl. now rewrite app_nil_r.
Qed.

Lemma slice_tail {A : Type} (v w : list A) :
  slice (v ++ w) (Z.of_nat (length v)) (Z.of_nat (length w)) = Ok w.
Proof.
  unfold slice. rewrite length_app.
  replace (0 <=? Z.of_nat (length v)) with true
    by (symmetry; apply Z.leb_le; lia).
  replace (0 <=? Z.of_nat (length w)) with true
    by (symmetry; apply Z.leb_le; lia).
  replace (Z.of_nat (length v) + Z.of_nat (length w)
           <=? Z.of_nat (length v + length w)) with true
    by (symmetry; apply Z.leb_le; lia).
  simpl. f_equal. rewrite !Nat2Z.id.
  rewrite skipn_app, Nat.sub_diag, skipn_all. simpl.
  apply firstn_all.
Qed.

(** Appending a group of non-null operations. *)
Lemma addPayloadGroup_ok (ops : list Op) (r : t) :
  addPayloadGroup (List.map Some ops) r
  = Ok (getNumPayloadGroups r,
        mk (payloadOperations r ++ ops)
           (payloadGroupLengths r ++ [Z.of_nat (length ops)])).
Proof.
  unfold addPayloadGroup, getNumPayloadGroups. cbv zeta.
  assert (Hall : forallb (fun o : option Op =>
                            match o with Some _ => true | None => false end)
                         (List.map Some ops) = true).
  { apply forallb_forall. intros x Hx.
    apply in_map_iff in Hx as (o & <- & _). reflexivity. }
  assert (Hom : pointees (List.map Some ops) = ops).
  { clear. induction ops as [|o ops IH]; simpl; [reflexivity|].
    now rewrite IH. }
  rewrite Hall, Hom, !length_app. simpl. repeat f_equal; lia.
Qed.

Lemma getPayloadGroup_old (r : t) (ops : list Op) (len : Z) (i : nat) :
  wf r ->
  (i < getNumPayloadGroups r)%nat ->
  getPayloadGroup (mk (payloadOperations r ++ ops)
                      (payloadGroupLengths r ++ [len])) i
  = getPayloadGroup r i
  /\ exists g, getPayloadGroup r i = Ok g.
Proof.
  intros [Hnn Hsum] Hi. unfold getPayloadGroup, getNumPayloadGroups in *.
  simpl.
  rewrite nth_error_app1 by exact Hi.
  destruct (nth_error (payloadGroupLengths r) i) as [l|] eqn:Hnth.
  2:{ apply nth_error_None in Hnth. lia. }
  rewrite !sum_prefix_firstn.
  rewrite firstn_app.
  replace (i - length (payloadGroupLengths r))%nat with 0%nat by lia.
  simpl. rewrite app_nil_r.
  destruct (group_in_range _ _ _ Hnn Hnth) as (H0 & Hl & Hle).
  rewrite slice_app_l by lia.
  split; [reflexivity|].
  unfold slice.
  replace (0 <=? 0 + fold_right Z.add 0 (firstn i (payloadGroupLengths r)))
    with true by (symmetry; apply Z.leb_le; lia).
  replace (0 <=? l) with true by (symmetry; apply Z.leb_le; lia).
  match goal with |- context [?a <=? ?b] =>
    replace (a <=? b) with true by (symmetry; apply Z.leb_le; lia) end.
  simpl. eauto.
Qed.

Lemma getPayloadGroup_new (r : t) (ops : list Op) :
  wf r ->
  getPayloadGroup (mk (payloadOperations r ++ ops)
                      (payloadGroupLengths r ++ [Z.of_nat (length ops)]))
                  (getNumPayloadGroups r)
  = Ok ops.
Proof.
  intros [Hnn Hsum]. unfold getPayloadGroup, getNumPayloadGroups. simpl.
  rewrite nth_error_app2 by lia. rewrite Nat.sub_diag. simpl.
  rewrite sum_prefix_firstn.
  rewrite firstn_app, Nat.sub_diag, firstn_all. simpl.
  rewrite app_nil_r, Hsum. simpl.
  apply slice_tail.
Qed.

Lemma wf_add (r : t) (ops : list Op) :
  wf r ->
  wf (mk (payloadOperations r ++ ops)
         (payloadGroupLengths r ++ [Z.of_nat (length ops)])).
Proof.
  intros [Hnn Hsum]. split; simpl.
  - apply Forall_app. split; [exact Hnn|]. constructor; [lia|constructor].
  - rewrite sum_app, length_app, Hsum. simpl. lia.
Qed.

Lemma wf_empty : wf empty.
Proof. split; [constructor | reflexivity]. Qed.

Lemma addPotentiallyEmptyPayloadGroup_eq (op : option Op) (r : t) :
  addPotentiallyEmptyPayloadGroup op r
  = Ok (mk (payloadOperations r ++ optionalGroup op)
           (payloadGroupLengths r
              ++ [Z.of_nat (length (optionalGroup op))])).
Proof.
  destruct op as [o|]; unfold addPotentiallyEmptyPayloadGroup.
  - change [Some o] with (List.map Some [o]).
    now rewrite addPayloadGroup_ok.
  - change (@nil (option Op)) with (List.map (@Some Op) []).
    now rewrite addPayloadGroup_ok.
Qed.

(** C9. On a carrier with k groups, [addPotentiallyEmptyPayloadGroup op]
    returns a carrier with k+1 groups: group k is the singleton [op] when
    [op] is not null and the empty list when it is, and every group below
    k is the group it was. *)
Theorem addPotentiallyEmptyPayloadGroup_appends
        (r : t) (op : option Op) :
  wf r ->
  exists r',
    addPotentiallyEmptyPayloadGroup op r = Ok r'
    /\ wf r'
    /\ getNumPayloadGroups r' = S (getNumPayloadGroups r)
    /\ (forall i, (i < getNumPayloadGroups r)%nat ->
                  getPayloadGroup r' i = getPayloadGroup r i
                  /\ exists g, getPayloadGroup r i = Ok g)
    /\ getPayloadGroup r' (getNumPayloadGroups r)
       = Ok (match op with Some o => [o] | None => [] end).
Proof.
  intros Hwf. eexists. split; [apply addPotentiallyEmptyPayloadGroup_eq|].
  split; [now apply wf_add|].
  split.
  { unfold getNumPayloadGroups. simpl. rewrite length_app. simpl. lia. }
  split.
  { intros i Hi. now apply getPayloadGroup_old. }
  rewrite getPayloadGroup_new by exact Hwf. now destruct op.
Qed.

End CarrierFacts.

Lemma addPotentiallyEmptyPayloadGroup_appends_witness :
  let r := MatchCallbackResult.mk [1%nat; 2%nat] [2] in
  exists r',
    MatchCallbackResult.addPotentiallyEmptyPayloadGroup (Some 7%nat) r = Ok r'
    /\ MatchCallbackResult.wf r'
    /\ MatchCallbackResult.getNumPayloadGroups r'
       = S (MatchCallbackResult.getNumPayloadGroups r)
    /\ (forall i, (i < MatchCallbackResult.getNumPayloadGroups r)%nat ->
                  MatchCallbackResult.getPayloadGroup r' i
                  = MatchCallbackResult.getPayloadGroup r i
                  /\ exists g, MatchCallbackResult.getPayloadGroup r i = Ok g)
    /\ MatchCallbackResult.getPayloadGroup
         r' (MatchCallbackResult.getNumPayloadGroups r)
       = Ok [7%nat].
Proof.
  apply (addPotentiallyEmptyPayloadGroup_appends
           (MatchCallbackResult.mk [1%nat; 2%nat] [2]) (Some 7%nat)).
  split; simpl; [repeat constructor; lia | reflexivity].
Defined.

(** ** Dimension predicates *)

Section DimensionFacts.
Variable ir : IR.
Variable fuel : nat.

Lemma allDimsExcept_empty (kind : IteratorType) (i : Z)
      (types : list IteratorType) :
  allDimsExcept ∅ kind i types
  = forallb (fun t => bool_decide (t = kind)) types.
Proof.
  revert i. induction types as [|t rest IH]; intros i; simpl.
  - reflexivity.
  - rewrite bool_decide_eq_false_2 by set_solver.
    rewrite IH. now destruct (bool_decide (t = kind)).
Qed.

Lemma everyDimensionIs_Forall (kind : IteratorType) (op : Op) :
  everyDimensionIs ir kind op = true
  <-> Forall (fun t => t = kind) (getIteratorTypesArray ir op).
Proof.
  unfold everyDimensionIs. rewrite forallb_forall, Forall_forall.
  split; intros H t Ht.
  - apply list_elem_of_In in Ht. specialize (H t Ht).
    now apply bool_decide_eq_true in H.
  - apply bool_decide_eq_true. apply H. now apply list_elem_of_In.
Qed.

Lemma addedPredicate_addPredicate (p : Pred) (m : Matcher) :
  addedPredicate (addPredicate p m) = Some p.
Proof. unfold addedPredicate, addPredicate. simpl. apply last_snoc. Qed.

(** C10. The predicate attached by [dim(AllDims(), kind)] and the one
    attached by [dim(AllDimsExcept({}), kind)] evaluate alike on every
    operation and state: both succeed exactly when every iteration-space
    dimension has iterator type [kind], which holds of an operation
    without dimensions. *)
Theorem dim_AllDims_IteratorType_as_AllDimsExcept
        (kind : IteratorType) (m : Matcher) (op : Op) (st : State) :
  exists p q,
    addedPredicate (dim_AllDims_IteratorType kind m) = Some p
    /\ addedPredicate (dim_AllDimsExcept_IteratorType [] kind m) = Some q
    /\ evalPred ir fuel p op st = evalPred ir fuel q op st
    /\ evalPred ir fuel p op st = Ok (everyDimensionIs ir kind op, st)
    /\ (everyDimensionIs ir kind op = true
        <-> Forall (fun t => t = kind) (getIteratorTypesArray ir op)).
Proof.
  exists (PAllDimsExceptIter [] kind), (PAllDimsExceptIter [] kind).
  split; [apply addedPredicate_addPredicate|].
  split; [apply addedPredicate_addPredicate|].
  split; [reflexivity|].
  split; [|apply everyDimensionIs_Forall].
  simpl. unfold excludedDimsOf. simpl.
  now rewrite allDimsExcept_empty.
Qed.

(** The list forms of [dim] reject an index that resolves outside the
    rank. *)
Lemma dimsIter_out_of_range (op : Op) (kind : IteratorType)
      (dimension : Z) (rest : list Z) :
  transformed (Z.of_nat (getNumLoops ir op)) dimension < 0
  \/ Z.of_nat (getNumLoops ir op)
     <= transformed (Z.of_nat (getNumLoops ir op)) dimension ->
  dimsIter ir op kind (dimension :: rest) = Ok false.
Proof.
  intros H. simpl.
  destruct (_ <? 0) eqn:E1; [reflexivity|].
  destruct (_ <=? _) eqn:E2; [reflexivity|].
  apply Z.ltb_ge in E1. apply Z.leb_gt in E2. lia.
Qed.

Lemma dimsShape_below_range (shape : list Z) (kind : ShapeKind)
      (dimension : Z) (rest : list Z) :
  - 2 ^ 63 <= dimension ->
  Z.of_nat (length shape) < 2 ^ 63 ->
  Z.of_nat (length shape) + dimension < 0 ->
  dimsShape ir shape kind (dimension :: rest) = Ok false.
Proof.
  intros Hlo Hlen Hneg. simpl.
  assert (Ht : transformed_size_t (Z.of_nat (length shape)) dimension
               = Z.of_nat (length shape) + dimension).
  { unfold transformed_size_t, to_int64, two64.
    destruct (0 <=? dimension) eqn:E; [apply Z.leb_le in E; lia|].
    set (n := Z.of_nat (length shape) + dimension).
    assert (Hm : n mod 2 ^ 64 = n + 2 ^ 64).
    { symmetry. apply (Z.mod_unique n (2 ^ 64) (-1)); lia. }
    rewrite Hm.
    destruct (n + 2 ^ 64 <? 2 ^ 63) eqn:E2; [apply Z.ltb_lt in E2|]; lia. }
  rewrite Ht.
  replace (Z.of_nat (length shape) + dimension <? 0) with true
    by (symmetry; apply Z.ltb_lt; lia).
  reflexivity.
Qed.

(** [dim(int64_t, DivisibleBy)] and [dim(int64_t, CaptureStaticValue)]
    test the upper bound only. *)
Lemma dim_DivisibleBy_above_range (op : Op) (dimension k : Z) (st : State) :
  Z.of_nat (getNumLoops ir op)
  <= transformed (Z.of_nat (getNumLoops ir op)) dimension ->
  evalPred ir fuel (PDimDivisibleBy dimension k) op st = Ok (false, st).
Proof.
  intros H. simpl.
  now replace (_ <=? _) with true by (symmetry; apply Z.leb_le; lia).
Qed.

Lemma dim_below_range_index (op : Op) (dimension : Z) :
  - 2 ^ 63 <= dimension ->
  Z.of_nat (length (getStaticLoopRanges ir op)) < 2 ^ 63 ->
  transformed (Z.of_nat (getNumLoops ir op)) dimension < 0 ->
  - 2 ^ 63 <= transformed (Z.of_nat (getNumLoops ir op)) dimension ->
  index (getStaticLoopRanges ir op)
        (transformed (Z.of_nat (getNumLoops ir op)) dimension)
  = Crash OutOfBounds.
Proof.
  intros Hlo Hlen Hneg Hlo'. unfold index, to_size_t, two64.
  set (t := transformed _ _) in *.
  assert (Hm : t mod 2 ^ 64 = t + 2 ^ 64).
  { symmetry. apply (Z.mod_unique t (2 ^ 64) (-1)); lia. }
  rewrite Hm.
  now replace (_ <? _) with false by (symmetry; apply Z.ltb_ge; lia).
Qed.

(** Below the range, both read the loop ranges at an index that is not
    one. *)
Lemma dim_DivisibleBy_below_range (op : Op) (dimension k : Z) (st : State) :
  - 2 ^ 63 <= dimension ->
  Z.of_nat (length (getStaticLoopRanges ir op)) < 2 ^ 63 ->
  transformed (Z.of_nat (getNumLoops ir op)) dimension < 0 ->
  evalPred ir fuel (PDimDivisibleBy dimension k) op st = Crash OutOfBounds.
Proof.
  intros Hlo Hlen Hneg. unfold evalPred, evalPredWith. cbv zeta.
  replace (_ <=? _) with false by (symmetry; apply Z.leb_gt; lia).
  rewrite dim_below_range_index; [reflexivity | lia | lia | lia |].
  unfold transformed in *. destruct (0 <=? dimension); lia.
Qed.

Lemma dim_CaptureStaticValue_below_range (op : Op) (dimension : Z)
      (capture : CellId) (st : State) :
  - 2 ^ 63 <= dimension ->
  Z.of_nat (length (getStaticLoopRanges ir op)) < 2 ^ 63 ->
  transformed (Z.of_nat (getNumLoops ir op)) dimension < 0 ->
  evalPred ir fuel (PDimCapture dimension capture) op st = Crash OutOfBounds.
Proof.
  intros Hlo Hlen Hneg. unfold evalPred, evalPredWith. cbv zeta.
  replace (_ <=? _) with false by (symmetry; apply Z.leb_gt; lia).
  rewrite dim_below_range_index; [reflexivity | lia | lia | lia |].
  unfold transformed in *. destruct (0 <=? dimension); lia.
Qed.

End DimensionFacts.

(** C3. On an operation of rank 3, [dim(-4, DivisibleBy(32))] and
    [dim(-4, CaptureStaticValue)] resolve the index to -1, pass the only
    test made (against the rank, from above) and read the loop ranges out
    of bounds, where the list forms of [dim] return false. *)
Theorem dim_below_range_is_read :
  transformed (Z.of_nat (getNumLoops (irOf rank3Graph) 0%nat)) (-4) = -1
  /\ match_ (irOf rank3Graph) 0
            (dim_DivisibleBy (-4) 32 (m_StructuredOp 0%nat)) 0%nat emptyState
     = Crash OutOfBounds
  /\ match_ (irOf rank3Graph) 0
            (dim_CaptureStaticValue (-4) 0%nat (m_StructuredOp 0%nat))
            0%nat emptyState
     = Crash OutOfBounds
  /\ match_ (irOf rank3Graph) 0
            (dim_IteratorType (-4) reduction (m_StructuredOp 0%nat))
            0%nat emptyState
     = Ok (false, emptyState)
  /\ match_ (irOf rank3Graph) 0
            (dim_ShapeKind (-4) Static (m_StructuredOp 0%nat))
            0%nat emptyState
     = Ok (false, emptyState).
Proof. repeat split; vm_compute; reflexivity. Qed.

(** ** The exhaustiveness predicate *)

Section TilableFacts.
Variable ir : IR.
Variable fuel : nat.

Lemma matched_fold (st : State) (matchers : list MatcherId) (acc : gset Op) :
  foldl (fun s nested =>
           match captured st !! nested with
           | Some c => {[ c ]} ∪ s
           | None => s
           end) acc matchers
  = capturedNodes st matchers ∪ acc.
Proof.
  unfold capturedNodes. revert acc.
  induction matchers as [|i rest IH]; intros acc; simpl.
  - set_solver.
  - rewrite IH. destruct (captured st !! i); simpl; set_solver.
Qed.

(** C4. The predicate attached by [allTilableOpsCaptured<OpTy>()] leaves
    the state as it is and succeeds exactly when the candidate has an
    enclosing operation of type [OpTy] and the set made of the candidate
    and of the captured operations of the matchers that were recorded
    when the predicate was attached has as many elements as there are
    tilable operations in that parent. *)
Theorem allTilableOpsCaptured_exact
        (scope : OpKind) (m : Matcher) (op : Op) (st : State) :
  exists p,
    addedPredicate (allTilableOpsCaptured scope m) = Some p
    /\ evalPred ir fuel p op st
       = Ok (match getParentOfType ir op scope with
             | None => false
             | Some parent =>
                 bool_decide
                   (size ({[ op ]}
                          ∪ capturedNodes
                              st (List.map mid (nestedCapturingMatchers m)))
                    = tilableCount ir parent)
             end, st).
Proof.
  eexists. split; [apply addedPredicate_addPredicate|].
  simpl. f_equal. f_equal.
  unfold checkAllTilableMatched, tilableCount.
  destruct (getParentOfType ir op scope) as [parent|]; [|reflexivity].
  rewrite matched_fold.
  replace (capturedNodes st (List.map mid (nestedCapturingMatchers m)) ∪ ∅)
    with (capturedNodes st (List.map mid (nestedCapturingMatchers m)))
    by set_solver.
  apply bool_decide_ext. split; intros H; now symmetry.
Qed.

End TilableFacts.

(** ** Operand predicates *)

Section OperandFacts.
Variable ir : IR.
Variable fuel : nat.

Lemma index_in_range {A : Type} (v : list A) (i : Z) :
  0 <= i < Z.of_nat (length v) ->
  Z.of_nat (length v) < 2 ^ 64 ->
  exists a, index v i = Ok a /\ nth_error v (Z.to_nat i) = Some a.
Proof.
  intros Hi Hlen. unfold index, to_size_t, two64.
  rewrite Z.mod_small by lia.
  replace (i <? Z.of_nat (length v)) with true
    by (symmetry; apply Z.ltb_lt; lia).
  destruct (nth_error v (Z.to_nat i)) as [a|] eqn:E; [eauto|].
  apply nth_error_None in E. lia.
Qed.

Lemma getDpsInputOperand_in_range (op : Op) (i : Z) :
  0 <= i < getNumDpsInputs ir op ->
  getNumDpsInputs ir op < 2 ^ 63 ->
  exists operand,
    getDpsInputOperand ir op i = Ok operand
    /\ nth_error (getDpsInputOperands ir op) (Z.to_nat i) = Some operand.
Proof.
  intros Hi Hn. unfold getDpsInputOperand.
  replace ((0 <=? i) && (i <? getNumDpsInputs ir op)) with true.
  - apply index_in_range; unfold getNumDpsInputs in *; lia.
  - symmetry. apply andb_true_iff. split.
    + apply Z.leb_le; lia.
    + apply Z.ltb_lt; lia.
Qed.

Lemma addedPredicate_recorded (p : Pred) (nested m : Matcher) :
  addedPredicate (recordNestedMatcher nested (addPredicate p m)) = Some p.
Proof.
  unfold addedPredicate, recordNestedMatcher, addPredicate. simpl.
  apply last_snoc.
Qed.

Lemma evalPred_PInput (position : Z) (operandMatcher : Matcher)
      (optional : bool) (op : Op) (st : State) :
  evalPred ir fuel (PInput position operandMatcher optional) op st
  = let transformedPosition :=
      transformed (getNumDpsInputs ir op) position in
    if getNumDpsInputs ir op <=? transformedPosition then Ok (false, st)
    else
      rbind (getDpsInputOperand ir op transformedPosition)
        (fun operand =>
           match getDefiningOp (get ir operand) with
           | None => Ok (optional, st)
           | Some definingOp =>
               match match_ ir fuel operandMatcher definingOp st with
               | Ok (true, st') => Ok (true, st')
               | Ok (false, st') => Ok (optional, st')
               | Crash e => Crash e
               end
           end).
Proof. reflexivity. Qed.

(** C5. With the resolved position inside the inputs, the predicate
    attached by [input(position, matcher, optional)] returns [optional]
    when the operand has no defining operation; when it has one, the
    nested matcher is run on it, the state it leaves is the state of the
    predicate, and the predicate succeeds exactly when the nested match
    succeeded or [optional] is set. *)
Theorem input_optional_match
        (position : Z) (operandMatcher : Matcher) (optional : bool)
        (m : Matcher) (op : Op) (st : State) :
  0 <= transformed (getNumDpsInputs ir op) position
    < getNumDpsInputs ir op ->
  getNumDpsInputs ir op < 2 ^ 63 ->
  exists p operand,
    addedPredicate (input position operandMatcher optional m) = Some p
    /\ nth_error (getDpsInputOperands ir op)
                 (Z.to_nat (transformed (getNumDpsInputs ir op) position))
       = Some operand
    /\ evalPred ir fuel p op st
       = match getDefiningOp (get ir operand) with
         | None => Ok (optional, st)
         | Some definingOp =>
             match match_ ir fuel operandMatcher definingOp st with
             | Ok (matched, st') => Ok (matched || optional, st')
             | Crash e => Crash e
             end
         end.
Proof.
  intros Hpos Hn.
  destruct (getDpsInputOperand_in_range op _ Hpos Hn)
    as (operand & Hget & Hnth).
  exists (PInput position operandMatcher optional), operand.
  split; [apply addedPredicate_recorded|]. split; [exact Hnth|].
  rewrite evalPred_PInput. cbv zeta.
  replace (getNumDpsInputs ir op
           <=? transformed (getNumDpsInputs ir op) position) with false
    by (symmetry; apply Z.leb_gt; lia).
  rewrite Hget. cbn [rbind].
  destruct (getDefiningOp (get ir operand)) as [definingOp|]; [|reflexivity].
  destruct (match_ ir fuel operandMatcher definingOp st)
    as [[[|] st']|e]; reflexivity.
Qed.

End OperandFacts.

Lemma input_optional_match_witness :
  exists p operand,
    addedPredicate (input 0 (m_StructuredOp 1%nat) true (m_StructuredOp 0%nat))
    = Some p
    /\ nth_error (getDpsInputOperands (irOf twoInputGraph) 1%nat)
                 (Z.to_nat (transformed
                              (getNumDpsInputs (irOf twoInputGraph) 1%nat) 0))
       = Some operand
    /\ evalPred (irOf twoInputGraph) 0 p 1%nat emptyState
       = match getDefiningOp (get (irOf twoInputGraph) operand) with
         | None => Ok (true, emptyState)
         | Some definingOp =>
             match match_ (irOf twoInputGraph) 0 (m_StructuredOp 1%nat)
                          definingOp emptyState with
             | Ok (matched, st') => Ok (matched || true, st')
             | Crash e => Crash e
             end
         end.
Proof.
  apply (input_optional_match (irOf twoInputGraph) 0 0 (m_StructuredOp 1%nat)
                              true (m_StructuredOp 0%nat) 1%nat emptyState).
  - vm_compute. split; [discriminate | reflexivity].
  - vm_compute. reflexivity.
Defined.

(** C2. [output(position, SubsetOf(m))] resolves and bounds the position
    with the number of inputs. On an operation without inputs and with one
    output, position 0 is rejected and [m] is not run, where
    [output(0, m)] runs [m] on the producer of the output; on an operation
    with two inputs and one output, position -1 resolves to 1 and the
    output operand is read out of range. *)
Theorem output_SubsetOf_uses_input_arity :
  getNumDpsInits (irOf noInputGraph) 1%nat = 1
  /\ match_ (irOf noInputGraph) 1
            (output_SubsetOf 0 (m_StructuredOp 1%nat) (m_StructuredOp 0%nat))
            1%nat emptyState
     = Ok (false, emptyState)
  /\ match_ (irOf noInputGraph) 1
            (output 0 (m_StructuredOp 1%nat) false (m_StructuredOp 0%nat))
            1%nat emptyState
     = Ok (true, setCaptured 0%nat 1%nat (setCaptured 1%nat 0%nat emptyState))
  /\ getNumDpsInits (irOf twoInputGraph) 1%nat = 1
  /\ match_ (irOf twoInputGraph) 1
            (output_SubsetOf (-1) (m_StructuredOp 1%nat) (m_StructuredOp 0%nat))
            1%nat emptyState
     = Crash AssertionFailure
  /\ match_ (irOf twoInputGraph) 1
            (output (-1) (m_StructuredOp 1%nat) false (m_StructuredOp 0%nat))
            1%nat emptyState
     = Ok (true, setCaptured 0%nat 1%nat (setCaptured 1%nat 0%nat emptyState)).
Proof. repeat split; vm_compute; reflexivity. Qed.

(** ** Subset traversal *)

Section TraversalFacts.
Variable ir : IR.

Lemma traverseSubsetsBackwards_step (fuel : nat) (val src : Value) :
  viewOf ir val src ->
  traverseSubsetsBackwards ir (S fuel) val
  = traverseSubsetsBackwards ir fuel src.
Proof.
  intros [op n Hk | loop n Hk]; simpl; now rewrite Hk.
Qed.

(** Backward traversal returns the head of a chain of views; the fuel
    needed is the length of the chain. *)
Lemma traverseSubsetsBackwards_chain (val : Value) (n : nat) (op : Op) :
  viewChain ir val n op ->
  forall fuel, (n < fuel)%nat ->
               traverseSubsetsBackwards ir fuel val = Ok op.
Proof.
  induction 1 as [op r Hk | val src n op Hview _ IH]; intros fuel Hfuel.
  - destruct fuel as [|fuel]; [lia|]. simpl.
    destruct (opKind ir op); congruence.
  - destruct fuel as [|fuel]; [lia|].
    rewrite (traverseSubsetsBackwards_step _ _ _ Hview).
    apply IH. lia.
Qed.

(** Forward traversal through [extract_slice] operations, each the only
    user of what it slices, returns the user at the end. *)
Lemma traverseSubsetsForwardAnyUse_slices (val : Value) (n : nat)
      (user : Op) :
  sliceChain ir val n user ->
  forall fuel, (n < fuel)%nat ->
               traverseSubsetsForwardAnyUse ir fuel val = Ok user.
Proof.
  induction 1 as [val use rest Huses Hk1 Hk2
                 | val use n user Huses Hk _ IH]; intros fuel Hfuel.
  - destruct fuel as [|fuel]; [lia|]. simpl. rewrite Huses. simpl.
    destruct (opKind ir (getOwner use)); congruence.
  - destruct fuel as [|fuel]; [lia|]. simpl. rewrite Huses. simpl.
    rewrite Hk. apply IH. lia.
Qed.

End TraversalFacts.

(** The chain [realOp -> view1 -> view2 -> consumer] of two
    [extract_slice] operations is traversed in both directions. *)
Lemma sliceChainGraph_traversals (fuel : nat) :
  (2 < fuel)%nat ->
  traverseSubsetsBackwards (irOf sliceChainGraph) fuel (OpResult 2%nat 0%nat)
  = Ok 0%nat
  /\ traverseSubsetsForwardAnyUse (irOf sliceChainGraph) fuel
                                  (OpResult 0%nat 0%nat)
     = Ok 3%nat.
Proof.
  intros Hfuel. split.
  - apply (traverseSubsetsBackwards_chain _ _ 2%nat); [|exact Hfuel].
    eapply chain_view; [exact (view_slice (irOf sliceChainGraph) 2%nat 0%nat eq_refl)|].
    eapply chain_view; [exact (view_slice (irOf sliceChainGraph) 1%nat 0%nat eq_refl)|].
    apply (chain_head (irOf sliceChainGraph) 0%nat 0%nat). discriminate.
  - apply (traverseSubsetsForwardAnyUse_slices _ _ 2%nat); [|exact Hfuel].
    eapply (slices_step (irOf sliceChainGraph) _ (mkOpOperand 1%nat 0%nat));
      [reflexivity | reflexivity |].
    eapply (slices_step (irOf sliceChainGraph) _ (mkOpOperand 2%nat 0%nat));
      [reflexivity | reflexivity |].
    eapply (slices_end (irOf sliceChainGraph) _ (mkOpOperand 3%nat 0%nat) []);
      [reflexivity | discriminate | discriminate].
Qed.

(** C8. The result of [realOp] is the only shared output of a
    [foreach_thread], whose tied block argument is read by a consumer in
    the body. Backward traversal from the operand of the consumer returns
    [realOp]; forward traversal from the result of [realOp] returns the
    [foreach_thread] itself and not the consumer, whatever the fuel. *)
Theorem forward_traversal_stops_at_foreach_thread (fuel : nat) :
  get (irOf foreachThreadGraph) (mkOpOperand 2%nat 0%nat)
  = BlockArgument 1%nat 0%nat
  /\ getUses (irOf foreachThreadGraph) (BlockArgument 1%nat 0%nat)
     = [mkOpOperand 2%nat 0%nat]
  /\ viewChain (irOf foreachThreadGraph) (BlockArgument 1%nat 0%nat)
               1%nat 0%nat
  /\ traverseSubsetsBackwards (irOf foreachThreadGraph) (S (S fuel))
                              (BlockArgument 1%nat 0%nat)
     = Ok 0%nat
  /\ traverseSubsetsForwardAnyUse (irOf foreachThreadGraph) (S fuel)
                                  (OpResult 0%nat 0%nat)
     = Ok 1%nat
  /\ opKind (irOf foreachThreadGraph) 1%nat = ForeachThreadOp.
Proof.
  assert (Hchain : viewChain (irOf foreachThreadGraph)
                             (BlockArgument 1%nat 0%nat) 1%nat 0%nat).
  { eapply chain_view;
      [exact (view_tie (irOf foreachThreadGraph) 1%nat 0%nat eq_refl)|].
    apply (chain_head (irOf foreachThreadGraph) 0%nat 0%nat). discriminate. }
  split; [reflexivity|]. split; [reflexivity|]. split; [exact Hchain|].
  split; [apply (traverseSubsetsBackwards_chain _ _ _ _ Hchain); lia|].
  split; reflexivity.
Qed.

(** ** Induction on matchers *)

(** A property of matchers and one of predicates hold everywhere when the
    first follows from the second on the predicates and from itself on the
    recorded matchers, and the second from the first on the nested
    matcher. *)
Lemma matcher_pred_ind (Q : Matcher -> Prop) (P : Pred -> Prop) :
  (forall m,
      Forall P (predicates m) ->
      Forall Q (nestedCapturingMatchers m) ->
      Q m) ->
  (forall p, (forall om, nestedOf p = Some om -> Q om) -> P p) ->
  (forall m, Q m) /\ (forall p, P p).
Proof.
  intros Hm Hp.
  assert (Hall : forall m, Q m).
  { fix IHm 1. intros [i ps ns]. apply Hm; simpl.
    - induction ps as [|p ps IHps]; constructor; [|exact IHps].
      apply Hp. destruct p; simpl; intros om [= <-]; apply IHm.
    - induction ns as [|n ns IHns]; constructor; [apply IHm | exact IHns]. }
  split; [exact Hall|].
  intros p. apply Hp. intros om _. apply Hall.
Qed.

(** ** Reset *)

Section ResetFacts.

Lemma resetCapture_fold_lookup (ns : list Matcher) :
  Forall (fun n => forall st i,
              captured (resetCapture n st) !! i
              = (if decide (i ∈ resetIds n) then None
                 else captured st !! i)
              /\ cells (resetCapture n st) = cells st) ns ->
  forall st i,
    captured (foldl (fun s n => resetCapture n s) st ns) !! i
    = (if decide (i ∈ flat_map resetIds ns) then None
       else captured st !! i)
    /\ cells (foldl (fun s n => resetCapture n s) st ns) = cells st.
Proof.
  induction 1 as [|n ns Hn _ IH]; intros st i; simpl.
  - split; [|reflexivity]. destruct (decide (i ∈ [])) as [H|_];
      [inversion H | reflexivity].
  - destruct (IH (resetCapture n st) i) as [-> ->].
    destruct (Hn st i) as [-> ->]. split; [|reflexivity].
    repeat case_decide; try reflexivity; set_solver.
Qed.

Lemma resetCapture_lookup (m : Matcher) (st : State) (i : MatcherId) :
  captured (resetCapture m st) !! i
  = (if decide (i ∈ resetIds m) then None else captured st !! i)
  /\ cells (resetCapture m st) = cells st.
Proof.
  revert m st i.
  refine (proj1 (matcher_pred_ind
                   (fun m => forall st i,
                        captured (resetCapture m st) !! i
                        = (if decide (i ∈ resetIds m) then None
                           else captured st !! i)
                        /\ cells (resetCapture m st) = cells st)
                   (fun _ => True) _ _)).
  - intros [j ps ns] _ Hns st i. simpl in *.
    destruct (resetCapture_fold_lookup ns Hns (clearCaptured j st) i)
      as [-> ->].
    split; [|reflexivity]. unfold clearCaptured. simpl.
    destruct (decide (i = j)) as [->|Hne].
    + rewrite lookup_delete_eq.
      repeat case_decide; try reflexivity; set_solver.
    + rewrite lookup_delete_ne by congruence.
      repeat case_decide; try reflexivity; set_solver.
  - intros; exact I.
Qed.

(** C1. After [M.resetCapture()], [getCaptured()] is null for [M] and
    for every matcher reached through the recorded nested matchers; the
    captured operation of every other matcher and all scalar capture
    cells are what they were before the call. *)
Theorem resetCapture_clears_captured_only (M : Matcher) (st : State) :
  getCaptured M (resetCapture M st) = None
  /\ Forall (fun i => captured (resetCapture M st) !! i = None)
            (resetIds M)
  /\ (forall i, captured (resetCapture M st) !! i = None
                \/ captured (resetCapture M st) !! i = captured st !! i)
  /\ cells (resetCapture M st) = cells st.
Proof.
  assert (Hself : mid M ∈ resetIds M).
  { destruct M; simpl. set_solver. }
  split; [|split; [|split]].
  - unfold getCaptured.
    destruct (resetCapture_lookup M st (mid M)) as [-> _].
    rewrite decide_True by exact Hself. reflexivity.
  - apply List.Forall_forall. intros i Hi.
    apply list_elem_of_In in Hi.
    destruct (resetCapture_lookup M st i) as [-> _].
    rewrite decide_True by exact Hi. reflexivity.
  - intros i. destruct (resetCapture_lookup M st i) as [-> _].
    case_decide; auto.
  - exact (proj2 (resetCapture_lookup M st (mid M))).
Qed.

End ResetFacts.

(** A matcher that captures the rank, on a rank-3 operation, from a cell
    that holds 0: the match writes 3 and the reset leaves it. *)
Lemma resetCapture_leaves_cells :
  ~ resetRestoresCells (irOf rank3Graph) 0.
Proof.
  intros H.
  destruct (H (rank_CaptureStaticValue 0%nat (m_StructuredOp 0%nat)) 0%nat
              (setCell 0%nat 0 emptyState)
              (setCaptured 0%nat 0%nat (setCell 0%nat 3 emptyState)) true)
    as [_ Hcells].
  - vm_compute. reflexivity.
  - apply (f_equal (fun c => c !! 0%nat)) in Hcells.
    vm_compute in Hcells. discriminate.
Qed.

(** ** What a match writes *)

Section FrameFacts.
Variable ir : IR.
Variable fuel : nat.

Lemma match_unfold (m : Matcher) (op : Op) (st : State) :
  match_ ir fuel m op st
  = if isLinalgOp ir op then
      match all_of (fun p s => evalPred ir fuel p op s) (predicates m) st with
      | Ok (true, st') => Ok (true, setCaptured (mid m) op st')
      | Ok (false, st') => Ok (false, st')
      | Crash e => Crash e
      end
    else Ok (false, st).
Proof. destruct m; reflexivity. Qed.

Lemma sameOutside_refl (ids : list MatcherId) (st : State) :
  sameOutside ids st st.
Proof. intros i _. reflexivity. Qed.

Lemma sameOutside_trans (ids : list MatcherId) (st1 st2 st3 : State) :
  sameOutside ids st1 st2 -> sameOutside ids st2 st3 ->
  sameOutside ids st1 st3.
Proof. intros H12 H23 i Hi. rewrite (H23 i Hi). apply H12, Hi. Qed.

Lemma sameOutside_mono (ids ids' : list MatcherId) (st st' : State) :
  ids ⊆ ids' -> sameOutside ids st st' -> sameOutside ids' st st'.
Proof. intros Hsub H i Hi. apply H. set_solver. Qed.

Lemma sameOutside_setCell (ids : list MatcherId) (c : CellId) (v : Z)
      (st : State) :
  sameOutside ids st (setCell c v st).
Proof. intros i _. reflexivity. Qed.

Lemma sameOutside_setCaptured (ids : list MatcherId) (i : MatcherId) (op : Op)
      (st : State) :
  i ∈ ids -> sameOutside ids st (setCaptured i op st).
Proof.
  intros Hi j Hj. unfold setCaptured. simpl.
  apply lookup_insert_ne. set_solver.
Qed.

(** [all_of] and [any_of] keep what each of the calls keeps. *)
Lemma all_of_sameOutside {A : Type} (f : A -> State -> result (bool * State))
      (ids : list MatcherId) (xs : list A) :
  Forall (fun x => forall st b st',
              f x st = Ok (b, st') -> sameOutside ids st st') xs ->
  forall st b st',
    all_of f xs st = Ok (b, st') -> sameOutside ids st st'.
Proof.
  induction 1 as [|x xs Hx _ IH]; intros st b st' Hrun; simpl in Hrun.
  - injection Hrun as <- <-. apply sameOutside_refl.
  - destruct (f x st) as [[[|] s1]|e] eqn:E; try discriminate.
    + eapply sameOutside_trans; [eapply Hx, E | eapply IH, Hrun].
    + injection Hrun as <- <-. eapply Hx, E.
Qed.

Lemma any_of_sameOutside {A : Type} (f : A -> State -> result (bool * State))
      (ids : list MatcherId) (xs : list A) :
  (forall x st b st', f x st = Ok (b, st') -> sameOutside ids st st') ->
  forall st b st',
    any_of f xs st = Ok (b, st') -> sameOutside ids st st'.
Proof.
  intros Hf. induction xs as [|x xs IH]; intros st b st' Hrun; simpl in Hrun.
  - injection Hrun as <- <-. apply sameOutside_refl.
  - destruct (f x st) as [[[|] s1]|e] eqn:E; try discriminate.
    + injection Hrun as <- <-. eapply Hf, E.
    + eapply sameOutside_trans; [eapply Hf, E | eapply IH, Hrun].
Qed.

Ltac split_run H :=
  repeat match type of H with
         | context [rbind ?x _] => destruct x eqn:?; cbn [rbind] in H
         | context [match ?x with _ => _ end] => destruct x eqn:?
         end;
  try discriminate.

Lemma matcherIds_unfold (m : Matcher) :
  matcherIds m = mid m :: nestedIds m.
Proof. destruct m; reflexivity. Qed.

Lemma predIds_nestedIds (p : Pred) (m : Matcher) :
  p ∈ predicates m -> predIds p ⊆ nestedIds m.
Proof.
  unfold nestedIds. intros Hp i Hi.
  apply list_elem_of_In, in_flat_map. exists p.
  split; apply list_elem_of_In; assumption.
Qed.

(** A match writes the captured operation of the matchers it runs and of
    no other. *)
Lemma match_evalPred_sameOutside :
  (forall m op st b st',
      match_ ir fuel m op st = Ok (b, st') ->
      sameOutside (matcherIds m) st st')
  /\ (forall p op st b st',
         evalPred ir fuel p op st = Ok (b, st') ->
         sameOutside (predIds p) st st').
Proof.
  apply matcher_pred_ind.
  - intros m Hps _ op st b st' Hrun.
    rewrite match_unfold in Hrun.
    assert (Hall : forall s c s',
               all_of (fun p s => evalPred ir fuel p op s) (predicates m) s
               = Ok (c, s') ->
               sameOutside (matcherIds m) s s').
    { apply all_of_sameOutside.
      apply List.Forall_forall. intros p Hin s c s' Hp.
      rewrite List.Forall_forall in Hps.
      eapply sameOutside_mono; [|eapply (Hps p Hin), Hp].
      rewrite matcherIds_unfold.
      apply list_elem_of_In, predIds_nestedIds in Hin. set_solver. }
    destruct (isLinalgOp ir op).
    + destruct (all_of _ _ st) as [[[|] s1]|e] eqn:E; try discriminate;
        injection Hrun as <- <-.
      * eapply sameOutside_trans; [eapply Hall, E|].
        apply sameOutside_setCaptured. rewrite matcherIds_unfold. set_solver.
      * eapply Hall, E.
    + injection Hrun as <- <-. apply sameOutside_refl.
  - intros p IH op st b st' Hrun.
    destruct p; unfold evalPred in Hrun; simpl in Hrun;
      split_run Hrun;
      first [ injection Hrun as <- <-;
              first [ apply sameOutside_refl
                    | apply sameOutside_setCell
                    | eapply IH; [reflexivity | eassumption]
                    | eapply any_of_sameOutside; [|eassumption];
                      intros ? ? ? ? Hx; simpl;
                      eapply IH; [reflexivity | exact Hx] ]
            | eapply IH; [reflexivity | exact Hrun] ].
Qed.

End FrameFacts.

(** C6. For a matcher that is not nested in itself: when [match] returns
    false, the captured operation of the matcher is the one it held before
    the call; when it returns true, it is the candidate. *)
Theorem match_failure_keeps_captured
        (ir : IR) (fuel : nat) (M : Matcher) (N : Op) (st st' : State)
        (b : bool) :
  mid M ∉ nestedIds M ->
  match_ ir fuel M N st = Ok (b, st') ->
  getCaptured M st' = if b then Some N else getCaptured M st.
Proof.
  intros Hself Hrun. rewrite match_unfold in Hrun. unfold getCaptured.
  assert (Hall : forall s c s',
             all_of (fun p s => evalPred ir fuel p N s) (predicates M) s
             = Ok (c, s') ->
             sameOutside (nestedIds M) s s').
  { apply all_of_sameOutside. apply List.Forall_forall. intros p Hin s c s' Hp.
    eapply sameOutside_mono;
      [|eapply (proj2 (match_evalPred_sameOutside ir fuel)), Hp].
    apply predIds_nestedIds, list_elem_of_In, Hin. }
  destruct (isLinalgOp ir N).
  - destruct (all_of _ _ st) as [[[|] s1]|e] eqn:E; try discriminate;
      injection Hrun as <- <-.
    + unfold setCaptured. simpl. apply lookup_insert_eq.
    + apply (Hall _ _ _ E), Hself.
  - injection Hrun as <- <-. reflexivity.
Qed.

Lemma match_failure_keeps_captured_witness :
  getCaptured rank2Matcher
              (setCaptured 1%nat 0%nat (setCaptured 0%nat 5%nat emptyState))
  = getCaptured rank2Matcher (setCaptured 0%nat 5%nat emptyState).
Proof.
  apply (match_failure_keeps_captured
           (irOf twoInputGraph) 0 rank2Matcher 1%nat
           (setCaptured 0%nat 5%nat emptyState)
           (setCaptured 1%nat 0%nat (setCaptured 0%nat 5%nat emptyState))
           false).
  - vm_compute. set_solver.
  - vm_compute. reflexivity.
Defined.

(** With two matchers that refer to each other, a match that returns false
    changes the captured operation of the matcher: the match of [A] on the
    last operation of the chain runs [B] on the second, which runs [A] on
    the first, where [A] succeeds and captures it; back on the last
    operation, the rank predicate of [A] fails. *)
Lemma match_failure_changes_captured :
  ~ matchFailureKeepsCaptured (irOf chainGraph) 0.
Proof.
  intros H.
  specialize (H (eachOtherA 3) 2%nat emptyState
                (setCaptured 1%nat 1%nat
                   (setCaptured 0%nat 0%nat emptyState))).
  assert (H1 : match_ (irOf chainGraph) 0 (eachOtherA 3) 2%nat emptyState
               = Ok (false, setCaptured 1%nat 1%nat
                              (setCaptured 0%nat 0%nat emptyState)))
    by (vm_compute; reflexivity).
  specialize (H H1). vm_compute in H. discriminate.
Qed.

(** ** Matching twice *)

(** With the shared matcher [Y], the first match of [M] on [N] fails and
    the second succeeds: in the first, [X] runs before [Y] has captured
    [B] and counts two of the three tilable operations, and so does [M],
    for which [X] has captured nothing; in the second, [X] finds the
    operation [Y] captured in the first. *)
Lemma match_twice_differs :
  ~ matchTwiceAlike (irOf sharedGraph) 0.
Proof.
  intros H.
  specialize (H sharedM 2%nat emptyState
                (setCaptured 2%nat 1%nat
                   (setCaptured 3%nat 2%nat emptyState)) false).
  assert (H1 : match_ (irOf sharedGraph) 0 sharedM 2%nat emptyState
               = Ok (false, setCaptured 2%nat 1%nat
                              (setCaptured 3%nat 2%nat emptyState)))
    by (vm_compute; reflexivity).
  specialize (H H1). vm_compute in H. discriminate.
Qed.

Section TwoRuns.
Variable ir : IR.
Variable fuel : nat.

Lemma agreeOrKept_start (s s' : State) : agreeOrKept s s' s s'.
Proof. split; intros; right; split; reflexivity. Qed.

Lemma agreeOrKept_trans (s s' u u' t t' : State) :
  agreeOrKept s s' u u' -> agreeOrKept u u' t t' -> agreeOrKept s s' t t'.
Proof.
  intros [Hc1 Hv1] [Hc2 Hv2]. split.
  - intros i. destruct (Hc2 i) as [H|[H H']]; [now left|].
    rewrite H, H'. apply Hc1.
  - intros c. destruct (Hv2 c) as [H|[H H']]; [now left|].
    rewrite H, H'. apply Hv1.
Qed.

Lemma agreeOrKept_setCell (s s' t t' : State) (c : CellId) (v : Z) :
  agreeOrKept s s' t t' -> agreeOrKept s s' (setCell c v t) (setCell c v t').
Proof.
  intros [Hc Hv]. split; [exact Hc|]. intros d. simpl.
  destruct (decide (c = d)) as [->|Hne].
  - left. now rewrite !lookup_insert_eq.
  - rewrite !lookup_insert_ne by exact Hne. apply Hv.
Qed.

Lemma agreeOrKept_setCaptured (s s' t t' : State) (i : MatcherId) (op : Op) :
  agreeOrKept s s' t t' ->
  agreeOrKept s s' (setCaptured i op t) (setCaptured i op t').
Proof.
  intros [Hc Hv]. split; [|exact Hv]. intros j. simpl.
  destruct (decide (i = j)) as [->|Hne].
  - left. now rewrite !lookup_insert_eq.
  - rewrite !lookup_insert_ne by exact Hne. apply Hc.
Qed.

(** A second run started where the first one ended ends there too. *)
Lemma agreeOrKept_idem (s t t' : State) : agreeOrKept s t t t' -> t' = t.
Proof.
  intros [Hc Hv]. destruct t as [tc tv], t' as [tc' tv']. simpl in *.
  f_equal; apply map_eq; intros i.
  - destruct (Hc i) as [H|[_ H]]; congruence.
  - destruct (Hv i) as [H|[_ H]]; congruence.
Qed.

Lemma similar_pure (s s' : State) (b : bool) :
  similar s s' (Ok (b, s)) (Ok (b, s')).
Proof. split; [reflexivity | apply agreeOrKept_start]. Qed.

Lemma similar_crash (s s' : State) (e : Fault) :
  similar s s' (Crash e) (Crash e).
Proof. reflexivity. Qed.

Lemma similar_setCell (s s' : State) (b : bool) (c : CellId) (v : Z) :
  similar s s' (Ok (b, setCell c v s)) (Ok (b, setCell c v s')).
Proof.
  split; [reflexivity | apply agreeOrKept_setCell, agreeOrKept_start].
Qed.

Lemma similar_trans (s s' u u' : State) (r r' : result (bool * State)) :
  agreeOrKept s s' u u' -> similar u u' r r' -> similar s s' r r'.
Proof.
  intros Hu. destruct r as [[b t]|e], r' as [[b' t']|e']; simpl; try easy.
  intros [-> Ht]. split; [reflexivity|]. eapply agreeOrKept_trans; eassumption.
Qed.

(** What the closures do with the outcome of a nested match. *)
Lemma similar_optional (s s' : State) (optional : bool)
      (r r' : result (bool * State)) :
  similar s s' r r' ->
  similar s s'
          match r with
          | Ok (true, st') => Ok (true, st')
          | Ok (false, st') => Ok (optional, st')
          | Crash e => Crash e
          end
          match r' with
          | Ok (true, st') => Ok (true, st')
          | Ok (false, st') => Ok (optional, st')
          | Crash e => Crash e
          end.
Proof.
  destruct r as [[[|] t]|e], r' as [[[|] t']|e']; simpl; try easy;
    intros [? ?]; try discriminate; now split.
Qed.

Lemma similar_captured (s s' : State) (i : MatcherId) (op : Op)
      (r r' : result (bool * State)) :
  similar s s' r r' ->
  similar s s'
          match r with
          | Ok (true, st') => Ok (true, setCaptured i op st')
          | Ok (false, st') => Ok (false, st')
          | Crash e => Crash e
          end
          match r' with
          | Ok (true, st') => Ok (true, setCaptured i op st')
          | Ok (false, st') => Ok (false, st')
          | Crash e => Crash e
          end.
Proof.
  destruct r as [[[|] t]|e], r' as [[[|] t']|e']; simpl; try easy;
    intros [? ?]; try discriminate; split; try reflexivity; try assumption.
  now apply agreeOrKept_setCaptured.
Qed.

Lemma all_of_similar {A : Type} (f : A -> State -> result (bool * State))
      (xs : list A) :
  Forall (fun x => forall s s', similar s s' (f x s) (f x s')) xs ->
  forall s s', similar s s' (all_of f xs s) (all_of f xs s').
Proof.
  induction 1 as [|x xs Hx _ IH]; intros s s'; simpl.
  - apply similar_pure.
  - specialize (Hx s s').
    destruct (f x s) as [[b t]|e], (f x s') as [[b' t']|e'];
      simpl in Hx; try contradiction.
    + destruct Hx as [<- Ht]. destruct b.
      * eapply similar_trans; [exact Ht | apply IH].
      * now split.
    + exact Hx.
Qed.

Lemma any_of_similar {A : Type} (f : A -> State -> result (bool * State))
      (xs : list A) :
  (forall x s s', similar s s' (f x s) (f x s')) ->
  forall s s', similar s s' (any_of f xs s) (any_of f xs s').
Proof.
  intros Hf. induction xs as [|x xs IH]; intros s s'; simpl.
  - apply similar_pure.
  - pose proof (Hf x s s') as Hx.
    destruct (f x s) as [[b t]|e], (f x s') as [[b' t']|e'];
      simpl in Hx; try contradiction.
    + destruct Hx as [<- Ht]. destruct b.
      * now split.
      * eapply similar_trans; [exact Ht | apply IH].
    + exact Hx.
Qed.

Lemma tilableFree_unfold (m : Matcher) :
  tilableFree m = forallb predTilableFree (predicates m).
Proof. destruct m; reflexivity. Qed.

Ltac split_similar :=
  repeat match goal with
         | |- similar _ _ (rbind ?x _) (rbind ?x _) =>
             destruct x; cbn [rbind]
         | |- similar _ _ (match ?x with _ => _ end)
                      (match ?x with _ => _ end) =>
             destruct x
         end.

(** Without the exhaustiveness predicate, what a match returns does not
    depend on the state it starts in, and neither does what it writes. *)
Lemma match_evalPred_similar :
  (forall m, tilableFree m = true ->
             forall op s s',
               similar s s' (match_ ir fuel m op s) (match_ ir fuel m op s'))
  /\ (forall p, predTilableFree p = true ->
                forall op s s',
                  similar s s' (evalPred ir fuel p op s)
                          (evalPred ir fuel p op s')).
Proof.
  apply matcher_pred_ind.
  - intros m Hps _ Hfree op s s'.
    rewrite !match_unfold. rewrite tilableFree_unfold in Hfree.
    destruct (isLinalgOp ir op); [|apply similar_pure].
    apply similar_captured, all_of_similar.
    rewrite forallb_forall in Hfree.
    rewrite List.Forall_forall in Hps |- *.
    intros p Hin. apply (Hps p Hin), Hfree, Hin.
  - intros p IH Hfree op s s'.
    destruct p; simpl in Hfree; try discriminate;
      unfold evalPred, evalPredWith; cbv zeta; split_similar;
      first [ apply similar_pure
            | apply similar_crash
            | apply similar_setCell
            | apply IH; [reflexivity | exact Hfree]
            | apply similar_optional;
              first [ apply IH; [reflexivity | exact Hfree]
                    | apply any_of_similar; intros ? ? ?;
                      apply IH; [reflexivity | exact Hfree] ] ].
Qed.

End TwoRuns.

Section MatchTwice.
Variable ir : IR.
Variable fuel : nat.

Lemma all_of_app {A S : Type} (f : A -> S -> result (bool * S))
      (xs ys : list A) (s : S) :
  all_of f (xs ++ ys) s
  = match all_of f xs s with
    | Ok (true, s1) => all_of f ys s1
    | Ok (false, s1) => Ok (false, s1)
    | Crash e => Crash e
    end.
Proof.
  revert s. induction xs as [|x xs IH]; intros s; simpl.
  - reflexivity.
  - destruct (f x s) as [[[|] s1]|e]; [apply IH | reflexivity | reflexivity].
Qed.

Lemma capturedNodes_ext (u u' : State) (copy : list MatcherId) :
  (forall i, i ∈ copy -> captured u' !! i = captured u !! i) ->
  capturedNodes u' copy = capturedNodes u copy.
Proof.
  unfold capturedNodes. intros H. f_equal.
  induction copy as [|i copy IH]; [reflexivity|].
  cbn [omap list_omap].
  rewrite (H i) by set_solver.
  destruct (captured u !! i); [f_equal|];
    apply IH; intros j Hj; apply H; set_solver.
Qed.

Lemma checkAllTilableMatched_ext (parent : option Op) (op : Op)
      (copy : list MatcherId) (u u' : State) :
  (forall i, i ∈ copy -> captured u' !! i = captured u !! i) ->
  checkAllTilableMatched ir parent op copy u'
  = checkAllTilableMatched ir parent op copy u.
Proof.
  intros H. unfold checkAllTilableMatched.
  destruct parent as [p|]; [|reflexivity].
  now rewrite !matched_fold, (capturedNodes_ext u u' copy H).
Qed.

(** A function whose outcome does not depend on the state it starts in
    repeats itself when run where it ended. *)
Lemma similar_idem (f : State -> result (bool * State)) (s t : State)
      (b : bool) :
  (forall s s', similar s s' (f s) (f s')) ->
  f s = Ok (b, t) -> f t = Ok (b, t).
Proof.
  intros Hf Hrun. specialize (Hf s t). rewrite Hrun in Hf.
  destruct (f t) as [[b' t']|e]; simpl in Hf; [|contradiction].
  destruct Hf as [<- Ht]. now rewrite (agreeOrKept_idem _ _ _ Ht).
Qed.

Lemma predicates_similar (ps : list Pred) (op : Op) :
  forallb predTilableFree ps = true ->
  forall s s',
    similar s s' (all_of (fun p s => evalPred ir fuel p op s) ps s)
            (all_of (fun p s => evalPred ir fuel p op s) ps s').
Proof.
  intros Hfree. apply all_of_similar. apply List.Forall_forall.
  intros p Hin. rewrite forallb_forall in Hfree.
  apply (proj2 (match_evalPred_similar ir fuel)), Hfree, Hin.
Qed.

Lemma match_twice_free (M : Matcher) (N : Op) (st st1 : State) (b : bool) :
  forallb predTilableFree (predicates M) = true ->
  match_ ir fuel M N st = Ok (b, st1) ->
  match_ ir fuel M N st1 = Ok (b, st1).
Proof.
  intros Hfree. apply (similar_idem (match_ ir fuel M N)).
  intros s s'. apply (proj1 (match_evalPred_similar ir fuel)).
  now rewrite tilableFree_unfold.
Qed.

Lemma match_twice_last (M : Matcher) (N : Op) (st st1 : State) (b : bool)
      (ps : list Pred) (scope : OpKind) (copy : list MatcherId) :
  predicates M = ps ++ [PAllTilable scope copy] ->
  forallb predTilableFree ps = true ->
  mid M ∉ copy ->
  match_ ir fuel M N st = Ok (b, st1) ->
  match_ ir fuel M N st1 = Ok (b, st1).
Proof.
  intros Hps Hfree Hself Hrun.
  rewrite match_unfold in Hrun |- *.
  destruct (isLinalgOp ir N); [|now injection Hrun as <- <-].
  rewrite Hps, all_of_app in Hrun |- *.
  pose proof (predicates_similar ps N Hfree st st1) as Hsim.
  destruct (all_of _ ps st) as [[[|] u]|e]; try discriminate.
  - (* the predicates before the last one succeed *)
    destruct (all_of _ ps st1) as [[b' u']|e']; simpl in Hsim;
      [|contradiction].
    destruct Hsim as [<- Hu].
    unfold all_of, evalPred, evalPredWith in Hrun |- *.
    destruct (checkAllTilableMatched ir _ N copy u) eqn:Echeck;
      injection Hrun as <- <-.
    + (* and so does the last one *)
      assert (Hcopy : forall i, i ∈ copy ->
                                captured u' !! i = captured u !! i).
      { intros i Hi. destruct Hu as [Hc _].
        destruct (Hc i) as [H|[_ H]]; [now symmetry|].
        rewrite H. simpl. apply lookup_insert_ne. set_solver. }
      rewrite (checkAllTilableMatched_ext _ _ _ _ _ Hcopy), Echeck.
      do 2 f_equal.
      destruct u as [uc uv], u' as [uc' uv']. unfold setCaptured. simpl in *.
      destruct Hu as [Hc Hv]. simpl in *. f_equal; apply map_eq; intros i.
      * destruct (decide (mid M = i)) as [<-|Hne].
        { now rewrite !lookup_insert_eq. }
        rewrite !lookup_insert_ne by exact Hne.
        destruct (Hc i) as [H|[_ H]]; [now symmetry|].
        rewrite H. now apply lookup_insert_ne.
      * destruct (Hv i) as [H|[_ H]]; [now symmetry | exact H].
    + rewrite (agreeOrKept_idem _ _ _ Hu). now rewrite Echeck.
  - (* one of them fails *)
    injection Hrun as <- <-.
    destruct (all_of _ ps u) as [[b' u']|e']; simpl in Hsim; [|contradiction].
    destruct Hsim as [<- Hu]. now rewrite (agreeOrKept_idem _ _ _ Hu).
Qed.

(** C7. When the exhaustiveness predicate occurs in no nested matcher and
    in the matcher itself at most as the last predicate, not reading the
    matcher's own captured operation, a second [match] on the same
    candidate, started in the state the first one left, returns the same
    boolean and leaves the captured operations and the capture cells as the
    first one left them. *)
Theorem match_twice_alike
        (M : Matcher) (N : Op) (st st1 : State) (b : bool) :
  tilableOnlyLast M = true ->
  match_ ir fuel M N st = Ok (b, st1) ->
  match_ ir fuel M N st1 = Ok (b, st1).
Proof.
  unfold tilableOnlyLast. intros Hlast.
  destruct (last (predicates M)) as [p|] eqn:Elast;
    [|now apply match_twice_free].
  destruct p; try (now apply match_twice_free).
  apply andb_true_iff in Hlast as [Hfree Hself].
  apply bool_decide_eq_true in Hself.
  apply last_Some in Elast as [ps Hps].
  rewrite Hps, removelast_last in Hfree.
  now apply (match_twice_last M N st st1 b ps scope copy).
Qed.

End MatchTwice.

Lemma match_twice_alike_witness :
  match_ (irOf rank3Graph) 0 anchorMatcher 0%nat
         (setCaptured 0%nat 0%nat (setCell 0%nat 3 emptyState))
  = Ok (true, setCaptured 0%nat 0%nat (setCell 0%nat 3 emptyState)).
Proof.
  apply (match_twice_alike (irOf rank3Graph) 0 anchorMatcher 0%nat
                           emptyState).
  - vm_compute. reflexivity.
  - vm_compute. reflexivity.
Defined.

(** * More of the library *)

(** ** Groups of a carrier *)

Section CarrierGroups.
Import MatchCallbackResult.

Lemma slice_app_r {A : Type} (v w : list A) (n m : Z) :
  0 <= n ->
  slice (v ++ w) (Z.of_nat (length v) + n) m = slice w n m.
Proof.
  intros Hn. unfold slice. rewrite length_app.
  replace (0 <=? Z.of_nat (length v) + n) with true
    by (symmetry; apply Z.leb_le; lia).
  replace (0 <=? n) with true by (symmetry; apply Z.leb_le; lia).
  replace (Z.of_nat (length v) + n + m <=? Z.of_nat (length v + length w))
    with (n + m <=? Z.of_nat (length w)).
  2:{ destruct (n + m <=? Z.of_nat (length w)) eqn:E; symmetry.
      - apply Z.leb_le in E. apply Z.leb_le. lia.
      - apply Z.leb_gt in E. apply Z.leb_gt. lia. }
  destruct ((true && (0 <=? m)) && (n + m <=? Z.of_nat (length w)));
    [|reflexivity].
  f_equal. f_equal.
  replace (Z.to_nat (Z.of_nat (length v) + n))
    with (Z.to_nat n + length v)%nat by lia.
  rewrite <- (skipn_skipn (Z.to_nat n) (length v)).
  now rewrite skipn_app, Nat.sub_diag, skipn_all.
Qed.

Lemma slice_head {A : Type} (v w : list A) :
  slice (v ++ w) 0 (Z.of_nat (length v)) = Ok v.
Proof.
  unfold slice. rewrite length_app.
  replace (0 <=? Z.of_nat (length v)) with true
    by (symmetry; apply Z.leb_le; lia).
  replace (0 + Z.of_nat (length v) <=? Z.of_nat (length v + length w))
    with true by (symmetry; apply Z.leb_le; lia).
  cbn [andb]. f_equal. rewrite Nat2Z.id.
  change (Z.to_nat 0) with 0%nat. rewrite skipn_O.
  rewrite firstn_app, Nat.sub_diag, firstn_all. simpl. apply app_nil_r.
Qed.

(** The groups of the carrier made of the given groups. *)
Lemma getPayloadGroup_concat (groups : list (list Op)) (position : nat) :
  getPayloadGroup
    (mk (concat groups) (List.map (fun g => Z.of_nat (length g)) groups))
    position
  = groupAt groups position.
Proof.
  unfold getPayloadGroup, groupAt. simpl.
  rewrite nth_error_map.
  revert position.
  induction groups as [|g rest IH]; intros [|p]; simpl; try reflexivity.
  - apply slice_head.
  - specialize (IH p).
    destruct (nth_error rest p) as [g'|]; simpl in *; [|reflexivity].
    rewrite sum_prefix_firstn in *.
    rewrite <- IH.
    replace (0 + Z.of_nat (length g)
             + fold_right Z.add 0
                 (firstn p (List.map (fun g0 => Z.of_nat (length g0)) rest)))
      with (Z.of_nat (length g)
            + (0 + fold_right Z.add 0
                     (firstn p (List.map (fun g0 => Z.of_nat (length g0))
                                         rest)))) by lia.
    apply slice_app_r.
    assert (Forall (fun l => 0 <= l)
                   (firstn p (List.map (fun g0 => Z.of_nat (length g0)) rest))).
    { apply Forall_take, Forall_forall. intros x Hx.
      apply list_elem_of_In, in_map_iff in Hx as (g0 & <- & _). lia. }
    pose proof (sum_nonneg _ H). lia.
Qed.

Lemma addPayloadGroups_from (groups : list (list Op)) (r : t) :
  addPayloadGroups groups r
  = Ok (mk (payloadOperations r ++ concat groups)
           (payloadGroupLengths r
              ++ List.map (fun g => Z.of_nat (length g)) groups)).
Proof.
  revert r. induction groups as [|g rest IH]; intros r; simpl.
  - rewrite !app_nil_r. now destruct r.
  - rewrite addPayloadGroup_ok. cbn [rbind snd]. rewrite IH. simpl.
    now rewrite <- !app_assoc.
Qed.

(** X1. A carrier filled from empty with a list of groups of non-null
    operations, one [addPayloadGroup] per group, has as many groups as the
    list, and [getPayloadGroup] returns the group of each position of the
    list and fails its assertion on every other position. *)
Theorem addPayloadGroups_round_trip (groups : list (list Op)) :
  exists r,
    addPayloadGroups groups empty = Ok r
    /\ wf r
    /\ getNumPayloadGroups r = length groups
    /\ forall position, getPayloadGroup r position = groupAt groups position.
Proof.
  eexists. split; [apply addPayloadGroups_from|]. simpl.
  split; [|split].
  - split; simpl.
    + apply Forall_forall. intros x Hx. apply list_elem_of_In in Hx.
      apply in_map_iff in Hx as (g & <- & _). lia.
    + induction groups as [|g rest IH]; simpl; [reflexivity|].
      rewrite length_app, IH. lia.
  - unfold getNumPayloadGroups. simpl. apply length_map.
  - intros position. apply getPayloadGroup_concat.
Qed.

Lemma addPayloadGroup_null (operations : list (option Op)) (r : t) :
  None ∈ operations ->
  addPayloadGroup operations r = Crash AssertionFailure.
Proof.
  intros Hin. unfold addPayloadGroup.
  replace (forallb _ operations) with false; [reflexivity|].
  symmetry. apply not_true_is_false. intros Hall.
  rewrite forallb_forall in Hall.
  apply list_elem_of_In in Hin. now apply Hall in Hin.
Qed.

Lemma pointees_all (operations : list (option Op)) :
  None ∉ operations -> operations = List.map Some (pointees operations).
Proof.
  induction operations as [|[o|] rest IH]; intros Hnone; simpl.
  - reflexivity.
  - f_equal. apply IH. set_solver.
  - set_solver.
Qed.

(** X2. On a carrier with k groups, [addPayloadGroup] fails its assertion
    when the range holds a null operation; otherwise it returns the index
    k and a carrier with k+1 groups in which group k is the range and the
    groups below k are what they were. *)
Theorem addPayloadGroup_appends (operations : list (option Op)) (r : t) :
  wf r ->
  (None ∈ operations
   /\ addPayloadGroup operations r = Crash AssertionFailure)
  \/ ((None ∉ operations)
      /\ exists r',
          addPayloadGroup operations r = Ok (getNumPayloadGroups r, r')
          /\ wf r'
          /\ getNumPayloadGroups r' = S (getNumPayloadGroups r)
          /\ (forall i, (i < getNumPayloadGroups r)%nat ->
                        getPayloadGroup r' i = getPayloadGroup r i)
          /\ List.map Some (pointees operations) = operations
          /\ getPayloadGroup r' (getNumPayloadGroups r)
             = Ok (pointees operations)).
Proof.
  intros Hwf.
  destruct (decide (None ∈ operations)) as [Hin|Hnone].
  - left. split; [exact Hin | now apply addPayloadGroup_null].
  - right. split; [exact Hnone|].
    pose proof (pointees_all operations Hnone) as Hops.
    eexists. split; [rewrite Hops at 1; apply addPayloadGroup_ok|].
    split; [now apply wf_add|].
    split.
    { unfold getNumPayloadGroups. simpl. rewrite length_app. simpl. lia. }
    split.
    { intros i Hi. now apply getPayloadGroup_old. }
    split; [now symmetry|].
    now apply getPayloadGroup_new.
Qed.

Lemma groupsOf_wf (lengths : list Z) (operations : list Op) :
  Forall (fun l => 0 <= l) lengths ->
  fold_right Z.add 0 lengths = Z.of_nat (length operations) ->
  concat (groupsOf operations lengths) = operations
  /\ List.map (fun g => Z.of_nat (length g)) (groupsOf operations lengths)
     = lengths.
Proof.
  intros Hnn. revert operations.
  induction Hnn as [|l rest Hl Hrest IH]; intros operations Hsum; simpl in *.
  - split; [|reflexivity]. destruct operations; [reflexivity|]. simpl in Hsum. lia.
  - pose proof (sum_nonneg _ Hrest) as Hs.
    destruct (IH (skipn (Z.to_nat l) operations)) as [Hc Hm].
    { rewrite length_skipn. lia. }
    rewrite Hc, Hm. split; [apply firstn_skipn|].
    f_equal. rewrite length_firstn. lia.
Qed.

(** X3. In a carrier whose lengths partition the flat list, the groups are
    the consecutive segments of the flat list: their concatenation is the
    flat list, [getPayloadGroup] returns the segment of every position
    below the number of groups and fails its assertion on every other. *)
Theorem getPayloadGroup_segments (r : t) :
  wf r ->
  concat (groupsOf (payloadOperations r) (payloadGroupLengths r))
  = payloadOperations r
  /\ length (groupsOf (payloadOperations r) (payloadGroupLengths r))
     = getNumPayloadGroups r
  /\ forall position,
      getPayloadGroup r position
      = groupAt (groupsOf (payloadOperations r) (payloadGroupLengths r))
                position.
Proof.
  intros [Hnn Hsum].
  destruct (groupsOf_wf _ _ Hnn Hsum) as [Hc Hm].
  split; [exact Hc|]. split.
  - unfold getNumPayloadGroups. rewrite <- Hm at 2. now rewrite length_map.
  - intros position. rewrite <- getPayloadGroup_concat.
    rewrite Hc, Hm. now destruct r.
Qed.

End CarrierGroups.

Lemma addPayloadGroup_appends_witness :
  (None ∈ [Some 7%nat; Some 8%nat]
   /\ MatchCallbackResult.addPayloadGroup
        [Some 7%nat; Some 8%nat] oneGroupCarrier
      = Crash AssertionFailure)
  \/ ((None ∉ [Some 7%nat; Some 8%nat])
      /\ exists r',
          MatchCallbackResult.addPayloadGroup
            [Some 7%nat; Some 8%nat] oneGroupCarrier
          = Ok (MatchCallbackResult.getNumPayloadGroups oneGroupCarrier, r')
          /\ MatchCallbackResult.wf r'
          /\ MatchCallbackResult.getNumPayloadGroups r'
             = S (MatchCallbackResult.getNumPayloadGroups oneGroupCarrier)
          /\ (forall i,
                (i < MatchCallbackResult.getNumPayloadGroups
                       oneGroupCarrier)%nat ->
                MatchCallbackResult.getPayloadGroup r' i
                = MatchCallbackResult.getPayloadGroup oneGroupCarrier i)
          /\ List.map Some
                      (MatchCallbackResult.pointees [Some 7%nat; Some 8%nat])
             = [Some 7%nat; Some 8%nat]
          /\ MatchCallbackResult.getPayloadGroup
               r' (MatchCallbackResult.getNumPayloadGroups oneGroupCarrier)
             = Ok (MatchCallbackResult.pointees [Some 7%nat; Some 8%nat])).
Proof.
  apply (addPayloadGroup_appends [Some 7%nat; Some 8%nat] oneGroupCarrier).
  split; simpl; [repeat constructor; lia | reflexivity].
Defined.

Lemma getPayloadGroup_segments_witness :
  concat (groupsOf (MatchCallbackResult.payloadOperations threeGroupCarrier)
                   (MatchCallbackResult.payloadGroupLengths threeGroupCarrier))
  = MatchCallbackResult.payloadOperations threeGroupCarrier
  /\ length (groupsOf
               (MatchCallbackResult.payloadOperations threeGroupCarrier)
               (MatchCallbackResult.payloadGroupLengths threeGroupCarrier))
     = MatchCallbackResult.getNumPayloadGroups threeGroupCarrier
  /\ forall position,
      MatchCallbackResult.getPayloadGroup threeGroupCarrier position
      = groupAt (groupsOf
                   (MatchCallbackResult.payloadOperations threeGroupCarrier)
                   (MatchCallbackResult.payloadGroupLengths threeGroupCarrier))
                position.
Proof.
  apply (getPayloadGroup_segments threeGroupCarrier).
  split; simpl; [repeat constructor; lia | reflexivity].
Defined.

(** ** The registry of callbacks *)

Section RegistryFacts.
Import MatchCallbacksRegistry.
Context {Fn : Type}.

Lemma registerAll_cases (entries : list (string * Fn)) (callbacks : t Fn) :
  (NoDup entries.*1
   /\ Forall (fun name => callbacks !! name = None) entries.*1
   /\ exists callbacks',
       registerAll entries callbacks = Ok callbacks'
       /\ forall name fn,
           callbacks' !! name = Some fn
           <-> ((name, fn) ∈ entries \/ callbacks !! name = Some fn))
  \/ (~ (NoDup entries.*1
         /\ Forall (fun name => callbacks !! name = None) entries.*1)
      /\ registerAll entries callbacks = Crash AssertionFailure).
Proof.
  revert callbacks.
  induction entries as [|[name fn] rest IH]; intros callbacks; simpl.
  - left. split; [constructor|]. split; [constructor|].
    exists callbacks. split; [reflexivity|]. intros name fn. set_solver.
  - unfold registerCallback.
    destruct (callbacks !! name) as [old|] eqn:Eold; cbn [rbind].
    + right. split; [|reflexivity].
      intros [_ Hfresh]. inversion Hfresh; congruence.
    + destruct (IH (<[name := fn]> callbacks))
        as [(Hnd & Hfresh & callbacks' & Hrun & Hspec) | [Hnot Hrun]].
      * left.
        assert (Hname : name ∉ rest.*1).
        { intros Hin. rewrite Forall_forall in Hfresh.
          specialize (Hfresh name Hin). now rewrite lookup_insert_eq in Hfresh. }
        split; [now constructor|]. split.
        { constructor; [exact Eold|].
          rewrite Forall_forall in Hfresh |- *. intros n Hn.
          specialize (Hfresh n Hn).
          rewrite lookup_insert_ne in Hfresh by set_solver. exact Hfresh. }
        exists callbacks'. split; [exact Hrun|].
        intros n f. rewrite Hspec.
        destruct (decide (name = n)) as [<-|Hne].
        -- rewrite lookup_insert_eq, Eold. split.
           ++ intros [Hin|[= <-]]; left; set_solver.
           ++ intros [Hin|Habs]; [|discriminate].
              apply elem_of_cons in Hin as [[= <-]|Hin]; [now right|now left].
        -- rewrite lookup_insert_ne by exact Hne. split.
           ++ intros [Hin|Hold]; [left; set_solver | now right].
           ++ intros [Hin|Hold]; [|now right].
              apply elem_of_cons in Hin as [[= ? ?]|Hin]; [congruence|now left].
      * right. split; [|exact Hrun].
        intros [Hnd Hfresh]. apply Hnot.
        apply NoDup_cons in Hnd as [Hname Hnd].
        split; [exact Hnd|].
        inversion Hfresh as [|? ? _ Hrest]; subst.
        rewrite Forall_forall in Hrest |- *. intros n Hn.
        rewrite lookup_insert_ne by set_solver. now apply Hrest.
Qed.

(** X4. Registering a list of named callbacks in an empty registry
    succeeds exactly when no name is repeated, and fails the assertion of
    [registerCallback] otherwise; when it succeeds, [get] returns a
    callback for a name exactly when the pair is in the list, and null for
    every name that is not. *)
Theorem registerAll_get (entries : list (string * Fn)) :
  (NoDup entries.*1
   /\ exists callbacks,
       registerAll entries empty = Ok callbacks
       /\ (forall name fn,
              get name callbacks = Some fn <-> (name, fn) ∈ entries)
       /\ (forall name,
              get name callbacks = None <-> name ∉ entries.*1))
  \/ (~ NoDup entries.*1
      /\ registerAll entries empty = Crash AssertionFailure).
Proof.
  destruct (registerAll_cases entries empty)
    as [(Hnd & _ & callbacks & Hrun & Hspec) | [Hnot Hrun]].
  - left. split; [exact Hnd|]. exists callbacks. split; [exact Hrun|].
    assert (Hget : forall name fn,
               get name callbacks = Some fn <-> (name, fn) ∈ entries).
    { intros name fn. unfold get. rewrite Hspec. unfold empty.
      rewrite lookup_empty. split; [intros [H|H]; [exact H|discriminate]|].
      now left. }
    split; [exact Hget|].
    intros name. split.
    + intros Hnone Hin. apply list_elem_of_fmap in Hin as ([n fn] & -> & Hin).
      apply Hget in Hin. simpl in *. congruence.
    + intros Hnotin. destruct (get name callbacks) as [fn|] eqn:E;
        [|reflexivity].
      apply Hget in E. exfalso. apply Hnotin.
      apply list_elem_of_fmap. now exists (name, fn).
  - right. split; [|exact Hrun].
    intros Hnd. apply Hnot. split; [exact Hnd|].
    apply Forall_forall. intros name _. apply lookup_empty.
Qed.

End RegistryFacts.

(** ** Dimension predicates, in and out of range *)

Section DimensionSpecs.
Variable ir : IR.
Variable fuel : nat.

Lemma resolvesTo_transformed (rank : nat) (dimension : Z) (i : nat) :
  resolvesTo rank dimension i
  <-> (0 <= transformed (Z.of_nat rank) dimension < Z.of_nat rank
       /\ i = Z.to_nat (transformed (Z.of_nat rank) dimension)).
Proof.
  unfold resolvesTo, transformed.
  destruct (0 <=? dimension) eqn:E;
    [apply Z.leb_le in E | apply Z.leb_gt in E]; lia.
Qed.

Lemma nth_error_lookup {A : Type} (v : list A) (n : nat) :
  nth_error v n = v !! n.
Proof.
  revert n. induction v as [|a v IH]; intros [|n]; simpl; auto.
Qed.

Lemma index_nth_error {A : Type} (v : list A) (i : Z) :
  0 <= i < Z.of_nat (length v) ->
  Z.of_nat (length v) < 2 ^ 63 ->
  exists a, index v i = Ok a /\ v !! Z.to_nat i = Some a.
Proof.
  intros Hi Hlen.
  destruct (index_in_range v i Hi) as (a & Hidx & Hnth); [lia|].
  exists a. split; [exact Hidx|]. now rewrite <- nth_error_lookup.
Qed.

(** X5. When the iterator types are as many as the loops, the predicate of
    [dim(dimensions, kind)] for an iterator type reads nothing out of
    range: it returns a boolean, which is true exactly when every listed
    index, counted from the end when negative, designates a dimension of
    the operation and that dimension has the iterator type. *)
Theorem dim_list_IteratorType_exact
        (op : Op) (kind : IteratorType) (dimensions : list Z) (st : State) :
  length (getIteratorTypesArray ir op) = getNumLoops ir op ->
  Z.of_nat (getNumLoops ir op) < 2 ^ 63 ->
  exists b,
    evalPred ir fuel (PDimsIter dimensions kind) op st = Ok (b, st)
    /\ (b = true <->
        Forall (fun d => exists i,
                    resolvesTo (getNumLoops ir op) d i
                    /\ getIteratorTypesArray ir op !! i = Some kind)
               dimensions).
Proof.
  intros Hlen Hrank. unfold evalPred, evalPredWith.
  assert (H : exists b,
             dimsIter ir op kind dimensions = Ok b
             /\ (b = true <->
                 Forall (fun d => exists i,
                             resolvesTo (getNumLoops ir op) d i
                             /\ getIteratorTypesArray ir op !! i = Some kind)
                        dimensions)).
  { induction dimensions as [|d rest IH]; simpl.
    - exists true. split; [reflexivity|]. split; [constructor|reflexivity].
    - set (t := transformed (Z.of_nat (getNumLoops ir op)) d).
      destruct ((t <? 0) || (Z.of_nat (getNumLoops ir op) <=? t)) eqn:Eout.
      + exists false. split; [reflexivity|]. split; [discriminate|].
        intros Hall. inversion Hall as [|? ? (i & Hres & _) _]; subst.
        apply resolvesTo_transformed in Hres as [Hres _]. fold t in Hres.
        apply orb_true_iff in Eout as [E|E];
          [apply Z.ltb_lt in E | apply Z.leb_le in E]; lia.
      + apply orb_false_iff in Eout as [E1 E2].
        apply Z.ltb_ge in E1. apply Z.leb_gt in E2.
        destruct (index_nth_error (getIteratorTypesArray ir op) t)
          as (a & -> & Hnth); [lia | lia |]. cbn [rbind].
        destruct (bool_decide (a = kind)) eqn:Ea.
        * apply bool_decide_eq_true in Ea. subst a.
          destruct IH as (b & -> & Hb). exists b. split; [reflexivity|].
          rewrite Hb. split.
          -- intros Hrest. constructor; [|exact Hrest].
             exists (Z.to_nat t). split; [|exact Hnth].
             apply resolvesTo_transformed. fold t. lia.
          -- intros Hall. now inversion Hall.
        * apply bool_decide_eq_false in Ea.
          exists false. split; [reflexivity|]. split; [discriminate|].
          intros Hall. inversion Hall as [|? ? (i & Hres & Hi) _]; subst.
          apply resolvesTo_transformed in Hres as [_ ->]. fold t in Hi.
          congruence. }
  destruct H as (b & -> & Hb). exists b. split; [reflexivity | exact Hb].
Qed.

Lemma transformed_size_t_eq (n : nat) (dimension : Z) :
  - 2 ^ 63 <= dimension < 2 ^ 63 ->
  Z.of_nat n < 2 ^ 63 ->
  transformed_size_t (Z.of_nat n) dimension
  = transformed (Z.of_nat n) dimension.
Proof.
  intros Hd Hn. unfold transformed_size_t, transformed, to_int64, two64.
  destruct (0 <=? dimension) eqn:E; [reflexivity|]. apply Z.leb_gt in E.
  set (x := Z.of_nat n + dimension).
  destruct (Z_lt_le_dec x 0) as [Hneg|Hpos].
  - assert (Hm : x mod 2 ^ 64 = x + 2 ^ 64).
    { symmetry. apply (Z.mod_unique x (2 ^ 64) (-1)); lia. }
    rewrite Hm.
    destruct (x + 2 ^ 64 <? 2 ^ 63) eqn:E2; [apply Z.ltb_lt in E2|]; lia.
  - rewrite Z.mod_small by lia.
    destruct (x <? 2 ^ 63) eqn:E2; [reflexivity|]. apply Z.ltb_ge in E2. lia.
Qed.

(** X6. The predicate of [dim(dimensions, kind)] for a shape kind, with
    indices that fit [int64_t], reads nothing out of range: it returns a
    boolean, which is true exactly when every listed index designates a
    dimension of the operation and the loop range of that dimension is
    dynamic for [Dynamic] and static for [Static]. *)
Theorem dim_list_ShapeKind_exact
        (op : Op) (kind : ShapeKind) (dimensions : list Z) (st : State) :
  Forall (fun d => - 2 ^ 63 <= d < 2 ^ 63) dimensions ->
  Z.of_nat (length (getStaticLoopRanges ir op)) < 2 ^ 63 ->
  exists b,
    evalPred ir fuel (PDimsShape dimensions kind) op st = Ok (b, st)
    /\ (b = true <->
        Forall (fun d => exists i size,
                    resolvesTo (length (getStaticLoopRanges ir op)) d i
                    /\ getStaticLoopRanges ir op !! i = Some size
                    /\ hasShapeKind ir kind size)
               dimensions).
Proof.
  intros Hfit Hlen. unfold evalPred, evalPredWith.
  set (shape := getStaticLoopRanges ir op) in *.
  assert (H : exists b,
             dimsShape ir shape kind dimensions = Ok b
             /\ (b = true <->
                 Forall (fun d => exists i size,
                             resolvesTo (length shape) d i
                             /\ shape !! i = Some size
                             /\ hasShapeKind ir kind size)
                        dimensions)).
  { induction Hfit as [|d rest Hd _ IH]; simpl.
    - exists true. split; [reflexivity|]. split; [constructor|reflexivity].
    - rewrite (transformed_size_t_eq _ _ Hd Hlen).
      set (t := transformed (Z.of_nat (length shape)) d).
      assert (Ht : - 2 ^ 63 <= t < 2 ^ 64).
      { unfold t, transformed. destruct (0 <=? d); lia. }
      destruct (t <? 0) eqn:E1; cbn [orb].
      + apply Z.ltb_lt in E1.
        exists false. split; [reflexivity|]. split; [discriminate|].
        intros Hall. inversion Hall as [|? ? (i & size & Hres & _) _]; subst.
        apply resolvesTo_transformed in Hres as [Hres _]. fold t in Hres. lia.
      + apply Z.ltb_ge in E1. unfold to_size_t, two64.
        rewrite Z.mod_small by lia.
        destruct (Z.of_nat (length shape) <=? t) eqn:E2.
        * apply Z.leb_le in E2.
          exists false. split; [reflexivity|]. split; [discriminate|].
          intros Hall. inversion Hall as [|? ? (i & size & Hres & _) _]; subst.
          apply resolvesTo_transformed in Hres as [Hres _]. fold t in Hres. lia.
        * apply Z.leb_gt in E2.
          destruct (index_nth_error shape t) as (size & -> & Hnth);
            [lia | lia |]. cbn [rbind].
          destruct (xorb (isDynamic ir size) (bool_decide (kind = Static)))
            eqn:Ex.
          -- assert (Hkind : hasShapeKind ir kind size).
             { unfold hasShapeKind.
               destruct (isDynamic ir size), kind; simpl in Ex;
                 try discriminate; split; congruence. }
             destruct IH as (b & -> & Hb). exists b. split; [reflexivity|].
             rewrite Hb. split.
             ++ intros Hrest. constructor; [|exact Hrest].
                exists (Z.to_nat t), size. split; [|split; assumption].
                apply resolvesTo_transformed. fold t. lia.
             ++ intros Hall. now inversion Hall.
          -- exists false. split; [reflexivity|]. split; [discriminate|].
             intros Hall.
             inversion Hall as [|? ? (i & size' & Hres & Hi & Hkind) _]; subst.
             apply resolvesTo_transformed in Hres as [_ ->]. fold t in Hi.
             rewrite Hnth in Hi. injection Hi as <-.
             unfold hasShapeKind in Hkind.
             destruct (isDynamic ir size), kind; simpl in Ex;
               try discriminate; destruct Hkind as [H1 H2];
               try (specialize (H1 eq_refl); discriminate);
               try (specialize (H2 eq_refl); discriminate). }
  destruct H as (b & -> & Hb). exists b. split; [reflexivity | exact Hb].
Qed.

Lemma excludedDimsOf_elem (rank : Z) (excluded : list Z) (x : Z) :
  x ∈ excludedDimsOf rank excluded
  <-> exists d, d ∈ excluded /\ transformed rank d = x.
Proof.
  unfold excludedDimsOf.
  assert (H : forall acc : gset Z,
             x ∈ foldl (fun s dim => {[ transformed rank dim ]} ∪ s)
                       acc excluded
             <-> x ∈ acc
                 \/ exists d, d ∈ excluded /\ transformed rank d = x).
  { induction excluded as [|d rest IH]; intros acc; simpl.
    - split; [now left|]. intros [H|(d & Hd & _)]; [exact H|inversion Hd].
    - rewrite IH. rewrite elem_of_union, elem_of_singleton. split.
      + intros [[->|H]|(d' & Hd' & Hx)]; [right|now left|right].
        * exists d. split; [left|reflexivity].
        * exists d'. split; [now right|exact Hx].
      + intros [H|(d' & Hd' & Hx)]; [left; now right|].
        apply elem_of_cons in Hd' as [->|Hd']; [left; left; now symmetry|].
        right. now exists d'. }
  rewrite H. split; [intros [Habs|Hd]; [set_solver|exact Hd] | now right].
Qed.

Lemma allDimsExcept_iff (excludedDims : gset Z) (kind : IteratorType)
      (start : Z) (types : list IteratorType) :
  allDimsExcept excludedDims kind start types = true
  <-> forall (i : nat) type,
      types !! i = Some type ->
      start + Z.of_nat i ∈ excludedDims \/ type = kind.
Proof.
  revert start. induction types as [|t rest IH]; intros start; simpl.
  - split; [|reflexivity]. intros _ i type Hi. inversion Hi.
  - assert (Hrest : (forall (i : nat) type,
                        rest !! i = Some type ->
                        start + 1 + Z.of_nat i ∈ excludedDims \/ type = kind)
                    <-> (forall (i : nat) type,
                            (t :: rest) !! S i = Some type ->
                            start + Z.of_nat (S i) ∈ excludedDims
                            \/ type = kind)).
    { split; intros H i type Hi; specialize (H i type Hi);
        replace (start + Z.of_nat (S i)) with (start + 1 + Z.of_nat i) in *
        by lia; exact H. }
    destruct (bool_decide (start ∈ excludedDims)) eqn:Ein.
    + apply bool_decide_eq_true in Ein. rewrite IH, Hrest. split.
      * intros H [|i] type Hi; [|now apply H].
        left. now replace (start + Z.of_nat 0) with start by lia.
      * intros H i type Hi. now apply H.
    + apply bool_decide_eq_false in Ein.
      destruct (bool_decide (t = kind)) eqn:Et.
      * apply bool_decide_eq_true in Et. rewrite IH, Hrest. split.
        -- intros H [|i] type Hi; [|now apply H].
           right. simpl in Hi. congruence.
        -- intros H i type Hi. now apply H.
      * apply bool_decide_eq_false in Et. split; [discriminate|].
        intros H. destruct (H 0%nat t eq_refl) as [Hin|Heq];
          [|contradiction].
        now replace (start + Z.of_nat 0) with start in Hin by lia.
Qed.

(** X7. The predicate of [dim(AllDimsExcept(excluded), kind)] leaves the
    state as it is and succeeds exactly when every dimension of the
    operation has the iterator type or is designated by an excluded index,
    counted from the end when negative; an excluded index that designates
    no dimension excludes nothing and is no error. *)
Theorem dim_AllDimsExcept_exact
        (op : Op) (kind : IteratorType) (excluded : list Z) (st : State) :
  exists b,
    evalPred ir fuel (PAllDimsExceptIter excluded kind) op st = Ok (b, st)
    /\ (b = true <->
        forall (i : nat) type,
          getIteratorTypesArray ir op !! i = Some type ->
          type = kind
          \/ exists d, d ∈ excluded
                       /\ transformed (Z.of_nat (getNumLoops ir op)) d
                          = Z.of_nat i).
Proof.
  eexists. split; [reflexivity|].
  rewrite allDimsExcept_iff. split; intros H i type Hi.
  - destruct (H i type Hi) as [Hin|Heq]; [right|now left].
    apply excludedDimsOf_elem in Hin. simpl in Hin. exact Hin.
  - destruct (H i type Hi) as [Heq|Hex]; [now right|left].
    apply excludedDimsOf_elem. exact Hex.
Qed.

(** X8. When the index designates dimension [i] of the operation, whose
    loop range is [size], [dim(d, CaptureStaticValue)] succeeds and writes
    [size] in the cell, and [dim(d, DivisibleBy(k))] fails on a dynamic
    range, divides by zero when [k] is 0 and the range is static, and
    otherwise succeeds exactly when the remainder of [size] by [k] is 0. *)
Theorem dim_in_range_reads_size
        (op : Op) (dimension k : Z) (capture : CellId) (i : nat) (size : Z)
        (st : State) :
  length (getStaticLoopRanges ir op) = getNumLoops ir op ->
  Z.of_nat (getNumLoops ir op) < 2 ^ 63 ->
  resolvesTo (getNumLoops ir op) dimension i ->
  getStaticLoopRanges ir op !! i = Some size ->
  evalPred ir fuel (PDimCapture dimension capture) op st
  = Ok (true, setCell capture size st)
  /\ evalPred ir fuel (PDimDivisibleBy dimension k) op st
     = (if isDynamic ir size then Ok (false, st)
        else if k =? 0 then Crash DivisionByZero
             else Ok (Z.rem size k =? 0, st)).
Proof.
  intros Hlen Hrank Hres Hsize.
  apply resolvesTo_transformed in Hres as [Ht ->].
  destruct (index_nth_error (getStaticLoopRanges ir op)
                            (transformed (Z.of_nat (getNumLoops ir op))
                                         dimension))
    as (size' & Hidx & Hnth); [lia | lia |].
  rewrite Hsize in Hnth. injection Hnth as <-.
  unfold evalPred, evalPredWith. cbv zeta.
  replace (_ <=? _) with false by (symmetry; apply Z.leb_gt; lia).
  rewrite Hidx. cbn [rbind]. split; reflexivity.
Qed.

End DimensionSpecs.

Lemma dim_list_IteratorType_exact_witness :
  exists b,
    evalPred (irOf rank3Graph) 0 (PDimsIter [-1] reduction) 0%nat emptyState
    = Ok (b, emptyState)
    /\ (b = true <->
        Forall (fun d => exists i,
                    resolvesTo (getNumLoops (irOf rank3Graph) 0%nat) d i
                    /\ getIteratorTypesArray (irOf rank3Graph) 0%nat !! i
                       = Some reduction)
               [-1]).
Proof.
  apply (dim_list_IteratorType_exact (irOf rank3Graph) 0 0%nat reduction [-1]
                                     emptyState).
  - reflexivity.
  - vm_compute. reflexivity.
Defined.

Lemma dim_list_ShapeKind_exact_witness :
  exists b,
    evalPred (irOf rank3Graph) 0 (PDimsShape [-1; 0] Static) 0%nat emptyState
    = Ok (b, emptyState)
    /\ (b = true <->
        Forall (fun d => exists i size,
                    resolvesTo
                      (length (getStaticLoopRanges (irOf rank3Graph) 0%nat))
                      d i
                    /\ getStaticLoopRanges (irOf rank3Graph) 0%nat !! i
                       = Some size
                    /\ hasShapeKind (irOf rank3Graph) Static size)
               [-1; 0]).
Proof.
  apply (dim_list_ShapeKind_exact (irOf rank3Graph) 0 0%nat Static [-1; 0]
                                  emptyState).
  - repeat constructor; lia.
  - vm_compute. reflexivity.
Defined.

Lemma dim_in_range_reads_size_witness :
  evalPred (irOf rank3Graph) 0 (PDimCapture (-1) 1%nat) 0%nat emptyState
  = Ok (true, setCell 1%nat 128 emptyState)
  /\ evalPred (irOf rank3Graph) 0 (PDimDivisibleBy (-1) 32) 0%nat emptyState
     = (if isDynamic (irOf rank3Graph) 128 then Ok (false, emptyState)
        else if 32 =? 0 then Crash DivisionByZero
             else Ok (Z.rem 128 32 =? 0, emptyState)).
Proof.
  apply (dim_in_range_reads_size (irOf rank3Graph) 0 0%nat (-1) 32 1%nat
                                 2%nat 128 emptyState).
  - reflexivity.
  - vm_compute. reflexivity.
  - unfold resolvesTo. simpl. lia.
  - reflexivity.
Defined.

(** ** What the traversals return *)

Section TraversalSpecs.
Variable ir : IR.

(** X9. In an IR where no block argument belongs to an [extract_slice],
    the operation [traverseSubsetsBackwards] returns is not an
    [extract_slice]. *)
Theorem traverseSubsetsBackwards_not_slice (fuel : nat) (val : Value)
        (op : Op) :
  (forall use, notInSlice ir (get ir use)) ->
  (forall slice, notInSlice ir (getSource ir slice)) ->
  notInSlice ir val ->
  traverseSubsetsBackwards ir fuel val = Ok op ->
  opKind ir op <> ExtractSliceOp.
Proof.
  intros Hget Hsource. revert val.
  induction fuel as [|fuel IH]; intros val Hval Hrun; simpl in Hrun.
  - discriminate.
  - destruct val as [owner r | blockOp a]; simpl in Hrun, Hval.
    + destruct (opKind ir owner) eqn:Ek;
        try (injection Hrun as <-; congruence).
      eapply IH; [apply Hsource | exact Hrun].
    + destruct (opKind ir blockOp) eqn:Ek;
        try (injection Hrun as <-; congruence).
      eapply IH; [apply Hget | exact Hrun].
Qed.

Lemma scanUses_not_slice (uses : list OpOperand) (val : Value) (user : Op) :
  scanUses ir uses val = inl user -> opKind ir user <> ExtractSliceOp.
Proof.
  revert val. induction uses as [|use rest IH]; intros val Hscan;
    simpl in Hscan.
  - discriminate.
  - destruct (opKind ir (getOwner use)) eqn:Ek;
      try (injection Hscan as <-; congruence).
    + eapply IH, Hscan.
    + destruct (List.find _ _); [eapply IH, Hscan|].
      injection Hscan as <-. congruence.
Qed.

Lemma scanUses_owner (uses : list OpOperand) (val : Value) (user : Op) :
  scanUses ir uses val = inl user ->
  exists use, use ∈ uses /\ getOwner use = user.
Proof.
  revert val. induction uses as [|use rest IH]; intros val Hscan;
    simpl in Hscan; [discriminate|].
  assert (Hrest : forall v, scanUses ir rest v = inl user ->
                            exists use0, use0 ∈ use :: rest
                                         /\ getOwner use0 = user).
  { intros v Hv. destruct (IH v Hv) as (use0 & Hin & Hown).
    exists use0. split; [now right | exact Hown]. }
  destruct (opKind ir (getOwner use));
    try (injection Hscan as <-; exists use; split; [left | reflexivity]).
  - eapply Hrest, Hscan.
  - destruct (List.find _ _); [eapply Hrest, Hscan|].
    injection Hscan as <-. exists use. split; [left | reflexivity].
Qed.

(** X10. The operation [traverseSubsetsForwardAnyUse] returns is not an
    [extract_slice], and it is the owner of a use of the value the last
    turn of the loop started with. *)
Theorem traverseSubsetsForwardAnyUse_not_slice (fuel : nat) (val : Value)
        (user : Op) :
  traverseSubsetsForwardAnyUse ir fuel val = Ok user ->
  opKind ir user <> ExtractSliceOp
  /\ exists (n : nat) (val' : Value) (use : OpOperand),
      (n < fuel)%nat
      /\ valueAtTurn ir n val = Some val'
      /\ scanUses ir (getUses ir val') val' = inl user
      /\ use ∈ getUses ir val'
      /\ getOwner use = user.
Proof.
  revert val. induction fuel as [|fuel IH]; intros val Hrun; simpl in Hrun.
  - discriminate.
  - destruct (scanUses ir (getUses ir val) val) as [u|next] eqn:Escan.
    + injection Hrun as <-. split; [eapply scanUses_not_slice, Escan|].
      destruct (scanUses_owner _ _ _ Escan) as (use & Hin & Hown).
      exists 0%nat, val, use. repeat split; [lia | exact Escan | exact Hin
                                             | exact Hown].
    + destruct (IH next Hrun) as (Hkind & n & val' & use & Hn & Hat & Hscan
                                  & Hin & Hown).
      split; [exact Hkind|].
      exists (S n), val', use. simpl. rewrite Escan.
      repeat split; [lia | exact Hat | exact Hscan | exact Hin | exact Hown].
Qed.

(** X11. On a value without uses the loop of
    [traverseSubsetsForwardAnyUse] makes no progress: whatever the number
    of turns allowed, it has not returned. *)
Theorem traverseSubsetsForwardAnyUse_no_use (fuel : nat) (val : Value) :
  getUses ir val = [] ->
  traverseSubsetsForwardAnyUse ir fuel val = Crash OutOfFuel.
Proof.
  intros Huses. induction fuel as [|fuel IH]; simpl; [reflexivity|].
  rewrite Huses. simpl. exact IH.
Qed.

End TraversalSpecs.

Lemma traverseSubsetsBackwards_not_slice_witness :
  opKind (irOf sliceChainGraph) 0%nat <> ExtractSliceOp.
Proof.
  apply (traverseSubsetsBackwards_not_slice
           (irOf sliceChainGraph) 3 (OpResult 2%nat 0%nat) 0%nat).
  - intros [o n]. simpl. unfold opData.
    destruct o as [|[|[|[|[|[|o]]]]]]; destruct n as [|[|n]]; simpl;
      try exact I; discriminate.
  - intros o. simpl. unfold opData.
    destruct o as [|[|[|[|[|[|o]]]]]]; simpl; try exact I; discriminate.
  - exact I.
  - reflexivity.
Defined.

Lemma traverseSubsetsForwardAnyUse_not_slice_witness :
  opKind (irOf sliceChainGraph) 3%nat <> ExtractSliceOp
  /\ exists (n : nat) (val' : Value) (use : OpOperand),
      (n < 3)%nat
      /\ valueAtTurn (irOf sliceChainGraph) n (OpResult 0%nat 0%nat)
         = Some val'
      /\ scanUses (irOf sliceChainGraph)
                  (getUses (irOf sliceChainGraph) val') val'
         = inl 3%nat
      /\ use ∈ getUses (irOf sliceChainGraph) val'
      /\ getOwner use = 3%nat.
Proof.
  apply (traverseSubsetsForwardAnyUse_not_slice
           (irOf sliceChainGraph) 3 (OpResult 0%nat 0%nat) 3%nat).
  reflexivity.
Defined.

Lemma traverseSubsetsForwardAnyUse_no_use_witness :
  traverseSubsetsForwardAnyUse (irOf sliceChainGraph) 100
                               (OpResult 3%nat 0%nat)
  = Crash OutOfFuel.
Proof.
  apply (traverseSubsetsForwardAnyUse_no_use
           (irOf sliceChainGraph) 100 (OpResult 3%nat 0%nat)).
  reflexivity.
Defined.

(** ** What a match leaves alone *)

Ltac case_run H :=
  repeat match type of H with
         | context [rbind ?x _] => destruct x eqn:?; cbn [rbind] in H
         | context [match ?x with _ => _ end] => destruct x eqn:?
         end;
  try discriminate.

Section MatchFrame.
Variable ir : IR.
Variable fuel : nat.

Lemma sameCellsOutside_refl (cs : list CellId) (st : State) :
  sameCellsOutside cs st st.
Proof. intros c _. reflexivity. Qed.

Lemma sameCellsOutside_trans (cs : list CellId) (st1 st2 st3 : State) :
  sameCellsOutside cs st1 st2 -> sameCellsOutside cs st2 st3 ->
  sameCellsOutside cs st1 st3.
Proof. intros H12 H23 c Hc. rewrite (H23 c Hc). apply H12, Hc. Qed.

Lemma sameCellsOutside_mono (cs cs' : list CellId) (st st' : State) :
  cs ⊆ cs' -> sameCellsOutside cs st st' -> sameCellsOutside cs' st st'.
Proof. intros Hsub H c Hc. apply H. set_solver. Qed.

Lemma sameCellsOutside_setCell (cs : list CellId) (c : CellId) (v : Z)
      (st : State) :
  c ∈ cs -> sameCellsOutside cs st (setCell c v st).
Proof.
  intros Hc d Hd. unfold setCell. simpl. apply lookup_insert_ne. set_solver.
Qed.

Lemma all_of_sameCellsOutside {A : Type}
      (f : A -> State -> result (bool * State))
      (cs : list CellId) (xs : list A) :
  Forall (fun x => forall st b st',
              f x st = Ok (b, st') -> sameCellsOutside cs st st') xs ->
  forall st b st',
    all_of f xs st = Ok (b, st') -> sameCellsOutside cs st st'.
Proof.
  induction 1 as [|x xs Hx _ IH]; intros st b st' Hrun; simpl in Hrun.
  - injection Hrun as <- <-. apply sameCellsOutside_refl.
  - destruct (f x st) as [[[|] s1]|e] eqn:E; try discriminate.
    + eapply sameCellsOutside_trans; [eapply Hx, E | eapply IH, Hrun].
    + injection Hrun as <- <-. eapply Hx, E.
Qed.

Lemma any_of_sameCellsOutside {A : Type}
      (f : A -> State -> result (bool * State))
      (cs : list CellId) (xs : list A) :
  (forall x st b st', f x st = Ok (b, st') -> sameCellsOutside cs st st') ->
  forall st b st',
    any_of f xs st = Ok (b, st') -> sameCellsOutside cs st st'.
Proof.
  intros Hf. induction xs as [|x xs IH]; intros st b st' Hrun; simpl in Hrun.
  - injection Hrun as <- <-. apply sameCellsOutside_refl.
  - destruct (f x st) as [[[|] s1]|e] eqn:E; try discriminate.
    + injection Hrun as <- <-. eapply Hf, E.
    + eapply sameCellsOutside_trans; [eapply Hf, E | eapply IH, Hrun].
Qed.

Lemma matcherCells_unfold (m : Matcher) :
  matcherCells m = flat_map predCells (predicates m).
Proof. destruct m; reflexivity. Qed.

Lemma match_evalPred_sameCellsOutside :
  (forall m op st b st',
      match_ ir fuel m op st = Ok (b, st') ->
      sameCellsOutside (matcherCells m) st st')
  /\ (forall p op st b st',
         evalPred ir fuel p op st = Ok (b, st') ->
         sameCellsOutside (predCells p) st st').
Proof.
  apply matcher_pred_ind.
  - intros m Hps _ op st b st' Hrun.
    rewrite match_unfold in Hrun.
    assert (Hall : forall s c s',
               all_of (fun p s => evalPred ir fuel p op s) (predicates m) s
               = Ok (c, s') ->
               sameCellsOutside (matcherCells m) s s').
    { apply all_of_sameCellsOutside.
      apply List.Forall_forall. intros p Hin s c s' Hp.
      rewrite List.Forall_forall in Hps.
      eapply sameCellsOutside_mono; [|eapply (Hps p Hin), Hp].
      rewrite matcherCells_unfold. intros x Hx.
      apply list_elem_of_In, in_flat_map. exists p.
      split; [exact Hin | now apply list_elem_of_In]. }
    destruct (isLinalgOp ir op).
    + destruct (all_of _ _ st) as [[[|] s1]|e] eqn:E; try discriminate;
        injection Hrun as <- <-.
      * intros c Hc. simpl. eapply Hall; eassumption.
      * eapply Hall, E.
    + injection Hrun as <- <-. apply sameCellsOutside_refl.
  - intros p IH op st b st' Hrun.
    destruct p; unfold evalPred in Hrun; simpl in Hrun;
      case_run Hrun;
      first [ injection Hrun as <- <-;
              first [ apply sameCellsOutside_refl
                    | apply sameCellsOutside_setCell; simpl; set_solver
                    | eapply IH; [reflexivity | eassumption]
                    | eapply any_of_sameCellsOutside; [|eassumption];
                      intros ? ? ? ? Hx; simpl;
                      eapply IH; [reflexivity | exact Hx] ]
            | eapply IH; [reflexivity | exact Hrun] ].
Qed.

(** X12. A match that returns changes the captured operation of no matcher
    but the matcher and those nested in it, and no capture cell but those
    of their capture predicates. *)
Theorem match_changes_its_own_only
        (m : Matcher) (op : Op) (st st' : State) (b : bool) :
  match_ ir fuel m op st = Ok (b, st') ->
  (forall i, i ∉ matcherIds m -> captured st' !! i = captured st !! i)
  /\ (forall c, c ∉ matcherCells m -> cells st' !! c = cells st !! c).
Proof.
  intros Hrun. split.
  - exact (proj1 (match_evalPred_sameOutside ir fuel) m op st b st' Hrun).
  - exact (proj1 match_evalPred_sameCellsOutside m op st b st' Hrun).
Qed.

End MatchFrame.

Lemma match_changes_its_own_only_witness :
  (forall i, i ∉ matcherIds rank2Matcher ->
             captured (setCaptured 1%nat 0%nat emptyState) !! i
             = captured emptyState !! i)
  /\ (forall c, c ∉ matcherCells rank2Matcher ->
                cells (setCaptured 1%nat 0%nat emptyState) !! c
                = cells emptyState !! c).
Proof.
  apply (match_changes_its_own_only (irOf twoInputGraph) 0 rank2Matcher 1%nat
                                    emptyState _ false).
  vm_compute. reflexivity.
Defined.

(** ** Outcomes that do not depend on earlier matches *)

Section Independence.
Variable ir : IR.
Variable fuel : nat.

(** X13. Without the exhaustiveness predicate in the matcher or in a
    matcher nested in it, the boolean a match returns does not depend on
    the state it starts in: from any other state the match returns the
    same boolean, and every location holds the same after both runs or was
    left by both as it was. *)
Theorem match_outcome_state_independent
        (m : Matcher) (op : Op) (s s' t : State) (b : bool) :
  tilableFree m = true ->
  match_ ir fuel m op s = Ok (b, t) ->
  exists t',
    match_ ir fuel m op s' = Ok (b, t') /\ agreeOrKept s s' t t'.
Proof.
  intros Hfree Hrun.
  pose proof (proj1 (match_evalPred_similar ir fuel) m Hfree op s s') as Hsim.
  rewrite Hrun in Hsim.
  destruct (match_ ir fuel m op s') as [[b' t']|e]; simpl in Hsim;
    [|contradiction].
  destruct Hsim as [<- Ht]. now exists t'.
Qed.

Lemma state_ext (s t : State) :
  (forall i, captured s !! i = captured t !! i) ->
  cells s = cells t ->
  s = t.
Proof.
  destruct s as [sc sv], t as [tc tv]. simpl. intros Hc ->.
  f_equal. now apply map_eq.
Qed.

(** X14. [resetCapture] is idempotent, and the resets of two matchers
    commute. *)
Theorem resetCapture_idempotent_commutes (M M' : Matcher) (st : State) :
  resetCapture M (resetCapture M st) = resetCapture M st
  /\ resetCapture M (resetCapture M' st) = resetCapture M' (resetCapture M st).
Proof.
  split; apply state_ext.
  - intros i.
    destruct (resetCapture_lookup M (resetCapture M st) i) as [-> _].
    destruct (resetCapture_lookup M st i) as [-> _].
    now case_decide.
  - destruct (resetCapture_lookup M (resetCapture M st) (mid M)) as [_ ->].
    reflexivity.
  - intros i.
    destruct (resetCapture_lookup M (resetCapture M' st) i) as [-> _].
    destruct (resetCapture_lookup M' (resetCapture M st) i) as [-> _].
    destruct (resetCapture_lookup M' st i) as [-> _].
    destruct (resetCapture_lookup M st i) as [-> _].
    now repeat case_decide.
  - destruct (resetCapture_lookup M (resetCapture M' st) (mid M)) as [_ ->].
    destruct (resetCapture_lookup M' (resetCapture M st) (mid M)) as [_ ->].
    destruct (resetCapture_lookup M' st (mid M)) as [_ ->].
    destruct (resetCapture_lookup M st (mid M)) as [_ ->].
    reflexivity.
Qed.

End Independence.

(** ** Reset reaches what the fluent API attached *)

Section FluentFacts.

Lemma pred_nested_ids (p : Pred) (om : Matcher) :
  nestedOf p = Some om ->
  predIds p = matcherIds om /\ predReads p = matcherReads om.
Proof. destruct p; simpl; intros [= <-]; split; reflexivity. Qed.

Lemma pred_plain_ids (p : Pred) :
  nestedOf p = None -> predTilableFree p = true ->
  predIds p = [] /\ predReads p = [].
Proof. destruct p; simpl; intros; try discriminate; split; reflexivity. Qed.

Lemma matcherReads_unfold (m : Matcher) :
  matcherReads m = flat_map predReads (predicates m).
Proof. destruct m; reflexivity. Qed.

Lemma resetIds_unfold (m : Matcher) :
  resetIds m = mid m :: flat_map resetIds (nestedCapturingMatchers m).
Proof. destruct m; reflexivity. Qed.

Lemma elem_of_flat_map {A B : Type} (f : A -> list B) (xs : list A) (y : B) :
  y ∈ flat_map f xs <-> exists x, x ∈ xs /\ y ∈ f x.
Proof.
  rewrite list_elem_of_In, in_flat_map. split; intros (x & Hx & Hy);
    exists x; split; apply list_elem_of_In; assumption.
Qed.

Lemma mid_in_resetIds (m : Matcher) : mid m ∈ resetIds m.
Proof. rewrite resetIds_unfold. left. Qed.

Lemma elem_of_flat_map_app {A B : Type} (f : A -> list B)
      (xs ys : list A) (y : B) :
  y ∈ flat_map f (xs ++ ys) <-> y ∈ flat_map f xs \/ y ∈ flat_map f ys.
Proof. rewrite flat_map_app. apply elem_of_app. Qed.

Lemma matcherIds_addPredicate (p : Pred) (m : Matcher) (i : MatcherId) :
  i ∈ matcherIds (addPredicate p m) <-> i ∈ matcherIds m \/ i ∈ predIds p.
Proof.
  destruct m as [j ps ns]. unfold addPredicate. simpl.
  rewrite !elem_of_cons, elem_of_flat_map_app. simpl. rewrite app_nil_r.
  tauto.
Qed.

Lemma matcherReads_addPredicate (p : Pred) (m : Matcher) (i : MatcherId) :
  i ∈ matcherReads (addPredicate p m)
  <-> i ∈ matcherReads m \/ i ∈ predReads p.
Proof.
  destruct m as [j ps ns]. unfold addPredicate. simpl.
  rewrite elem_of_flat_map_app. simpl. rewrite app_nil_r. tauto.
Qed.

Lemma resetIds_addPredicate (p : Pred) (m : Matcher) :
  resetIds (addPredicate p m) = resetIds m.
Proof. destruct m; reflexivity. Qed.

Lemma matcherIds_recordNestedMatcher (om m : Matcher) :
  matcherIds (recordNestedMatcher om m) = matcherIds m.
Proof. destruct m; reflexivity. Qed.

Lemma matcherReads_recordNestedMatcher (om m : Matcher) :
  matcherReads (recordNestedMatcher om m) = matcherReads m.
Proof. destruct m; reflexivity. Qed.

Lemma resetIds_recordNestedMatcher (om m : Matcher) (i : MatcherId) :
  i ∈ resetIds m \/ i ∈ resetIds om ->
  i ∈ resetIds (recordNestedMatcher om m).
Proof.
  destruct m as [j ps ns]. unfold recordNestedMatcher. simpl.
  rewrite !elem_of_cons, elem_of_flat_map_app. simpl.
  intros [[->|H]|H]; [now left | right; now left|].
  right. right. apply elem_of_app. now left.
Qed.

Lemma fluent_ids (m : Matcher) :
  fluent m ->
  (forall i, i ∈ matcherIds m -> i ∈ resetIds m)
  /\ (forall i, i ∈ matcherReads m -> i ∈ resetIds m).
Proof.
  induction 1 as [i | kinds i | p m Hnone Hfree _ [IHi IHr]
                 | p om m Hsome _ [IHoi IHor] _ [IHi IHr]
                 | scope m _ [IHi IHr]].
  - split; intros j Hj; simpl in *; set_solver.
  - split; intros j Hj; simpl in *; set_solver.
  - destruct (pred_plain_ids p Hnone Hfree) as [Hids Hreads].
    rewrite resetIds_addPredicate. split; intros j Hj.
    + apply matcherIds_addPredicate in Hj as [Hj|Hj]; [now apply IHi|].
      rewrite Hids in Hj. inversion Hj.
    + apply matcherReads_addPredicate in Hj as [Hj|Hj]; [now apply IHr|].
      rewrite Hreads in Hj. inversion Hj.
  - destruct (pred_nested_ids p om Hsome) as [Hids Hreads].
    split; intros j Hj; apply resetIds_recordNestedMatcher;
      rewrite resetIds_addPredicate.
    + rewrite matcherIds_recordNestedMatcher in Hj.
      apply matcherIds_addPredicate in Hj as [Hj|Hj]; [left; now apply IHi|].
      rewrite Hids in Hj. right. now apply IHoi.
    + rewrite matcherReads_recordNestedMatcher in Hj.
      apply matcherReads_addPredicate in Hj as [Hj|Hj];
        [left; now apply IHr|].
      rewrite Hreads in Hj. right. now apply IHor.
  - unfold allTilableOpsCaptured. rewrite resetIds_addPredicate.
    split; intros j Hj.
    + apply matcherIds_addPredicate in Hj as [Hj|Hj]; [now apply IHi|].
      inversion Hj.
    + apply matcherReads_addPredicate in Hj as [Hj|Hj]; [now apply IHr|].
      simpl in Hj. rewrite resetIds_unfold. right.
      apply list_elem_of_fmap in Hj as (n & -> & Hn).
      apply elem_of_flat_map. exists n. split; [exact Hn|].
      apply mid_in_resetIds.
Qed.

(** X15. For a matcher built with the fluent API, [resetCapture] reaches
    every matcher a match may run and every matcher whose captured
    operation an exhaustiveness predicate reads: after the reset, none of
    them has a captured operation. *)
Theorem resetCapture_clears_fluent (m : Matcher) (st : State) :
  fluent m ->
  Forall (fun i => captured (resetCapture m st) !! i = None)
         (matcherIds m ++ matcherReads m).
Proof.
  intros Hfl. destruct (fluent_ids m Hfl) as [Hids Hreads].
  apply Forall_forall. intros i Hi.
  destruct (resetCapture_lookup m st i) as [-> _].
  rewrite decide_True; [reflexivity|].
  apply elem_of_app in Hi as [Hi|Hi]; [now apply Hids | now apply Hreads].
Qed.

End FluentFacts.

(** Every method of the fluent API keeps a matcher in [fluent]. *)
Lemma fluent_methods (m om : Matcher) :
  fluent m -> fluent om ->
  (forall n, fluent (rank_NumGreaterEqualTo n m))
  /\ (forall n, fluent (rank_NumLowerEqualTo n m))
  /\ (forall ds k, fluent (dim_list_ShapeKind ds k m))
  /\ (forall d k, fluent (dim_ShapeKind d k m))
  /\ (forall k, fluent (dim_AllDims_ShapeKind k m))
  /\ (forall ds k, fluent (dim_list_IteratorType ds k m))
  /\ (forall d k, fluent (dim_IteratorType d k m))
  /\ (forall ds k, fluent (dim_AllDimsExcept_IteratorType ds k m))
  /\ (forall k, fluent (dim_AllDims_IteratorType k m))
  /\ (forall d k, fluent (dim_DivisibleBy d k m))
  /\ (forall c, fluent (rank_CaptureStaticValue c m))
  /\ (forall d c, fluent (dim_CaptureStaticValue d c m))
  /\ (forall n, fluent (input_NumEqualsTo n m))
  /\ fluent (input_IsPermutation m)
  /\ fluent (input_IsProjectedPermutation m)
  /\ (forall pos opt, fluent (input pos om opt m))
  /\ (forall pos, fluent (input_SubsetOf pos om m))
  /\ (forall scope, fluent (allTilableOpsCaptured scope m))
  /\ (forall n, fluent (output_NumEqualsTo n m))
  /\ fluent (output_IsPermutation m)
  /\ fluent (output_IsProjectedPermutation m)
  /\ (forall pos w, fluent (output_ElementTypeBitWidth pos w m))
  /\ (forall pos, fluent (output_SingleCombinerReduction pos m))
  /\ (forall pos opt, fluent (output pos om opt m))
  /\ (forall pos, fluent (output_SubsetOf pos om m))
  /\ (forall pos opt, fluent (result_HasAnyUse pos om opt m))
  /\ (forall pos opt, fluent (result_HasAnyUse_SubsetOf pos om opt m)).
Proof.
  intros Hm Hom.
  repeat split; intros;
    first [ now apply fluent_plain
          | now apply fluent_nested
          | now apply fluent_tilable ].
Qed.

(** ** Matching after a reset *)

Section AfterReset.
Variable ir : IR.
Variable fuel : nat.
Variable ids : list MatcherId.

Lemma agreeOn_setCaptured (t t' : State) (i : MatcherId) (op : Op) :
  agreeOn ids t t' -> agreeOn ids (setCaptured i op t) (setCaptured i op t').
Proof.
  intros H j Hj. simpl. destruct (decide (i = j)) as [->|Hne].
  - now rewrite !lookup_insert_eq.
  - rewrite !lookup_insert_ne by exact Hne. now apply H.
Qed.

Lemma similarOn_pure (s s' : State) (b : bool) :
  agreeOn ids s s' -> similarOn ids (Ok (b, s)) (Ok (b, s')).
Proof. now split. Qed.

Lemma similarOn_setCell (s s' : State) (b : bool) (c : CellId) (v : Z) :
  agreeOn ids s s' ->
  similarOn ids (Ok (b, setCell c v s)) (Ok (b, setCell c v s')).
Proof. now split. Qed.

Lemma similarOn_optional (optional : bool) (r r' : result (bool * State)) :
  similarOn ids r r' ->
  similarOn ids
            match r with
            | Ok (true, st') => Ok (true, st')
            | Ok (false, st') => Ok (optional, st')
            | Crash e => Crash e
            end
            match r' with
            | Ok (true, st') => Ok (true, st')
            | Ok (false, st') => Ok (optional, st')
            | Crash e => Crash e
            end.
Proof.
  destruct r as [[[|] t]|e], r' as [[[|] t']|e']; simpl; try easy;
    intros [? ?]; try discriminate; now split.
Qed.

Lemma similarOn_captured (i : MatcherId) (op : Op)
      (r r' : result (bool * State)) :
  similarOn ids r r' ->
  similarOn ids
            match r with
            | Ok (true, st') => Ok (true, setCaptured i op st')
            | Ok (false, st') => Ok (false, st')
            | Crash e => Crash e
            end
            match r' with
            | Ok (true, st') => Ok (true, setCaptured i op st')
            | Ok (false, st') => Ok (false, st')
            | Crash e => Crash e
            end.
Proof.
  destruct r as [[[|] t]|e], r' as [[[|] t']|e']; simpl; try easy;
    intros [? ?]; try discriminate; split; try reflexivity; try assumption.
  now apply agreeOn_setCaptured.
Qed.

Lemma all_of_similarOn {A : Type} (f : A -> State -> result (bool * State))
      (xs : list A) :
  Forall (fun x => forall s s', agreeOn ids s s' ->
                                similarOn ids (f x s) (f x s')) xs ->
  forall s s', agreeOn ids s s' ->
               similarOn ids (all_of f xs s) (all_of f xs s').
Proof.
  induction 1 as [|x xs Hx _ IH]; intros s s' Hs; simpl.
  - now apply similarOn_pure.
  - specialize (Hx s s' Hs).
    destruct (f x s) as [[b t]|e], (f x s') as [[b' t']|e'];
      simpl in Hx; try contradiction.
    + destruct Hx as [<- Ht]. destruct b; [now apply IH | now split].
    + exact Hx.
Qed.

Lemma any_of_similarOn {A : Type} (f : A -> State -> result (bool * State))
      (xs : list A) :
  (forall x s s', agreeOn ids s s' -> similarOn ids (f x s) (f x s')) ->
  forall s s', agreeOn ids s s' ->
               similarOn ids (any_of f xs s) (any_of f xs s').
Proof.
  intros Hf. induction xs as [|x xs IH]; intros s s' Hs; simpl.
  - now apply similarOn_pure.
  - pose proof (Hf x s s' Hs) as Hx.
    destruct (f x s) as [[b t]|e], (f x s') as [[b' t']|e'];
      simpl in Hx; try contradiction.
    + destruct Hx as [<- Ht]. destruct b; [now split | now apply IH].
    + exact Hx.
Qed.

Ltac case_similarOn :=
  repeat match goal with
         | |- similarOn _ (rbind ?x _) (rbind ?x _) =>
             destruct x; cbn [rbind]
         | |- similarOn _ (match ?x with _ => _ end)
                        (match ?x with _ => _ end) =>
             destruct x
         end.

(** Two matches started in states that agree on the matchers the
    exhaustiveness predicates read return alike. *)
Lemma match_evalPred_similarOn :
  (forall m, (forall i, i ∈ matcherReads m -> i ∈ ids) ->
             forall op s s',
               agreeOn ids s s' ->
               similarOn ids (match_ ir fuel m op s) (match_ ir fuel m op s'))
  /\ (forall p, (forall i, i ∈ predReads p -> i ∈ ids) ->
                forall op s s',
                  agreeOn ids s s' ->
                  similarOn ids (evalPred ir fuel p op s)
                            (evalPred ir fuel p op s')).
Proof.
  apply matcher_pred_ind.
  - intros m Hps _ Hreads op s s' Hs.
    rewrite !match_unfold.
    destruct (isLinalgOp ir op); [|now apply similarOn_pure].
    apply similarOn_captured, all_of_similarOn; [|exact Hs].
    rewrite List.Forall_forall in Hps |- *.
    intros p Hin. apply (Hps p Hin). intros i Hi. apply Hreads.
    rewrite matcherReads_unfold. apply elem_of_flat_map.
    exists p. split; [now apply list_elem_of_In | exact Hi].
  - intros p IH Hreads op s s' Hs.
    assert (Hnested : forall om, nestedOf p = Some om ->
                                 forall i, i ∈ matcherReads om -> i ∈ ids).
    { intros om Hom i Hi. apply Hreads.
      now rewrite (proj2 (pred_nested_ids p om Hom)). }
    destruct p; unfold evalPred, evalPredWith; cbv zeta; case_similarOn;
      first [ now apply similarOn_pure
            | reflexivity
            | now apply similarOn_setCell
            | apply IH; [reflexivity | now apply Hnested | exact Hs]
            | apply similarOn_optional;
              first [ apply IH; [reflexivity | now apply Hnested | exact Hs]
                    | apply any_of_similarOn; [|exact Hs]; intros ? ? ? ?;
                      apply IH; [reflexivity | now apply Hnested
                                 | assumption] ]
            | idtac ].
    (* the exhaustiveness predicate *)
    rewrite (checkAllTilableMatched_ext ir _ op copy s s');
      [now apply similarOn_pure|].
    intros i Hi. symmetry. apply Hs, Hreads. exact Hi.
Qed.

End AfterReset.

Lemma sharedM_fluent : fluent sharedM.
Proof.
  assert (HY : fluent sharedY) by apply fluent_any.
  assert (HZ : fluent sharedZ) by apply fluent_any.
  assert (HX : fluent sharedX).
  { apply fluent_tilable.
    apply (fluent_nested (PResult 0 sharedZ true)); [reflexivity | exact HZ|].
    apply (fluent_nested (PInput 0 sharedY true)); [reflexivity | exact HY|].
    apply fluent_any. }
  apply fluent_tilable.
  apply (fluent_nested (PInput 1 sharedY false)); [reflexivity | exact HY|].
  apply (fluent_nested (PInput 0 sharedX true)); [reflexivity | exact HX|].
  apply fluent_any.
Qed.

Lemma resetCapture_clears_fluent_witness :
  Forall (fun i =>
            captured (resetCapture sharedM
                        (setCaptured 2%nat 1%nat
                           (setCaptured 3%nat 2%nat emptyState))) !! i
            = None)
         (matcherIds sharedM ++ matcherReads sharedM).
Proof.
  apply (resetCapture_clears_fluent sharedM).
  exact sharedM_fluent.
Defined.

(** X16. For a matcher built with the fluent API, a match started right
    after [resetCapture] does not depend on what was captured before the
    reset: from any two states, the two matches return the same boolean
    and leave the same captured operation in every matcher the reset
    reaches. *)
Theorem match_after_reset
        (ir : IR) (fuel : nat) (M : Matcher) (N : Op) (s s' t : State)
        (b : bool) :
  fluent M ->
  match_ ir fuel M N (resetCapture M s) = Ok (b, t) ->
  exists t',
    match_ ir fuel M N (resetCapture M s') = Ok (b, t')
    /\ agreeOn (resetIds M) t t'.
Proof.
  intros Hfl Hrun.
  assert (Hstart : agreeOn (resetIds M) (resetCapture M s)
                           (resetCapture M s')).
  { intros i Hi.
    destruct (resetCapture_lookup M s i) as [-> _].
    destruct (resetCapture_lookup M s' i) as [-> _].
    now rewrite !decide_True by exact Hi. }
  pose proof (proj1 (match_evalPred_similarOn ir fuel (resetIds M)) M
                    (proj2 (fluent_ids M Hfl)) N _ _ Hstart) as Hsim.
  rewrite Hrun in Hsim.
  destruct (match_ ir fuel M N (resetCapture M s')) as [[b' t']|e];
    simpl in Hsim; [|contradiction].
  destruct Hsim as [<- Ht]. now exists t'.
Qed.

Lemma match_after_reset_witness :
  exists t',
    match_ (irOf sharedGraph) 0 sharedM 2%nat
           (resetCapture sharedM
              (setCaptured 2%nat 1%nat (setCaptured 3%nat 2%nat emptyState)))
    = Ok (false, t')
    /\ agreeOn (resetIds sharedM)
               (setCaptured 2%nat 1%nat (setCaptured 3%nat 2%nat emptyState))
               t'.
Proof.
  apply (match_after_reset (irOf sharedGraph) 0 sharedM 2%nat emptyState).
  - exact sharedM_fluent.
  - vm_compute. reflexivity.
Defined.

Lemma match_outcome_state_independent_witness :
  exists t',
    match_ (irOf twoInputGraph) 0 rank2Matcher 1%nat
           (setCaptured 0%nat 5%nat emptyState)
    = Ok (false, t')
    /\ agreeOrKept emptyState (setCaptured 0%nat 5%nat emptyState)
                   (setCaptured 1%nat 0%nat emptyState) t'.
Proof.
  apply (match_outcome_state_independent
           (irOf twoInputGraph) 0 rank2Matcher 1%nat emptyState).
  - reflexivity.
  - vm_compute. reflexivity.
Defined.

(** ** Operands and results *)

Section OperandSpecs.
Variable ir : IR.
Variable fuel : nat.

Lemma getDpsInitOperand_in_range (op : Op) (i : Z) :
  0 <= i < getNumDpsInits ir op ->
  getNumDpsInits ir op < 2 ^ 63 ->
  exists operand,
    getDpsInitOperand ir op i = Ok operand
    /\ nth_error (getDpsInitOperands ir op) (Z.to_nat i) = Some operand.
Proof.
  intros Hi Hn. unfold getDpsInitOperand.
  replace ((0 <=? i) && (i <? getNumDpsInits ir op)) with true.
  - apply index_in_range; unfold getNumDpsInits in *; lia.
  - symmetry. apply andb_true_iff. split.
    + apply Z.leb_le; lia.
    + apply Z.ltb_lt; lia.
Qed.

(** X17. [output(position, matcher, optional)] resolves the position
    against the number of outputs. With the resolved position inside the
    outputs, the predicate returns [optional] when the output operand has
    no defining operation; otherwise it runs the nested matcher on the
    defining operation, keeps the state that run leaves, and succeeds
    exactly when the nested match succeeded or [optional] is set. *)
Theorem output_optional_match
        (position : Z) (operandMatcher : Matcher) (optional : bool)
        (m : Matcher) (op : Op) (st : State) :
  0 <= transformed (getNumDpsInits ir op) position < getNumDpsInits ir op ->
  getNumDpsInits ir op < 2 ^ 63 ->
  exists p operand,
    addedPredicate (output position operandMatcher optional m) = Some p
    /\ nth_error (getDpsInitOperands ir op)
                 (Z.to_nat (transformed (getNumDpsInits ir op) position))
       = Some operand
    /\ evalPred ir fuel p op st
       = match getDefiningOp (get ir operand) with
         | None => Ok (optional, st)
         | Some definingOp =>
             match match_ ir fuel operandMatcher definingOp st with
             | Ok (matched, st') => Ok (matched || optional, st')
             | Crash e => Crash e
             end
         end.
Proof.
  intros Hpos Hn.
  destruct (getDpsInitOperand_in_range op _ Hpos Hn)
    as (operand & Hget & Hnth).
  exists (POutput position operandMatcher optional), operand.
  split; [apply addedPredicate_recorded|]. split; [exact Hnth|].
  unfold evalPred, evalPredWith. cbv zeta.
  replace (getNumDpsInits ir op
           <=? transformed (getNumDpsInits ir op) position) with false
    by (symmetry; apply Z.leb_gt; lia).
  rewrite Hget. cbn [rbind].
  destruct (getDefiningOp (get ir operand)) as [definingOp|]; [|reflexivity].
  destruct (match_ ir fuel operandMatcher definingOp st)
    as [[[|] st']|e]; reflexivity.
Qed.

(** X18. With the resolved position inside the inputs and enough fuel for
    the chain of views behind the operand, the predicate of
    [input(position, SubsetOf(m))] is the match of [m] on the operation at
    the head of the chain. *)
Theorem input_SubsetOf_matches_head
        (position : Z) (subset : Matcher) (op : Op) (st : State)
        (operand : OpOperand) (n : nat) (realOp : Op) :
  0 <= transformed (getNumDpsInputs ir op) position
    < getNumDpsInputs ir op ->
  getNumDpsInputs ir op < 2 ^ 63 ->
  nth_error (getDpsInputOperands ir op)
            (Z.to_nat (transformed (getNumDpsInputs ir op) position))
  = Some operand ->
  viewChain ir (get ir operand) n realOp ->
  (n < fuel)%nat ->
  evalPred ir fuel (PInputSubsetOf position subset) op st
  = match_ ir fuel subset realOp st.
Proof.
  intros Hpos Hn Hnth Hchain Hfuel.
  destruct (getDpsInputOperand_in_range ir op _ Hpos Hn)
    as (operand' & Hget & Hnth').
  rewrite Hnth in Hnth'. injection Hnth' as <-.
  unfold evalPred, evalPredWith. cbv zeta.
  replace (getNumDpsInputs ir op
           <=? transformed (getNumDpsInputs ir op) position) with false
    by (symmetry; apply Z.leb_gt; lia).
  rewrite Hget. cbn [rbind].
  now rewrite (traverseSubsetsBackwards_chain ir _ _ _ Hchain fuel Hfuel).
Qed.

Lemma getResult_in_range (op : Op) (i : Z) :
  0 <= i < Z.of_nat (getNumResults ir op) ->
  Z.of_nat (getNumResults ir op) < 2 ^ 32 ->
  getResult ir op i = Ok (OpResult op (Z.to_nat i)).
Proof.
  intros Hi Hn. unfold getResult. rewrite Z.mod_small by lia.
  now replace (i <? Z.of_nat (getNumResults ir op)) with true
    by (symmetry; apply Z.ltb_lt; lia).
Qed.

Lemma any_of_true_iff {A : Type} (f : A -> State -> result (bool * State))
      (xs : list A) :
  (forall x s s', similar s s' (f x s) (f x s')) ->
  forall st b st',
    any_of f xs st = Ok (b, st') ->
    (b = true <-> exists x s t, x ∈ xs /\ f x s = Ok (true, t)).
Proof.
  intros Hf. induction xs as [|x xs IH]; intros st b st' Hrun;
    simpl in Hrun.
  - injection Hrun as <- <-. split; [discriminate|].
    intros (x & _ & _ & Hx & _). inversion Hx.
  - destruct (f x st) as [[[|] s1]|e] eqn:E; try discriminate.
    + injection Hrun as <- <-. split; [|reflexivity]. intros _.
      exists x, st, s1. split; [left | exact E].
    + rewrite (IH _ _ _ Hrun). split.
      * intros (y & s & t & Hy & Hrun'). exists y, s, t.
        split; [now right | exact Hrun'].
      * intros (y & s & t & Hy & Hrun').
        apply elem_of_cons in Hy as [->|Hy]; [|now exists y, s, t].
        pose proof (Hf x s st) as Hsim. rewrite Hrun', E in Hsim.
        simpl in Hsim. destruct Hsim as [Habs _]. discriminate.
Qed.

(** X19. With the resolved position inside the results and a nested
    matcher free of the exhaustiveness predicate, the predicate of
    [result(position, HasAnyUse(), m, optional)], when it returns,
    succeeds exactly when [optional] is set or [m] matches the owner of
    some use of the result. *)
Theorem result_HasAnyUse_exists
        (position : Z) (resultUserMatcher : Matcher) (optional : bool)
        (op : Op) (st st' : State) (b : bool) :
  tilableFree resultUserMatcher = true ->
  0 <= transformed (Z.of_nat (getNumResults ir op)) position
    < Z.of_nat (getNumResults ir op) ->
  Z.of_nat (getNumResults ir op) < 2 ^ 32 ->
  evalPred ir fuel (PResult position resultUserMatcher optional) op st
  = Ok (b, st') ->
  (b = true <->
   optional = true
   \/ exists use s t,
       use ∈ getUses ir
               (OpResult op
                  (Z.to_nat (transformed (Z.of_nat (getNumResults ir op))
                                         position)))
       /\ match_ ir fuel resultUserMatcher (getOwner use) s = Ok (true, t)).
Proof.
  intros Hfree Hpos Hn Hrun.
  unfold evalPred, evalPredWith in Hrun. cbv zeta in Hrun.
  replace (Z.of_nat (getNumResults ir op)
           <=? transformed (Z.of_nat (getNumResults ir op)) position)
    with false in Hrun by (symmetry; apply Z.leb_gt; lia).
  rewrite (getResult_in_range op _ Hpos Hn) in Hrun. cbn [rbind] in Hrun.
  set (res := OpResult op _) in *.
  destruct (any_of _ _ st) as [[c s1]|e] eqn:Eany; [|discriminate].
  pose proof (any_of_true_iff
                (fun user s => match_ ir fuel resultUserMatcher user s)
                (List.map getOwner (getUses ir res))
                (fun x s s' =>
                   proj1 (match_evalPred_similar ir fuel)
                         resultUserMatcher Hfree x s s')
                st c s1 Eany) as Hany.
  assert (Husers : (exists x s t,
                       x ∈ List.map getOwner (getUses ir res)
                       /\ match_ ir fuel resultUserMatcher x s = Ok (true, t))
                   <-> exists use s t,
                       use ∈ getUses ir res
                       /\ match_ ir fuel resultUserMatcher (getOwner use) s
                          = Ok (true, t)).
  { split.
    - intros (x & s & t & Hx & Hm).
      apply list_elem_of_fmap in Hx as (use & -> & Huse). now exists use, s, t.
    - intros (use & s & t & Huse & Hm). exists (getOwner use), s, t.
      split; [|exact Hm]. apply list_elem_of_fmap. now exists use. }
  rewrite <- Husers, <- Hany.
  destruct c; injection Hrun as <- <-.
  - split; [now right | reflexivity].
  - split; [now left|]. intros [H|H]; [exact H | discriminate].
Qed.

End OperandSpecs.

Lemma output_optional_match_witness :
  exists p operand,
    addedPredicate (output 0 fillMatcher false (m_StructuredOp 0%nat))
    = Some p
    /\ nth_error (getDpsInitOperands (irOf noInputGraph) 1%nat)
                 (Z.to_nat (transformed
                              (getNumDpsInits (irOf noInputGraph) 1%nat) 0))
       = Some operand
    /\ evalPred (irOf noInputGraph) 0 p 1%nat emptyState
       = match getDefiningOp (get (irOf noInputGraph) operand) with
         | None => Ok (false, emptyState)
         | Some definingOp =>
             match match_ (irOf noInputGraph) 0 fillMatcher definingOp
                          emptyState with
             | Ok (matched, st') => Ok (matched || false, st')
             | Crash e => Crash e
             end
         end.
Proof.
  apply (output_optional_match (irOf noInputGraph) 0 0 fillMatcher false
                               (m_StructuredOp 0%nat) 1%nat emptyState).
  - vm_compute. split; [discriminate | reflexivity].
  - vm_compute. reflexivity.
Defined.

Lemma input_SubsetOf_matches_head_witness :
  evalPred (irOf sliceChainGraph) 3 (PInputSubsetOf (-1) fillMatcher) 3%nat
           emptyState
  = match_ (irOf sliceChainGraph) 3 fillMatcher 0%nat emptyState.
Proof.
  apply (input_SubsetOf_matches_head
           (irOf sliceChainGraph) 3 (-1) fillMatcher 3%nat emptyState
           (mkOpOperand 3%nat 0%nat) 2%nat 0%nat).
  - vm_compute. split; [discriminate | reflexivity].
  - vm_compute. reflexivity.
  - reflexivity.
  - eapply chain_view;
      [exact (view_slice (irOf sliceChainGraph) 2%nat 0%nat eq_refl)|].
    eapply chain_view;
      [exact (view_slice (irOf sliceChainGraph) 1%nat 0%nat eq_refl)|].
    apply (chain_head (irOf sliceChainGraph) 0%nat 0%nat). discriminate.
  - lia.
Defined.

Lemma result_HasAnyUse_exists_witness :
  true = true <->
  false = true
  \/ exists use s t,
      use ∈ getUses (irOf sharedGraph)
              (OpResult 0%nat
                 (Z.to_nat
                    (transformed
                       (Z.of_nat (getNumResults (irOf sharedGraph) 0%nat))
                       0)))
      /\ match_ (irOf sharedGraph) 0 sharedZ (getOwner use) s = Ok (true, t).
Proof.
  apply (result_HasAnyUse_exists (irOf sharedGraph) 0 0 sharedZ false 0%nat
                                 emptyState
                                 (setCaptured 3%nat 2%nat emptyState) true).
  - reflexivity.
  - vm_compute. split; [discriminate | reflexivity].
  - vm_compute. reflexivity.
  - vm_compute. reflexivity.
Defined.

(** ** The matcher builders *)

Section BuilderFacts.
Variable ir : IR.
Variable fuel : nat.

(** X20. When the reduction matcher is none of the three matchers nested in
    it, a second match of the matcher [makeReductionMatcher] builds, on the
    same candidate and started in the state the first left, returns the
    same boolean and leaves the captured operations and the capture cells
    as they were. *)
Theorem makeReductionMatcher_twice_alike
        (reductionId fillId leadingId trailingId : MatcherId)
        (captures : MatchedReductionCaptures)
        (N : Op) (st st1 : State) (b : bool) :
  reductionId ∉ [fillId; leadingId; trailingId] ->
  match_ ir fuel
         (makeReductionMatcher reductionId fillId leadingId trailingId
                               captures) N st
  = Ok (b, st1) ->
  match_ ir fuel
         (makeReductionMatcher reductionId fillId leadingId trailingId
                               captures) N st1
  = Ok (b, st1).
Proof.
  intros Hself.
  apply (match_twice_last
           ir fuel _ N st st1 b
           (removelast
              (predicates (makeReductionMatcher reductionId fillId leadingId
                                                trailingId captures)))
           FuncOp [fillId; leadingId; trailingId]).
  - reflexivity.
  - reflexivity.
  - exact Hself.
Qed.

(** X21. When the combiner matcher is none of the five matchers nested in
    it, a second match of the matcher [makeSplitReductionMatcher] builds,
    on the same candidate and started in the state the first left, returns
    the same boolean and leaves the captured operations and the capture
    cells as they were. *)
Theorem makeSplitReductionMatcher_twice_alike
        (parallelReductionId combinerReductionId parallelFillId
           originalFillId leadingId trailingId : MatcherId)
        (N : Op) (st st1 : State) (b : bool) :
  combinerReductionId
    ∉ [parallelReductionId; leadingId; parallelFillId; originalFillId;
       trailingId] ->
  match_ ir fuel
         (makeSplitReductionMatcher parallelReductionId combinerReductionId
                                    parallelFillId originalFillId leadingId
                                    trailingId) N st
  = Ok (b, st1) ->
  match_ ir fuel
         (makeSplitReductionMatcher parallelReductionId combinerReductionId
                                    parallelFillId originalFillId leadingId
                                    trailingId) N st1
  = Ok (b, st1).
Proof.
  intros Hself.
  apply (match_twice_last
           ir fuel _ N st st1 b
           (removelast
              (predicates
                 (makeSplitReductionMatcher parallelReductionId
                                            combinerReductionId
                                            parallelFillId originalFillId
                                            leadingId trailingId)))
           FuncOp
           [parallelReductionId; leadingId; parallelFillId; originalFillId;
            trailingId]).
  - reflexivity.
  - reflexivity.
  - exact Hself.
Qed.

(** X22. [resetCapture] on the matcher [makeReductionMatcher] builds
    leaves the four matchers without captured operation, and on the
    combiner matcher [makeSplitReductionMatcher] builds, the six matchers;
    the capture cells are left as they are. *)
Theorem resetCapture_reaches_built_matchers
        (reductionId fillId leadingId trailingId : MatcherId)
        (captures : MatchedReductionCaptures)
        (parallelReductionId combinerReductionId parallelFillId
           originalFillId splitLeadingId splitTrailingId : MatcherId)
        (st : State) :
  let R := makeReductionMatcher reductionId fillId leadingId trailingId
                                captures in
  let C := makeSplitReductionMatcher parallelReductionId combinerReductionId
                                     parallelFillId originalFillId
                                     splitLeadingId splitTrailingId in
  Forall (fun i => captured (resetCapture R st) !! i = None)
         [reductionId; fillId; leadingId; trailingId]
  /\ cells (resetCapture R st) = cells st
  /\ Forall (fun i => captured (resetCapture C st) !! i = None)
            [parallelReductionId; combinerReductionId; parallelFillId;
             originalFillId; splitLeadingId; splitTrailingId]
  /\ cells (resetCapture C st) = cells st.
Proof.
  intros R C.
  assert (HR : forall i, i ∈ [reductionId; fillId; leadingId; trailingId] ->
                         captured (resetCapture R st) !! i = None).
  { intros i Hi. destruct (resetCapture_lookup R st i) as [-> _].
    rewrite decide_True; [reflexivity|]. subst R. cbn. set_solver. }
  assert (HC : forall i,
             i ∈ [parallelReductionId; combinerReductionId; parallelFillId;
                  originalFillId; splitLeadingId; splitTrailingId] ->
             captured (resetCapture C st) !! i = None).
  { intros i Hi. destruct (resetCapture_lookup C st i) as [-> _].
    rewrite decide_True; [reflexivity|]. subst C. cbn. set_solver. }
  split; [apply Forall_forall; exact HR|].
  split; [exact (proj2 (resetCapture_lookup R st reductionId))|].
  split; [apply Forall_forall; exact HC|].
  exact (proj2 (resetCapture_lookup C st combinerReductionId)).
Qed.

(** X23. The matcher [makeReductionMatcher] stores in [trailing] holds both
    rank captures: when it matches an operation, the rank of that operation
    is written in [maybeTrailingRank] and in [maybeLeadingRank] alike. The
    matcher stored in [leading] writes [maybeLeadingRank] only. *)
Theorem trailing_writes_leading_rank
        (leadingId trailingId : MatcherId)
        (captures : MatchedReductionCaptures)
        (T : Op) (st st' : State) :
  match_ ir fuel (reductionTrailing trailingId captures) T st
  = Ok (true, st') ->
  cells st' !! maybeTrailingRank captures
  = Some (Z.of_nat (getNumLoops ir T))
  /\ cells st' !! maybeLeadingRank captures
     = Some (Z.of_nat (getNumLoops ir T))
  /\ matcherCells (reductionTrailing trailingId captures)
     = [maybeLeadingRank captures; maybeTrailingRank captures]
  /\ matcherCells (reductionLeading leadingId captures)
     = [maybeLeadingRank captures].
Proof.
  intros Hrun. rewrite match_unfold in Hrun.
  unfold evalPred in Hrun. cbn in Hrun.
  destruct (isLinalgOp ir T); [|discriminate].
  match type of Hrun with
  | match ?r with _ => _ end = _ => destruct r as [[[|] s]|e] eqn:Epreds
  end; try discriminate.
  injection Hrun as <-. case_run Epreds. injection Epreds as <-. simpl.
  split; [apply lookup_insert_eq|]. split; [|split; reflexivity].
  destruct (decide (maybeTrailingRank captures = maybeLeadingRank captures))
    as [->|Hne].
  - apply lookup_insert_eq.
  - rewrite lookup_insert_ne by exact Hne. apply lookup_insert_eq.
Qed.

End BuilderFacts.

Lemma trailing_writes_leading_rank_witness :
  cells (setCaptured 7%nat 1%nat
           (setCell 3%nat 1 (setCell 2%nat 1 emptyState)))
        !! maybeTrailingRank sampleCaptures
  = Some (Z.of_nat (getNumLoops (irOf noInputGraph) 1%nat))
  /\ cells (setCaptured 7%nat 1%nat
              (setCell 3%nat 1 (setCell 2%nat 1 emptyState)))
           !! maybeLeadingRank sampleCaptures
     = Some (Z.of_nat (getNumLoops (irOf noInputGraph) 1%nat))
  /\ matcherCells (reductionTrailing 7%nat sampleCaptures)
     = [maybeLeadingRank sampleCaptures; maybeTrailingRank sampleCaptures]
  /\ matcherCells (reductionLeading 6%nat sampleCaptures)
     = [maybeLeadingRank sampleCaptures].
Proof.
  apply (trailing_writes_leading_rank
           (irOf noInputGraph) 0 6%nat 7%nat sampleCaptures 1%nat emptyState).
  vm_compute. reflexivity.
Defined.

(** ** What a successful match of the reduction matcher certifies *)

Section ReductionSound.
Variable ir : IR.
Variable fuel : nat.

Lemma all_of_cons_true {A : Type} (f : A -> State -> result (bool * State))
      (x : A) (xs : list A) (st st' : State) :
  all_of f (x :: xs) st = Ok (true, st') ->
  exists s1, f x st = Ok (true, s1) /\ all_of f xs s1 = Ok (true, st').
Proof.
  simpl. destruct (f x st) as [[[|] s1]|e]; try discriminate.
  intros H. now exists s1.
Qed.

(** The predicates of the reduction matcher, in the order they were
    attached. *)
Lemma makeReductionMatcher_predicates
      (reductionId fillId leadingId trailingId : MatcherId)
      (captures : MatchedReductionCaptures) :
  predicates (makeReductionMatcher reductionId fillId leadingId trailingId
                                   captures)
  = [ PRankGE 2; PRankLE 4; PRankCapture (reductionRank captures);
      PDimsIter [-1] reduction;
      PDimCapture (-1) (reductionDimensionSize captures);
      PAllDimsExceptIter [-1] parallel;
      PInputNum 1; PInputAllProjectedPermutation;
      POutputNum 1; POutputAllProjectedPermutation;
      POutputBitWidth 0 32; POutputSingleCombiner 0;
      POutputNum 1; POutput 0 (reductionFill fillId) false;
      PInput 0 (reductionLeading leadingId captures) true;
      PResult 0 (reductionTrailing trailingId captures) true;
      PAllTilable FuncOp [fillId; leadingId; trailingId] ].
Proof. reflexivity. Qed.

Ltac next_pred Hall H :=
  apply all_of_cons_true in Hall;
  let s := fresh "s" in
  destruct Hall as (s & H & Hall).

Ltac pure_pred H :=
  unfold evalPred, evalPredWith in H; cbv zeta in H; case_run H;
  injection H; intros; subst; clear H.

Lemma NoDup_four {A : Type} (a b c d : A) :
  NoDup [a; b; c; d] ->
  a <> b /\ a <> c /\ a <> d /\ b <> c /\ b <> d /\ c <> d.
Proof.
  intros H. repeat (apply NoDup_cons in H as [? H]). set_solver.
Qed.

(** X24. When the matcher [makeReductionMatcher] builds, for four distinct
    matchers and four distinct cells, matches an operation, that operation
    is a structured operation of rank 2 to 4 whose last dimension is a
    reduction and whose other dimensions are parallel, with one input and
    one output of 32-bit elements reduced by a single combiner; the output
    is produced by a fill, which the fill matcher has captured; the rank
    and the size of the last dimension are in their cells; and the
    candidate and the captured operations of the three nested matchers are
    as many as the tilable operations of the enclosing function. *)
Theorem makeReductionMatcher_certifies
        (reductionId fillId leadingId trailingId : MatcherId)
        (captures : MatchedReductionCaptures)
        (N : Op) (st st' : State) :
  NoDup [reductionId; fillId; leadingId; trailingId] ->
  NoDup [reductionRank captures; reductionDimensionSize captures;
         maybeLeadingRank captures; maybeTrailingRank captures] ->
  match_ ir fuel
         (makeReductionMatcher reductionId fillId leadingId trailingId
                               captures) N st
  = Ok (true, st') ->
  reductionCertificate ir fillId leadingId trailingId reductionId captures
                       N st'.
Proof.
  unfold reductionCertificate. intros Hids Hcells Hrun.
  apply NoDup_four in Hids as (Hrf & Hrl & Hrt & Hfl & Hft & Hlt).
  apply NoDup_four in Hcells as (Hc1 & Hc2 & Hc3 & Hc4 & Hc5 & Hc6).
  rewrite match_unfold in Hrun.
  destruct (isLinalgOp ir N) eqn:Hlinalg; [|discriminate].
  destruct (all_of _ _ st) as [[[|] s17]|e] eqn:Hall; try discriminate.
  injection Hrun as <-.
  rewrite makeReductionMatcher_predicates in Hall.
  next_pred Hall H1. next_pred Hall H2. next_pred Hall H3. next_pred Hall H4.
  next_pred Hall H5. next_pred Hall H6. next_pred Hall H7. next_pred Hall H8.
  next_pred Hall H9. next_pred Hall H10. next_pred Hall H11.
  next_pred Hall H12. next_pred Hall H13. next_pred Hall H14.
  next_pred Hall H15. next_pred Hall H16. next_pred Hall H17.
  simpl in Hall. injection Hall as <-.
  (* the predicates on the candidate alone *)
  pure_pred H1. pure_pred H2. pure_pred H3. pure_pred H4. pure_pred H5.
  pure_pred H6. pure_pred H7. pure_pred H8. pure_pred H9. pure_pred H10.
  pure_pred H11. pure_pred H12. pure_pred H13. pure_pred H17.
  repeat match goal with
         | H : bool_decide _ = true |- _ => apply bool_decide_eq_true in H
         end.
  change (transformed (Z.of_nat (getNumLoops ir N)) (-1))
    with (Z.of_nat (getNumLoops ir N) + -1) in *.
  change (transformed (getNumDpsInits ir N) 0) with 0 in *.
  replace (Z.of_nat (getNumLoops ir N) + -1)
    with (Z.of_nat (getNumLoops ir N) - 1) in * by lia.
  (* the fill *)
  unfold evalPred, evalPredWith in H14. cbv zeta in H14.
  change (transformed (getNumDpsInits ir N) 0) with 0 in H14.
  case_run H14. injection H14; intros; subst; clear H14.
  match goal with
  | H : match_ ir fuel (reductionFill _) ?d _ = Ok (true, _) |- _ =>
      rename H into Hfill; rename d into fillOp
  end.
  rewrite match_unfold in Hfill. unfold evalPred in Hfill. cbn in Hfill.
  destruct (isLinalgOp ir fillOp) eqn:Hfilllinalg; [|discriminate].
  destruct (bool_decide (opKind ir fillOp ∈ [FillOp])) eqn:Hkind;
    [|discriminate].
  injection Hfill; intros; subst; clear Hfill.
  apply bool_decide_eq_true in Hkind.
  assert (Hfillkind : opKind ir fillOp = FillOp) by set_solver.
  (* the optional matchers leave the rest as it is *)
  pose proof (proj2 (match_evalPred_sameOutside ir fuel) _ _ _ _ _ H15)
    as Hl. cbn in Hl.
  pose proof (proj2 (match_evalPred_sameCellsOutside ir fuel) _ _ _ _ _ H15)
    as Hlc. cbn in Hlc.
  pose proof (proj2 (match_evalPred_sameOutside ir fuel) _ _ _ _ _ H16)
    as Ht. cbn in Ht.
  pose proof (proj2 (match_evalPred_sameCellsOutside ir fuel) _ _ _ _ _ H16)
    as Htc. cbn in Htc.
  match goal with H : Ok ?x = Ok ?y |- _ => injection H as -> end.
  split; [reflexivity|]. split; [lia|].
  split.
  { cbn [dimsIter] in Heqr.
    change (transformed (Z.of_nat (getNumLoops ir N)) (-1))
      with (Z.of_nat (getNumLoops ir N) + -1) in Heqr.
    replace (Z.of_nat (getNumLoops ir N) + -1)
      with (Z.of_nat (getNumLoops ir N) - 1) in Heqr by lia.
    case_run Heqr.
    match goal with
    | H : bool_decide (_ = reduction) = true |- _ =>
        apply bool_decide_eq_true in H; now subst
    end. }
  split.
  { intros i type Hi.
    destruct (proj1 (allDimsExcept_iff _ _ _ _) H2 i type Hi) as [Hin|Heq];
      [left | now right].
    apply excludedDimsOf_elem in Hin as (d & Hd & Hres).
    assert (d = -1) by set_solver. subst d.
    change (transformed (Z.of_nat (getNumLoops ir N)) (-1))
      with (Z.of_nat (getNumLoops ir N) + -1) in Hres. lia. }
  split; [assumption|]. split; [assumption|].
  split.
  { eexists _, fillOp, _. repeat (split; [first [reflexivity|eassumption]|]).
    simpl. rewrite lookup_insert_ne by exact Hrf.
    rewrite (Ht fillId) by set_solver.
    rewrite (Hl fillId) by set_solver.
    simpl. apply lookup_insert_eq. }
  split; [simpl; apply lookup_insert_eq|].
  split.
  { simpl. rewrite (Htc (reductionRank captures)) by set_solver.
    rewrite (Hlc (reductionRank captures)) by set_solver.
    simpl. rewrite lookup_insert_ne by congruence. apply lookup_insert_eq. }
  split.
  { eexists. split; [eassumption|].
    simpl. rewrite (Htc (reductionDimensionSize captures)) by set_solver.
    rewrite (Hlc (reductionDimensionSize captures)) by set_solver.
    simpl. apply lookup_insert_eq. }
  unfold checkAllTilableMatched in H9.
  destruct (getParentOfType ir N FuncOp) as [parent|]; [|discriminate].
  exists parent. split; [reflexivity|].
  rewrite matched_fold in H9. apply bool_decide_eq_true in H9.
  rewrite (capturedNodes_ext s15 (setCaptured reductionId N s15)).
  - unfold tilableCount. rewrite H9. f_equal. set_solver.
  - intros i Hi. simpl. apply lookup_insert_ne. set_solver.
Qed.

End ReductionSound.

Lemma makeReductionMatcher_certifies_witness :
  reductionCertificate
    reductionIR 11%nat 12%nat 13%nat 10%nat sampleCaptures 1%nat
    (setCaptured 10%nat 1%nat
       (setCaptured 11%nat 0%nat
          (setCell 1%nat 128 (setCell 0%nat 2 emptyState)))).
Proof.
  apply (makeReductionMatcher_certifies
           reductionIR 0 10%nat 11%nat 12%nat 13%nat sampleCaptures 1%nat
           emptyState).
  - repeat constructor; set_solver.
  - repeat constructor; set_solver.
  - vm_compute. reflexivity.
Defined.

Lemma makeReductionMatcher_twice_alike_witness :
  match_ reductionIR 0
         (makeReductionMatcher 10%nat 11%nat 12%nat 13%nat sampleCaptures)
         1%nat
         (setCaptured 10%nat 1%nat
            (setCaptured 11%nat 0%nat
               (setCell 1%nat 128 (setCell 0%nat 2 emptyState))))
  = Ok (true,
        setCaptured 10%nat 1%nat
          (setCaptured 11%nat 0%nat
             (setCell 1%nat 128 (setCell 0%nat 2 emptyState)))).
Proof.
  apply (makeReductionMatcher_twice_alike
           reductionIR 0 10%nat 11%nat 12%nat 13%nat sampleCaptures 1%nat
           emptyState).
  - set_solver.
  - vm_compute. reflexivity.
Defined.

Lemma makeSplitReductionMatcher_twice_alike_witness :
  match_ splitReductionIR 1
         (makeSplitReductionMatcher 20%nat 21%nat 22%nat 23%nat 24%nat 25%nat)
         4%nat splitReductionCaptured
  = Ok (true, splitReductionCaptured).
Proof.
  apply (makeSplitReductionMatcher_twice_alike
           splitReductionIR 1 20%nat 21%nat 22%nat 23%nat 24%nat 25%nat
           4%nat emptyState).
  - set_solver.
  - vm_compute. reflexivity.
Defined.

(** ** Results seen through subsets, and partial captures *)

Section MoreEdges.
Variable ir : IR.

Lemma scanUses_slices_then_user (pre : list OpOperand) (use : OpOperand)
      (rest : list OpOperand) (val : Value) :
  Forall (fun u => opKind ir (getOwner u) = ExtractSliceOp) pre ->
  opKind ir (getOwner use) <> ExtractSliceOp ->
  opKind ir (getOwner use) <> ForeachThreadOp ->
  scanUses ir (pre ++ use :: rest) val = inl (getOwner use).
Proof.
  intros Hpre Hk1 Hk2. revert val.
  induction Hpre as [|u pre Hu _ IH]; intros val; simpl.
  - destruct (opKind ir (getOwner use)); congruence.
  - rewrite Hu. apply IH.
Qed.

(** X25. When the uses of a value are [extract_slice] operations followed
    by a use by an operation that is neither an [extract_slice] nor a
    [foreach_thread], [traverseSubsetsForwardAnyUse] returns that operation
    in its first turn: the users of the slices are not looked at. *)
Theorem traverseSubsetsForwardAnyUse_first_user
        (fuel : nat) (val : Value) (pre : list OpOperand) (use : OpOperand)
        (rest : list OpOperand) :
  getUses ir val = pre ++ use :: rest ->
  Forall (fun u => opKind ir (getOwner u) = ExtractSliceOp) pre ->
  opKind ir (getOwner use) <> ExtractSliceOp ->
  opKind ir (getOwner use) <> ForeachThreadOp ->
  traverseSubsetsForwardAnyUse ir (S fuel) val = Ok (getOwner use).
Proof.
  intros Huses Hpre Hk1 Hk2. simpl. rewrite Huses.
  now rewrite (scanUses_slices_then_user pre use rest val Hpre Hk1 Hk2).
Qed.

(** X26. With the resolved position inside the results, the predicate of
    [result(position, HasAnyUse(), SubsetOf(m), optional)] on a result
    without uses has not returned after any number of turns of the
    traversal, whatever [optional] is. *)
Theorem result_SubsetOf_no_use
        (fuel : nat) (position : Z) (subset : Matcher) (optional : bool)
        (op : Op) (st : State) :
  0 <= transformed (Z.of_nat (getNumResults ir op)) position
    < Z.of_nat (getNumResults ir op) ->
  Z.of_nat (getNumResults ir op) < 2 ^ 32 ->
  getUses ir (OpResult op
                (Z.to_nat (transformed (Z.of_nat (getNumResults ir op))
                                       position)))
  = [] ->
  evalPred ir fuel (PResultSubsetOf position subset optional) op st
  = Crash OutOfFuel.
Proof.
  intros Hpos Hn Huses.
  unfold evalPred, evalPredWith. cbv zeta.
  replace (Z.of_nat (getNumResults ir op)
           <=? transformed (Z.of_nat (getNumResults ir op)) position)
    with false by (symmetry; apply Z.leb_gt; lia).
  rewrite (getResult_in_range ir op _ Hpos Hn). cbn [rbind].
  assert (H : forall f v, getUses ir v = [] ->
                          traverseSubsetsForwardAnyUse ir f v
                          = Crash OutOfFuel).
  { induction f as [|f IH]; intros v Hv; simpl; [reflexivity|].
    rewrite Hv. simpl. now apply IH. }
  now rewrite (H fuel _ Huses).
Qed.

(** X27. The reduction matcher captures the rank before it tests the last
    dimension. On a structured operation of rank below 2 or above 4 the
    match fails and writes nothing; on one of rank 2 to 4 whose last
    dimension is not a reduction, the match fails and the rank is in the
    cell [reductionRank]. *)
Theorem makeReductionMatcher_partial_capture
        (fuel : nat)
        (reductionId fillId leadingId trailingId : MatcherId)
        (captures : MatchedReductionCaptures)
        (N : Op) (st : State) :
  isLinalgOp ir N = true ->
  ((getNumLoops ir N < 2 \/ 4 < getNumLoops ir N)%nat ->
   match_ ir fuel
          (makeReductionMatcher reductionId fillId leadingId trailingId
                                captures) N st
   = Ok (false, st))
  /\ ((2 <= getNumLoops ir N <= 4)%nat ->
      forall last : IteratorType,
        index (getIteratorTypesArray ir N) (Z.of_nat (getNumLoops ir N) - 1)
        = Ok last ->
        last <> reduction ->
        match_ ir fuel
               (makeReductionMatcher reductionId fillId leadingId trailingId
                                     captures) N st
        = Ok (false,
              setCell (reductionRank captures)
                      (Z.of_nat (getNumLoops ir N)) st)).
Proof.
  intros Hlinalg.
  rewrite match_unfold, Hlinalg, makeReductionMatcher_predicates.
  unfold evalPred. cbn [all_of evalPredWith].
  split.
  - intros Hrank.
    destruct (bool_decide (2 <= getNumLoops ir N)%nat) eqn:E2;
      [|reflexivity].
    apply bool_decide_eq_true in E2.
    now rewrite (bool_decide_eq_false_2 (getNumLoops ir N <= 4)%nat) by lia.
  - intros Hrank last Hlast Hnot.
    rewrite (bool_decide_eq_true_2 (2 <= getNumLoops ir N)%nat) by lia.
    rewrite (bool_decide_eq_true_2 (getNumLoops ir N <= 4)%nat) by lia.
    cbn [dimsIter].
    change (transformed (Z.of_nat (getNumLoops ir N)) (-1))
      with (Z.of_nat (getNumLoops ir N) + -1).
    replace (Z.of_nat (getNumLoops ir N) + -1)
      with (Z.of_nat (getNumLoops ir N) - 1) by lia.
    replace (Z.of_nat (getNumLoops ir N) - 1 <? 0) with false
      by (symmetry; apply Z.ltb_ge; lia).
    replace (Z.of_nat (getNumLoops ir N)
             <=? Z.of_nat (getNumLoops ir N) - 1) with false
      by (symmetry; apply Z.leb_gt; lia).
    cbn [orb]. rewrite Hlast. cbn [rbind].
    now rewrite (bool_decide_eq_false_2 (last = reduction)) by exact Hnot.
Qed.

End MoreEdges.

Lemma traverseSubsetsForwardAnyUse_first_user_witness :
  traverseSubsetsForwardAnyUse (irOf sliceAndUserGraph) 1
                               (OpResult 0%nat 0%nat)
  = Ok 2%nat.
Proof.
  apply (traverseSubsetsForwardAnyUse_first_user
           (irOf sliceAndUserGraph) 0 (OpResult 0%nat 0%nat)
           [mkOpOperand 1%nat 0%nat] (mkOpOperand 2%nat 0%nat) []).
  - reflexivity.
  - repeat constructor.
  - discriminate.
  - discriminate.
Defined.

Lemma result_SubsetOf_no_use_witness :
  evalPred reductionIR 100
           (PResultSubsetOf 0 (m_StructuredOp 7%nat) true) 1%nat emptyState
  = Crash OutOfFuel.
Proof.
  apply (result_SubsetOf_no_use reductionIR 100 0 (m_StructuredOp 7%nat)
                                true 1%nat emptyState).
  - vm_compute. split; [discriminate | reflexivity].
  - vm_compute. reflexivity.
  - reflexivity.
Defined.

Lemma makeReductionMatcher_partial_capture_witness :
  match_ (irOf rank5Graph) 0
         (makeReductionMatcher 0%nat 1%nat 2%nat 3%nat sampleCaptures)
         0%nat emptyState
  = Ok (false, emptyState)
  /\ match_ (irOf parallelGraph) 0
            (makeReductionMatcher 0%nat 1%nat 2%nat 3%nat sampleCaptures)
            0%nat emptyState
     = Ok (false, setCell 0%nat 2 emptyState).
Proof.
  split.
  - apply (makeReductionMatcher_partial_capture
             (irOf rank5Graph) 0 0%nat 1%nat 2%nat 3%nat sampleCaptures
             0%nat emptyState).
    + reflexivity.
    + right. vm_compute. lia.
  - apply (makeReductionMatcher_partial_capture
             (irOf parallelGraph) 0 0%nat 1%nat 2%nat 3%nat sampleCaptures
             0%nat emptyState) with (last := parallel).
    + reflexivity.
    + vm_compute. lia.
    + reflexivity.
    + discriminate.
Defined.
